(** * bluesky-widgets plot builders: RecentLines, Image, RasteredImage

    A shallow embedding of [bluesky_widgets/models/plot_builders.py] and the
    properties of its run registry, eviction, deferred activation, colour
    assignment, dimensional collapse, raster reconstruction and axis
    orientation. *)

From Stdlib Require Import ZArith QArith String.
From stdpp Require Import base gmap sets list strings.

Open Scope string_scope.
Open Scope list_scope.
Open Scope nat_scope.

#[local] Set Warnings "-clear-no-such-hyp,-register-all".

(** * Python outcomes *)

Module Py.

(** The exceptions the modelled code can raise. *)
Inductive exn := KeyError | IndexError | ValueError | TypeError | AttributeError.

(** The outcome of a call: a value, a raised exception, or [OutOfFuel], which
    is not a Python outcome: it marks a loop of the model that was cut short
    by its fuel, and is shown below never to be produced. *)
Inductive result (A : Type) :=
| Ok (a : A)
| Raise (e : exn)
| OutOfFuel.

Arguments Ok {A} a.
Arguments Raise {A} e.
Arguments OutOfFuel {A}.

Definition is_ok {A} (r : result A) : bool :=
  match r with Ok _ => true | _ => false end.

End Py.

Import Py.

(** * RecentLines *)

Module RecentLines.

(** A run handle is its [metadata["start"]["uid"]]. *)
Definition uid := string.

(** Modelled from the spec: the Run contract (section 6). [BlueskyRun] and its
    event emitters are not part of this module's source. A run enumerates its
    available stream names ([list(run)]), is live-and-not-completed or not
    ([run_is_live_and_not_completed]), and has two notification channels with
    subscribe/unsubscribe by handler identity; as there is one handler of this
    controller per channel, a subscription is a flag. *)
Record RunObj := {
  streams : list string;
  live : bool;
  new_stream_cb : bool;
  completed_cb : bool
}.

(** Modelled from the spec: the element contract (section 6), [LineSpec] of
    [plot_specs.py]: a unique id, the source run, a label and a mutable style
    dict. The transform is a deferred computation and plays no part here. *)
Record LineSpec := {
  uuid : nat;
  line_run : uid;
  label : string;
  style : gmap string string
}.

(** The constructor's settings that are read-only afterwards. *)
Record Config := {
  x : string;
  ys : list string;
  needs_streams : list string;
  label_maker : uid -> string -> string
}.

(** The controller ([self]) together with the objects it shares with its
    environment: the lines of [self.axes], the source of fresh [uuid]s and the
    run objects. *)
Record State := {
  conf : Config;
  max_runs : Z;                             (* self._max_runs *)
  runs : list uid;                          (* self.runs, a RunList *)
  pinned : gset uid;                        (* self._pinned *)
  color_cycle : nat;                        (* draws made from self._color_cycle *)
  runs_to_lines : gmap uid (gset nat);      (* self._runs_to_lines, a defaultdict(set) *)
  lines : list LineSpec;                    (* self.axes.lines *)
  next_uuid : nat;
  heap : uid -> RunObj
}.

Definition set_max_runs_field (v : Z) (s : State) : State :=
  {| conf := conf s; max_runs := v; runs := runs s; pinned := pinned s;
     color_cycle := color_cycle s; runs_to_lines := runs_to_lines s;
     lines := lines s; next_uuid := next_uuid s; heap := heap s |}.

Definition set_runs (v : list uid) (s : State) : State :=
  {| conf := conf s; max_runs := max_runs s; runs := v; pinned := pinned s;
     color_cycle := color_cycle s; runs_to_lines := runs_to_lines s;
     lines := lines s; next_uuid := next_uuid s; heap := heap s |}.

Definition set_pinned (v : gset uid) (s : State) : State :=
  {| conf := conf s; max_runs := max_runs s; runs := runs s; pinned := v;
     color_cycle := color_cycle s; runs_to_lines := runs_to_lines s;
     lines := lines s; next_uuid := next_uuid s; heap := heap s |}.

Definition set_color_cycle (v : nat) (s : State) : State :=
  {| conf := conf s; max_runs := max_runs s; runs := runs s; pinned := pinned s;
     color_cycle := v; runs_to_lines := runs_to_lines s;
     lines := lines s; next_uuid := next_uuid s; heap := heap s |}.

Definition set_runs_to_lines (v : gmap uid (gset nat)) (s : State) : State :=
  {| conf := conf s; max_runs := max_runs s; runs := runs s; pinned := pinned s;
     color_cycle := color_cycle s; runs_to_lines := v;
     lines := lines s; next_uuid := next_uuid s; heap := heap s |}.

Definition set_lines (v : list LineSpec) (s : State) : State :=
  {| conf := conf s; max_runs := max_runs s; runs := runs s; pinned := pinned s;
     color_cycle := color_cycle s; runs_to_lines := runs_to_lines s;
     lines := v; next_uuid := next_uuid s; heap := heap s |}.

Definition set_next_uuid (v : nat) (s : State) : State :=
  {| conf := conf s; max_runs := max_runs s; runs := runs s; pinned := pinned s;
     color_cycle := color_cycle s; runs_to_lines := runs_to_lines s;
     lines := lines s; next_uuid := v; heap := heap s |}.

Definition set_heap (v : uid -> RunObj) (s : State) : State :=
  {| conf := conf s; max_runs := max_runs s; runs := runs s; pinned := pinned s;
     color_cycle := color_cycle s; runs_to_lines := runs_to_lines s;
     lines := lines s; next_uuid := next_uuid s; heap := v |}.

Definition set_run_obj (r : uid) (o : RunObj) (s : State) : State :=
  set_heap (fun r' => if decide (r' = r) then o else heap s r') s.

(** A method of the controller: it changes the state and returns or raises.
    What was written before an exception was raised stays written.

    Modelled from the spec: the registry [RunList] and the event emitters are
    not part of this module's source. The registry is an ordered collection
    of runs with insertion and removal notifications (section 3), and a
    notification is a synchronous call of the connected handler (section 9):
    an exception that the handler raises reaches the caller of [append],
    [remove] or [pop], after the list itself was changed. *)
Definition M := State -> State * result unit.

Definition andThen (c k : M) : M :=
  fun s => match c s with
           | (s', Ok _) => k s'
           | (s', Raise e) => (s', Raise e)
           | (s', OutOfFuel) => (s', OutOfFuel)
           end.

(** ** The colour cycle: [itertools.cycle(f"C{i}" for i in range(10))] *)

Definition palette : list string :=
  ["C0"; "C1"; "C2"; "C3"; "C4"; "C5"; "C6"; "C7"; "C8"; "C9"].

(** The colour that the [n]-th call of [next] returns (counting from 0). *)
Definition cycle_color (n : nat) : string :=
  nth (n mod 10) palette "C0".

(** The colour of live runs. *)
Definition black : string := "black".

(** ** Lists with Python's [remove] and [pop] *)

(** [l.remove(x)] for an [x] that is in [l]: the first occurrence goes. *)
Fixpoint remove_first {A} (p : A -> bool) (l : list A) : list A :=
  match l with
  | [] => []
  | a :: l' => if p a then l' else a :: remove_first p l'
  end.

Definition is_run (r : uid) : uid -> bool := fun r' => bool_decide (r' = r).
Definition has_uuid (u : nat) : LineSpec -> bool := fun l => bool_decide (uuid l = u).

(** Modelled from the spec: the id-to-element lookup of the rendering
    container (section 6), [self.axes.by_uuid[line_uuid]]; [None] stands for
    its KeyError. *)
Definition by_uuid (ls : list LineSpec) (u : nat) : option LineSpec :=
  find (has_uuid u) ls.

(** ** [_on_run_removed] *)

(** One turn of the loop over [line_uuids]. *)
Definition remove_line (ls : list LineSpec) (u : nat) : list LineSpec :=
  match by_uuid ls u with
  | None => ls                                (* except KeyError: continue *)
  | Some _ => remove_first (has_uuid u) ls    (* self.axes.lines.remove(line) *)
  end.

Definition _on_run_removed (r : uid) : M := fun s =>
  let s1 := set_pinned (pinned s ∖ {[r]}) s in
  match runs_to_lines s1 !! r with
  | None => (s1, Raise KeyError)              (* self._runs_to_lines.pop(run_uid) *)
  | Some line_uuids =>
      let s2 := set_runs_to_lines (delete r (runs_to_lines s1)) s1 in
      (set_lines (foldl remove_line (lines s2) (elements line_uuids)) s2, Ok tt)
  end.

(** ** [_cull_runs] *)

(** The inner loop, on the registry from index [i] on: [i] moves past the
    pinned runs; [None] is the IndexError of [self.runs[i]] past the end. *)
Fixpoint skip_pinned (pin : gset uid) (rest : list uid) (i : nat) : option nat :=
  match rest with
  | [] => None
  | r :: rest' => if decide (r ∈ pin) then skip_pinned pin rest' (S i) else Some i
  end.

Definition over_capacity (s : State) : bool :=
  (max_runs s + Z.of_nat (size (pinned s)) <? Z.of_nat (length (runs s)))%Z.

(** The outer loop; [self.runs.pop(j)] notifies [_on_run_removed]. *)
Fixpoint cull_loop (fuel : nat) (i : nat) (s : State) : State * result unit :=
  if over_capacity s then
    match fuel with
    | O => (s, OutOfFuel)
    | S fuel' =>
        match skip_pinned (pinned s) (drop i (runs s)) i with
        | None => (s, Raise IndexError)
        | Some j =>
            match runs s !! j with
            | None => (s, Raise IndexError)
            | Some r =>
                andThen (_on_run_removed r) (cull_loop fuel' j)
                        (set_runs (delete j (runs s)) s)
            end
        end
    end
  else (s, Ok tt).

Definition _cull_runs : M := fun s => cull_loop (S (length (runs s))) 0 s.

(** ** [_add_lines] *)

(** [run.events.completed.connect(self._on_run_complete)] *)
Definition connect_completed (r : uid) (s : State) : State :=
  let o := heap s r in
  set_run_obj r {| streams := streams o; live := live o;
                   new_stream_cb := new_stream_cb o; completed_cb := true |} s.

(** [run.events.new_stream.connect / disconnect (self._on_new_stream)] *)
Definition set_new_stream_cb (r : uid) (b : bool) (s : State) : State :=
  let o := heap s r in
  set_run_obj r {| streams := streams o; live := live o;
                   new_stream_cb := b; completed_cb := completed_cb o |} s.

(** The body of the loop over [self.ys]. *)
Definition add_line (r : uid) (s : State) (y : string) : State :=
  let lbl := label_maker (conf s) r y in
  let '(color, s1) :=
    if live (heap s r)
    then (black, connect_completed r s)
    else (cycle_color (color_cycle s), set_color_cycle (S (color_cycle s)) s) in
  let sty : gmap string string := {[ "color" := color ]} in
  let '(sty, lbl) :=
    if decide (r ∈ pinned s1)
    then (<[ "linestyle" := "dashed" ]> sty, (lbl ++ " (pinned)")%string)
    else (sty, lbl) in
  let line := {| uuid := next_uuid s1; line_run := r; label := lbl; style := sty |} in
  let s2 := set_next_uuid (S (next_uuid s1)) s1 in
  let s3 := set_runs_to_lines
              (<[ r := default ∅ (runs_to_lines s2 !! r) ∪ {[ uuid line ]} ]>
                 (runs_to_lines s2)) s2 in
  set_lines (lines s3 ++ [line]) s3.

Definition _add_lines (r : uid) : M :=
  andThen _cull_runs (fun s => (foldl (add_line r) s (ys (conf s)), Ok tt)).

(** ** The handlers of the registry and of the runs *)

(** [set(self.needs_streams).issubset(set(list(run)))] *)
Definition streams_ready (r : uid) (s : State) : bool :=
  bool_decide (list_to_set (needs_streams (conf s)) ⊆@{gset string}
               list_to_set (streams (heap s r))).

Definition _on_run_added (r : uid) : M := fun s =>
  if streams_ready r s then _add_lines r s
  else (set_new_stream_cb r true s, Ok tt).

Definition _on_new_stream (r : uid) : M := fun s =>
  if streams_ready r s
  then andThen (_add_lines r) (fun s' => (set_new_stream_cb r false s', Ok tt)) s
  else (s, Ok tt).

(** One turn of the loop over [line_uuids] in [_on_run_complete]. *)
Definition set_color (c : string) (l : LineSpec) : LineSpec :=
  {| uuid := uuid l; line_run := line_run l; label := label l;
     style := <[ "color" := c ]> (style l) |}.

Definition recolor_line (s : State) (u : nat) : State :=
  match by_uuid (lines s) u with
  | None => s                                  (* except KeyError: continue *)
  | Some _ =>
      let c := cycle_color (color_cycle s) in
      set_lines (map (fun l => if has_uuid u l then set_color c l else l) (lines s))
                (set_color_cycle (S (color_cycle s)) s)
  end.

(** [self._runs_to_lines[run_uid]] is a lookup in a [defaultdict(set)]: a
    missing key is inserted with an empty set, and no KeyError is raised. *)
Definition _on_run_complete (r : uid) : M := fun s =>
  let line_uuids := default ∅ (runs_to_lines s !! r) in
  let s1 := set_runs_to_lines (<[ r := line_uuids ]> (runs_to_lines s)) s in
  (foldl recolor_line s1 (elements line_uuids), Ok tt).

(** ** The public methods *)

(** [RunList.append] stores the run, then notifies [_on_run_added]. *)
Definition add_run (r : uid) (pin : bool) : M := fun s =>
  let s1 := if pin then set_pinned (pinned s ∪ {[r]}) s else s in
  _on_run_added r (set_runs (runs s1 ++ [r]) s1).

(** [RunList.remove] takes the first occurrence out, then notifies
    [_on_run_removed]. *)
Definition discard_run (r : uid) : M := fun s =>
  if decide (r ∈ runs s)
  then _on_run_removed r (set_runs (remove_first (is_run r) (runs s)) s)
  else (s, Ok tt).

(** The setter of [max_runs]. *)
Definition set_max_runs (v : Z) : M := fun s =>
  _cull_runs (set_max_runs_field v s).

(** ** The environment *)

(** Modelled from the spec: the run's "new stream became available"
    notification (section 6): the stream is there, then the subscribed
    handler is called. *)
Definition stream_arrives (r : uid) (name : string) (s : State) : State :=
  let o := heap s r in
  set_run_obj r {| streams := streams o ++ [name]; live := live o;
                   new_stream_cb := new_stream_cb o;
                   completed_cb := completed_cb o |} s.

Definition fire_new_stream (r : uid) (name : string) : M := fun s =>
  if new_stream_cb (heap s r)
  then _on_new_stream r (stream_arrives r name s)
  else (stream_arrives r name s, Ok tt).

(** Modelled from the spec: the run's "run completed" notification
    (section 6): the run is no longer live, then the subscribed handler is
    called. *)
Definition run_completes (r : uid) (s : State) : State :=
  let o := heap s r in
  set_run_obj r {| streams := streams o; live := false;
                   new_stream_cb := new_stream_cb o;
                   completed_cb := completed_cb o |} s.

Definition fire_completed (r : uid) : M := fun s =>
  if completed_cb (heap s r)
  then _on_run_complete r (run_completes r s)
  else (run_completes r s, Ok tt).

(** ** The constructor *)

(** What is passed for [ys]: a string, or a list of expressions. *)
Inductive ys_arg := YsStr (y : string) | YsList (l : list string).

(** The controller as [__init__] leaves it: no run, no pin, no line, the
    colour cycle at its start. *)
Definition fresh (max_runs : Z) (c : Config) (heap : uid -> RunObj) : State :=
  {| conf := c; max_runs := max_runs; runs := []; pinned := ∅; color_cycle := 0;
     runs_to_lines := ∅; lines := []; next_uuid := 0; heap := heap |}.

Definition init (max_runs : Z) (x : string) (ys : ys_arg)
    (label_maker : uid -> string -> string) (needs_streams : list string)
    (heap : uid -> RunObj) : result State :=
  match ys with
  | YsStr _ => Raise ValueError   (* "`ys` must be a list of strings, not a string" *)
  | YsList l =>
      Ok (fresh max_runs
            {| x := x; ys := l; needs_streams := needs_streams;
               label_maker := label_maker |} heap)
  end.

(** ** Sequences of calls *)

Inductive op :=
| AddRun (r : uid) (pin : bool)
| DiscardRun (r : uid)
| SetMaxRuns (v : Z)
| NewStream (r : uid) (name : string)
| Completed (r : uid).

Definition step (o : op) : M :=
  match o with
  | AddRun r pin => add_run r pin
  | DiscardRun r => discard_run r
  | SetMaxRuns v => set_max_runs v
  | NewStream r name => fire_new_stream r name
  | Completed r => fire_completed r
  end.

(** The calls are made one after the other, each from the state the previous
    one left, whether it returned or raised. *)
Definition exec (os : list op) (s : State) : State :=
  foldl (fun s o => fst (step o s)) s os.

(** The outcomes of the calls of [exec], in order. *)
Fixpoint outcomes (os : list op) (s : State) : list (result unit) :=
  match os with
  | [] => []
  | o :: os' => snd (step o s) :: outcomes os' (fst (step o s))
  end.

(** ** Predicates on states *)

(** The settings that only the constructor and the setter of [max_runs]
    write. *)
Definition same_settings (s s' : State) : Prop :=
  conf s' = conf s ∧ max_runs s' = max_runs s.

(** The run [u] is tracked and pinned. *)
Definition kept (u : uid) (s : State) : Prop := u ∈ pinned s ∧ u ∈ runs s.

(** Every tracked run has an entry in [_runs_to_lines]. *)
Definition indexed (s : State) : Prop :=
  ∀ r, r ∈ runs s → is_Some (runs_to_lines s !! r).

(** The colour that a line created for [r] in state [s] starts with. *)
Definition initial_color (r : uid) (s : State) : string :=
  if live (heap s r) then black else cycle_color (color_cycle s).

(** [len(self.runs) <= self.max_runs + len(self._pinned)] *)
Definition within_capacity (s : State) : Prop :=
  (Z.of_nat (length (runs s)) ≤ max_runs s + Z.of_nat (size (pinned s)))%Z.

(** ** Some runs and controllers *)

(** A run that is over, with its primary stream. *)
Definition completed_run : RunObj :=
  {| streams := ["primary"]; live := false;
     new_stream_cb := false; completed_cb := false |}.

(** A run that is being acquired and has its primary stream. *)
Definition live_run : RunObj :=
  {| streams := ["primary"]; live := true;
     new_stream_cb := false; completed_cb := false |}.

(** A run that has just started: no stream yet. *)
Definition starting_run : RunObj :=
  {| streams := []; live := true;
     new_stream_cb := false; completed_cb := false |}.

(** The runs ["w1"] and ["w2"] have just started, ["live"] is being
    acquired, every other run is over. *)
Definition some_runs : uid -> RunObj := fun r =>
  if decide (r = "w1") then starting_run
  else if decide (r = "w2") then starting_run
  else if decide (r = "live") then live_run
  else completed_run.

Definition scan_label : uid -> string -> string := fun _ _ => "Scan ?".

(** [RecentLines(max_runs, "motor", ["det"])] *)
Definition one_y : Config :=
  {| x := "motor"; ys := ["det"]; needs_streams := ["primary"];
     label_maker := scan_label |}.

(** [RecentLines(max_runs, "motor", ["I0", "It"])] *)
Definition two_ys : Config :=
  {| x := "motor"; ys := ["I0"; "It"]; needs_streams := ["primary"];
     label_maker := scan_label |}.

(** ** Eviction and the index, as properties *)

(** The registry [l] without its first [k] runs that are not pinned. *)
Fixpoint evict (k : nat) (pin : gset uid) (l : list uid) : list uid :=
  match l with
  | [] => []
  | a :: l' =>
      match k with
      | O => l
      | S k' => if decide (a ∈ pin) then a :: evict k pin l' else evict k' pin l'
      end
  end.

(** The lines of the axes and [_runs_to_lines] agree: line ids are distinct
    and were all handed out already, every line is indexed under its run, and
    an entry of the index names lines of its own run only. *)
Record lock_step (s : State) : Prop := {
  lines_distinct : NoDup (uuid <$> lines s);
  lines_known : ∀ l, l ∈ lines s → uuid l < next_uuid s;
  index_known : ∀ r ids u, runs_to_lines s !! r = Some ids → u ∈ ids →
                           u < next_uuid s;
  lines_indexed : ∀ l, l ∈ lines s →
                       ∃ ids, runs_to_lines s !! line_run l = Some ids ∧ uuid l ∈ ids;
  index_own : ∀ r ids l, runs_to_lines s !! r = Some ids → l ∈ lines s →
                         uuid l ∈ ids → line_run l = r
}.

(** The line [l'] is the line [l] but for its colour. *)
Definition recolored (l l' : LineSpec) : Prop :=
  uuid l' = uuid l ∧ line_run l' = line_run l ∧ label l' = label l ∧
  ∀ key, key ≠ "color" → style l' !! key = style l !! key.

(** Every pinned uid is the uid of a tracked run. *)
Definition pins_tracked (s : State) : Prop := ∀ u, u ∈ pinned s → u ∈ runs s.

(** The call adds a run whose required streams are not all there yet. *)
Definition deferred_add (o : op) (s : State) : Prop :=
  ∃ r pin, o = AddRun r pin ∧ streams_ready r s = false.

(** The [k]-th line that [_add_lines] creates for [r] in state [s], for the
    expression [y]. *)
Definition new_line (r : uid) (s : State) (k : nat) (y : string) : LineSpec :=
  let color := if live (heap s r) then black
               else cycle_color (color_cycle s + k) in
  {| uuid := next_uuid s + k;
     line_run := r;
     label := if decide (r ∈ pinned s)
              then (label_maker (conf s) r y ++ " (pinned)")%string
              else label_maker (conf s) r y;
     style := if decide (r ∈ pinned s)
              then <[ "linestyle" := "dashed" ]> {[ "color" := color ]}
              else {[ "color" := color ]} |}.

End RecentLines.

(** * Image *)

Module Image.

Section Array.

Context {A : Type}.

(** What [numpy.asarray(call_or_eval((field,), run, ...))] unpacks to: an
    array given by its shape and its elements in row-major order. *)
Record ndarray := {
  shape : list nat;
  data : list A
}.

Definition ndim (a : ndarray) : nat := length (shape a).

(** The number of elements of an array of shape [sh]. *)
Definition shape_size (sh : list nat) : nat := foldr Nat.mul 1 sh.

(** The array has as many elements as its shape says. *)
Definition well_formed (a : ndarray) : Prop :=
  length (data a) = shape_size (shape a).

(** [a[i]]: the [i]-th slice along the leading axis. *)
Definition index0 (a : ndarray) (i : nat) : result ndarray :=
  match shape a with
  | [] => Raise IndexError
  | n :: sh =>
      if decide (i < n)
      then Ok {| shape := sh;
                 data := take (shape_size sh) (drop (i * shape_size sh) (data a)) |}
      else Raise IndexError
  end.

(** [middle = data.shape[0] // 2; data = data[middle]] *)
Definition middle_slice (a : ndarray) : result ndarray :=
  index0 a (hd 0 (shape a) / 2).

(** [while data.ndim > 2: ...] *)
Fixpoint collapse (fuel : nat) (a : ndarray) : result ndarray :=
  if decide (2 < ndim a) then
    match fuel with
    | O => OutOfFuel
    | S fuel' =>
        match middle_slice a with
        | Ok a' => collapse fuel' a'
        | Raise e => Raise e
        | OutOfFuel => OutOfFuel
        end
    end
  else Ok a.

Definition _transform (a : ndarray) : result ndarray := collapse (ndim a) a.

(** The spec's words, "repeatedly takes the slice at the floor-of-half index
    along the leading axis": [n] such slices, one after the other. *)
Fixpoint repeat_middle_slice (n : nat) (a : ndarray) : result ndarray :=
  match n with
  | O => Ok a
  | S n' =>
      match middle_slice a with
      | Ok a' => repeat_middle_slice n' a'
      | Raise e => Raise e
      | OutOfFuel => OutOfFuel
      end
  end.

End Array.

Arguments ndarray A : clear implicits.

(** Where, in row-major order, the slice at the middle indices of the first
    [n] axes starts. *)
Fixpoint middle_offset (n : nat) (sh : list nat) {struct n} : nat :=
  match n, sh with
  | S n', d :: rest => (d / 2) * shape_size rest + middle_offset n' rest
  | _, _ => 0
  end.

(** ** The controller and its axes *)

(** Modelled from the spec: the element contract (section 6), [ImageSpec] of
    [plot_specs.py], here with the run it shows and its label. *)
Record ImageSpec := {
  image_run : string;
  image_label : string
}.

(** What [_add_image] reads of a run: its uid and, for a field, the outcome
    of [run.primary.read()[field].shape]: the shape of the array, or the
    exception of the read (AttributeError for a run without a primary stream,
    KeyError for a field that the stream does not hold). *)
Record Run := {
  run_uid : string;
  array_shape : string → result (list nat)
}.

(** The controller and the axes it owns: [self._run], [self.axes.images],
    [self.axes.title] and the limits of the axes. *)
Record Model := {
  field : string;
  label_maker : Run → string → string;
  _run : option Run;
  images : list ImageSpec;
  title : option string;
  x_limits : option (Q * Q);
  y_limits : option (Q * Q)
}.

Definition set_run_field (v : option Run) (m : Model) : Model :=
  {| field := field m; label_maker := label_maker m; _run := v;
     images := images m; title := title m;
     x_limits := x_limits m; y_limits := y_limits m |}.

Definition set_images (v : list ImageSpec) (m : Model) : Model :=
  {| field := field m; label_maker := label_maker m; _run := _run m;
     images := v; title := title m;
     x_limits := x_limits m; y_limits := y_limits m |}.

Definition set_title (v : option string) (m : Model) : Model :=
  {| field := field m; label_maker := label_maker m; _run := _run m;
     images := images m; title := v;
     x_limits := x_limits m; y_limits := y_limits m |}.

Definition set_x_limits (v : option (Q * Q)) (m : Model) : Model :=
  {| field := field m; label_maker := label_maker m; _run := _run m;
     images := images m; title := title m;
     x_limits := v; y_limits := y_limits m |}.

Definition set_y_limits (v : option (Q * Q)) (m : Model) : Model :=
  {| field := field m; label_maker := label_maker m; _run := _run m;
     images := images m; title := title m;
     x_limits := x_limits m; y_limits := v |}.

(** [t[-k]] for [k >= 1]: the [k]-th element from the end, or IndexError. *)
Definition from_end (t : list nat) (k : nat) : result nat :=
  if decide (k ≤ length t)
  then match t !! (length t - k) with
       | Some n => Ok n
       | None => Raise IndexError
       end
  else Raise IndexError.

(** [(-0.5, n - 0.5)] *)
Definition pixel_limits (n : nat) : Q * Q :=
  ((-(1 # 2))%Q, (inject_Z (Z.of_nat n) - (1 # 2))%Q).

(** The read comes first: when it raises, nothing has been appended. *)
Definition _add_image (r : Run) (m : Model) : Model * result unit :=
  let image := {| image_run := run_uid r; image_label := field m |} in
  match array_shape r (field m) with
  | Ok array_shape =>
      let m1 := set_images (images m ++ [image]) m in
      let m2 := set_title (Some (label_maker m1 r (field m1))) m1 in
      let step_x :=
        match x_limits m2 with
        | Some _ => (m2, Ok tt)
        | None =>
            match from_end array_shape 1 with
            | Ok n => (set_x_limits (Some (pixel_limits n)) m2, Ok tt)
            | Raise e => (m2, Raise e)
            | OutOfFuel => (m2, OutOfFuel)
            end
        end in
      match step_x with
      | (m3, Ok _) =>
          match y_limits m3 with
          | Some _ => (m3, Ok tt)
          | None =>
              match from_end array_shape 2 with
              | Ok n => (set_y_limits (Some (pixel_limits n)) m3, Ok tt)
              | Raise e => (m3, Raise e)
              | OutOfFuel => (m3, OutOfFuel)
              end
          end
      | other => other
      end
  | Raise e => (m, Raise e)
  | OutOfFuel => (m, OutOfFuel)
  end.

(** The setter of [run]. *)
Definition set_run (value : option Run) (m : Model) : Model * result unit :=
  let m1 := set_images [] (set_run_field value m) in
  match value with
  | Some r => _add_image r m1
  | None => (m1, Ok tt)
  end.

(** The controller as [__init__] leaves it, with axes of its own: no image,
    no title, no limits. *)
Definition fresh (field : string) (label_maker : Run → string → string) : Model :=
  {| field := field; label_maker := label_maker; _run := None; images := [];
     title := None; x_limits := None; y_limits := None |}.

(** A run whose primary stream holds one field, an array of the given
    shape. *)
Definition run_with (uid field : string) (shape : list nat) : Run :=
  {| run_uid := uid;
     array_shape := λ f, if bool_decide (f = field) then Ok shape
                         else Raise KeyError |}.

(** A run that has no primary stream. *)
Definition run_without_primary (uid : string) : Run :=
  {| run_uid := uid; array_shape := λ _, Raise AttributeError |}.

End Image.

(** * RasteredImage *)

Module RasteredImage.

(** ** Orientation *)

(** A number as Python has it, an int or a float: a rational, an infinity
    or NaN. *)
Inductive num :=
| Fin (q : Q)
| PInf
| NInf
| NaN.

(** [a <= b]; every comparison with NaN is false. *)
Definition num_le (a b : num) : bool :=
  match a, b with
  | NaN, _ | _, NaN => false
  | NInf, _ | _, PInf => true
  | Fin x, Fin y => Qle_bool x y
  | _, _ => false
  end.

(** [a >= b], [a > b], [a == b] and [a != b]. *)
Definition num_ge (a b : num) : bool := num_le b a.
Definition num_gt (a b : num) : bool := num_le b a && negb (num_le a b).
Definition num_eq (a b : num) : bool := num_le a b && num_le b a.
Definition num_ne (a b : num) : bool := negb (num_eq a b).

(** The controller's stored orientations and the limits of its axes; limits
    are a pair of numbers or [None]. *)
Record State := {
  _x_positive : string;
  _y_positive : string;
  x_limits : option (num * num);
  y_limits : option (num * num)
}.

Definition set__x_positive (v : string) (s : State) : State :=
  {| _x_positive := v; _y_positive := _y_positive s;
     x_limits := x_limits s; y_limits := y_limits s |}.

Definition set__y_positive (v : string) (s : State) : State :=
  {| _x_positive := _x_positive s; _y_positive := v;
     x_limits := x_limits s; y_limits := y_limits s |}.

Definition set_x_limits (v : option (num * num)) (s : State) : State :=
  {| _x_positive := _x_positive s; _y_positive := _y_positive s;
     x_limits := v; y_limits := y_limits s |}.

Definition set_y_limits (v : option (num * num)) (s : State) : State :=
  {| _x_positive := _x_positive s; _y_positive := _y_positive s;
     x_limits := x_limits s; y_limits := v |}.

Definition str_eq (a b : string) : bool := bool_decide (a = b).

(** The getter of [x_positive]; unpacking limits that are [None] is a
    TypeError. *)
Definition get_x_positive (s : State) : State * result string :=
  match x_limits s with
  | None => (s, Raise TypeError)
  | Some (xmin, xmax) =>
      let s1 := if num_gt xmin xmax then set__x_positive "left" s
                else set__x_positive "right" s in
      (s1, Ok (_x_positive s1))
  end.

(** The setter of [x_positive]. *)
Definition set_x_positive (value : string) (s : State) : State * result unit :=
  if negb (bool_decide (value ∈ ["right"; "left"])) then (s, Raise ValueError)
  else
    let s1 := set__x_positive value s in
    match x_limits s1 with
    | None => (s1, Raise TypeError)
    | Some (xmin, xmax) =>
        if (num_gt xmin xmax && str_eq (_x_positive s1) "right")
           || (num_gt xmax xmin && str_eq (_x_positive s1) "left")
        then (set_x_limits (Some (xmax, xmin)) s1, Ok tt)
        else if (num_ge xmax xmin && str_eq (_x_positive s1) "right")
                || (num_ge xmin xmax && str_eq (_x_positive s1) "left")
        then (set__x_positive value (set_x_limits (Some (xmin, xmax)) s1), Ok tt)
        else (s1, Ok tt)
    end.

(** The getter of [y_positive]. *)
Definition get_y_positive (s : State) : State * result string :=
  match y_limits s with
  | None => (s, Raise TypeError)
  | Some (ymin, ymax) =>
      let s1 := if num_gt ymin ymax then set__y_positive "down" s
                else set__y_positive "up" s in
      (s1, Ok (_y_positive s1))
  end.

(** The setter of [y_positive]. *)
Definition set_y_positive (value : string) (s : State) : State * result unit :=
  if negb (bool_decide (value ∈ ["up"; "down"])) then (s, Raise ValueError)
  else
    let s1 := set__y_positive value s in
    match y_limits s1 with
    | None => (s1, Raise TypeError)
    | Some (ymin, ymax) =>
        if (num_gt ymin ymax && str_eq (_y_positive s1) "up")
           || (num_gt ymax ymin && str_eq (_y_positive s1) "down")
        then (set_y_limits (Some (ymax, ymin)) s1, Ok tt)
        else if (num_ge ymax ymin && str_eq (_y_positive s1) "up")
                || (num_ge ymin ymax && str_eq (_y_positive s1) "down")
        then (set__y_positive value (set_y_limits (Some (ymin, ymax)) s1), Ok tt)
        else (s1, Ok tt)
    end.

(** ** The raster *)

Section Raster.

Context {A : Type}.

(** A grid of [rows] rows; [None] is NaN, "no data yet". *)
Definition grid := list (list (option A)).

(** [numpy.ones(self._shape) * numpy.nan] *)
Definition blank (shape : nat * nat) : grid :=
  replicate (fst shape) (replicate (snd shape) None).

(** [numpy.unravel_index(i, self._shape)], row-major; an index past the end
    of the shape is a ValueError. *)
Definition unravel_index (i : nat) (shape : nat * nat) : result (nat * nat) :=
  if decide (i < fst shape * snd shape)
  then Ok (i / snd shape, i mod snd shape)
  else Raise ValueError.

(** The loop [for i in range(len(data))], from index [i] on, [data] being
    what is left of the 1D array. *)
Fixpoint fill (shape : nat * nat) (snaking : bool * bool) (i : nat)
    (data : list A) (i_data : grid) : result grid :=
  match data with
  | [] => Ok i_data
  | d :: rest =>
      match unravel_index i shape with
      | Ok (r, c) =>
          let c' := if snd snaking && Nat.odd r then snd shape - c - 1 else c in
          fill shape snaking (S i) rest (alter (<[ c' := Some d ]>) r i_data)
      | Raise e => Raise e
      | OutOfFuel => OutOfFuel
      end
  end.

Definition _transform (shape : nat * nat) (snaking : bool * bool)
    (data : list A) : result grid :=
  fill shape snaking 0 data (blank shape).

End Raster.

(** ** The controller and its axes *)

(** The values of settings and of style entries. *)
Inductive pyval :=
| PNone
| PStr (s : string)
| PNum (q : Q)
| PTuple (l : list pyval).

(** Modelled from the spec: the element contract (section 6), [ImageSpec] of
    [plot_specs.py]: the run it shows, its label and its style dict. *)
Record ImageSpec := {
  image_run : string;
  image_label : string;
  style : gmap string pyval
}.

(** What [_add_image] reads of a run: [run.metadata["start"]], in which the
    keys "motors" and "shape" may be missing. *)
Record RunStart := {
  uid : string;
  motors : option (list string);
  md_shape : option (list nat)
}.

(** The controller and the axes it owns; [orient] holds the stored
    orientations and the limits of the axes. *)
Record Model := {
  orient : State;
  field : string;
  label_maker : RunStart → string → string;
  _cmap : pyval;
  _clim : pyval;
  _extent : pyval;
  _run : option RunStart;
  images : list ImageSpec;
  title : option string;
  x_label : option string;
  y_label : option string
}.

Definition set_orient (v : State) (m : Model) : Model :=
  {| orient := v; field := field m; label_maker := label_maker m;
     _cmap := _cmap m; _clim := _clim m; _extent := _extent m; _run := _run m;
     images := images m; title := title m;
     x_label := x_label m; y_label := y_label m |}.

Definition set_cmap_field (v : pyval) (m : Model) : Model :=
  {| orient := orient m; field := field m; label_maker := label_maker m;
     _cmap := v; _clim := _clim m; _extent := _extent m; _run := _run m;
     images := images m; title := title m;
     x_label := x_label m; y_label := y_label m |}.

Definition set_clim_field (v : pyval) (m : Model) : Model :=
  {| orient := orient m; field := field m; label_maker := label_maker m;
     _cmap := _cmap m; _clim := v; _extent := _extent m; _run := _run m;
     images := images m; title := title m;
     x_label := x_label m; y_label := y_label m |}.

Definition set_extent_field (v : pyval) (m : Model) : Model :=
  {| orient := orient m; field := field m; label_maker := label_maker m;
     _cmap := _cmap m; _clim := _clim m; _extent := v; _run := _run m;
     images := images m; title := title m;
     x_label := x_label m; y_label := y_label m |}.

Definition set_run_field (v : option RunStart) (m : Model) : Model :=
  {| orient := orient m; field := field m; label_maker := label_maker m;
     _cmap := _cmap m; _clim := _clim m; _extent := _extent m; _run := v;
     images := images m; title := title m;
     x_label := x_label m; y_label := y_label m |}.

Definition set_images (v : list ImageSpec) (m : Model) : Model :=
  {| orient := orient m; field := field m; label_maker := label_maker m;
     _cmap := _cmap m; _clim := _clim m; _extent := _extent m; _run := _run m;
     images := v; title := title m;
     x_label := x_label m; y_label := y_label m |}.

Definition set_title (v : option string) (m : Model) : Model :=
  {| orient := orient m; field := field m; label_maker := label_maker m;
     _cmap := _cmap m; _clim := _clim m; _extent := _extent m; _run := _run m;
     images := images m; title := v;
     x_label := x_label m; y_label := y_label m |}.

Definition set_x_label (v : option string) (m : Model) : Model :=
  {| orient := orient m; field := field m; label_maker := label_maker m;
     _cmap := _cmap m; _clim := _clim m; _extent := _extent m; _run := _run m;
     images := images m; title := title m;
     x_label := v; y_label := y_label m |}.

Definition set_y_label (v : option string) (m : Model) : Model :=
  {| orient := orient m; field := field m; label_maker := label_maker m;
     _cmap := _cmap m; _clim := _clim m; _extent := _extent m; _run := _run m;
     images := images m; title := title m;
     x_label := x_label m; y_label := v |}.

(** [i.style.update({key: value})] *)
Definition update_style (key : string) (v : pyval) (i : ImageSpec) : ImageSpec :=
  {| image_run := image_run i; image_label := image_label i;
     style := <[ key := v ]> (style i) |}.

(** The setters of [cmap], [clim] and [extent]. *)
Definition set_cmap (value : pyval) (m : Model) : Model :=
  let m1 := set_cmap_field value m in
  set_images (update_style "cmap" value <$> images m1) m1.

Definition set_clim (value : pyval) (m : Model) : Model :=
  let m1 := set_clim_field value m in
  set_images (update_style "clim" value <$> images m1) m1.

Definition set_extent (value : pyval) (m : Model) : Model :=
  let m1 := set_extent_field value m in
  set_images (update_style "extent" value <$> images m1) m1.

(** The properties [x_positive] and [y_positive] of the controller. *)
Definition x_positive (m : Model) : Model * result string :=
  (set_orient (fst (get_x_positive (orient m))) m,
   snd (get_x_positive (orient m))).

Definition x_positive_set (value : string) (m : Model) : Model * result unit :=
  (set_orient (fst (set_x_positive value (orient m))) m,
   snd (set_x_positive value (orient m))).

Definition y_positive (m : Model) : Model * result string :=
  (set_orient (fst (get_y_positive (orient m))) m,
   snd (get_y_positive (orient m))).

Definition y_positive_set (value : string) (m : Model) : Model * result unit :=
  (set_orient (fst (set_y_positive value (orient m))) m,
   snd (set_y_positive value (orient m))).

(** [md[key][i]]: KeyError for a missing key, IndexError past the end. *)
Definition md_item {X} (entry : option (list X)) (i : nat) : result X :=
  match entry with
  | None => Raise KeyError
  | Some l => match l !! i with
              | Some x => Ok x
              | None => Raise IndexError
              end
  end.

Definition is_none {X} (o : option X) : bool :=
  match o with None => true | Some _ => false end.

(** [n - 0.5] *)
Definition upper (n : nat) : num := Fin (inject_Z (Z.of_nat n) - (1 # 2))%Q.

(** [-0.5] *)
Definition lower : num := Fin (-(1 # 2))%Q.

(** The default limits of the x axis, from [md["shape"][1]]. *)
Definition default_x_limits (r : RunStart) (m : Model) : Model * result unit :=
  let o := orient m in
  if is_none (x_limits o) && str_eq (_x_positive o) "right" then
    match md_item (md_shape r) 1 with
    | Ok n => (set_orient (set_x_limits (Some (lower, upper n)) o) m, Ok tt)
    | Raise e => (m, Raise e)
    | OutOfFuel => (m, OutOfFuel)
    end
  else if is_none (x_limits o) && str_eq (_x_positive o) "left" then
    match md_item (md_shape r) 1 with
    | Ok n => (set_orient (set_x_limits (Some (upper n, lower)) o) m, Ok tt)
    | Raise e => (m, Raise e)
    | OutOfFuel => (m, OutOfFuel)
    end
  else (m, Ok tt).

(** The default limits of the y axis, from [md["shape"][0]]. *)
Definition default_y_limits (r : RunStart) (m : Model) : Model * result unit :=
  let o := orient m in
  if is_none (y_limits o) && str_eq (_y_positive o) "up" then
    match md_item (md_shape r) 0 with
    | Ok n => (set_orient (set_y_limits (Some (lower, upper n)) o) m, Ok tt)
    | Raise e => (m, Raise e)
    | OutOfFuel => (m, OutOfFuel)
    end
  else if is_none (y_limits o) && str_eq (_y_positive o) "down" then
    match md_item (md_shape r) 0 with
    | Ok n => (set_orient (set_y_limits (Some (upper n, lower)) o) m, Ok tt)
    | Raise e => (m, Raise e)
    | OutOfFuel => (m, OutOfFuel)
    end
  else (m, Ok tt).

Definition _add_image (r : RunStart) (m : Model) : Model * result unit :=
  let sty : gmap string pyval :=
    <[ "cmap" := _cmap m ]> (<[ "clim" := _clim m ]> {[ "extent" := _extent m ]}) in
  let image := {| image_run := uid r; image_label := field m; style := sty |} in
  let m1 := set_images (images m ++ [image]) m in
  let m2 := set_title (Some (label_maker m1 r (field m1))) m1 in
  match md_item (motors r) 1 with
  | Ok mx =>
      let m3 := set_x_label (Some mx) m2 in
      match md_item (motors r) 0 with
      | Ok my =>
          let m4 := set_y_label (Some my) m3 in
          match default_x_limits r m4 with
          | (m5, Ok _) => default_y_limits r m5
          | other => other
          end
      | Raise e => (m3, Raise e)
      | OutOfFuel => (m3, OutOfFuel)
      end
  | Raise e => (m2, Raise e)
  | OutOfFuel => (m2, OutOfFuel)
  end.

(** The setter of [run]. *)
Definition set_run (value : option RunStart) (m : Model) : Model * result unit :=
  let m1 := set_images [] (set_run_field value m) in
  match value with
  | Some r => _add_image r m1
  | None => (m1, Ok tt)
  end.

(** The controller as [__init__] leaves it, with axes of its own: nothing
    is checked, and the axes have no image, title, label or limit. *)
Definition fresh (field : string) (label_maker : RunStart → string → string)
    (clim cmap extent : pyval) (x_positive y_positive : string) : Model :=
  {| orient := {| _x_positive := x_positive; _y_positive := y_positive;
                  x_limits := None; y_limits := None |};
     field := field; label_maker := label_maker;
     _cmap := cmap; _clim := clim; _extent := extent; _run := None;
     images := []; title := None; x_label := None; y_label := None |}.

(** Calls on the controller, one after the other. *)
Inductive op :=
| SetCmap (v : pyval)
| SetClim (v : pyval)
| SetExtent (v : pyval)
| SetRun (v : option RunStart)
| GetXPositive
| SetXPositive (v : string)
| GetYPositive
| SetYPositive (v : string).

(** The state that a call leaves, whether it returns or raises. *)
Definition step (o : op) (m : Model) : Model :=
  match o with
  | SetCmap v => set_cmap v m
  | SetClim v => set_clim v m
  | SetExtent v => set_extent v m
  | SetRun v => fst (set_run v m)
  | GetXPositive => fst (x_positive m)
  | SetXPositive v => fst (x_positive_set v m)
  | GetYPositive => fst (y_positive m)
  | SetYPositive v => fst (y_positive_set v m)
  end.

Definition exec (os : list op) (m : Model) : Model := foldl (λ m o, step o m) m os.

(** Every image of the axes carries the colour map, the colour limits and
    the extent of the controller, and there is at most one image. *)
Definition styled (m : Model) : Prop :=
  length (images m) ≤ 1 ∧
  ∀ i, i ∈ images m →
       style i !! "cmap" = Some (_cmap m) ∧
       style i !! "clim" = Some (_clim m) ∧
       style i !! "extent" = Some (_extent m).

(** ** Cells of the grid *)

(** The cell at row [r] and column [c]: [Some (Some x)] for a datum,
    [Some None] for NaN, [None] outside of the grid. *)
Definition cell {A} (g : list (list (option A))) (r c : nat)
    : option (option A) :=
  g !! r ≫= (λ row, row !! c).

(** The position in the 1D data of the point shown in the cell at row [r]
    and column [c]. *)
Definition scan_index (shape : nat * nat) (snaking : bool * bool)
    (r c : nat) : nat :=
  r * snd shape + (if snd snaking && Nat.odd r then snd shape - c - 1 else c).

End RasteredImage.

(** * Properties of RecentLines *)

Module RecentLinesFacts.

Import RecentLines.

(** ** What the handlers leave alone *)

Lemma on_run_removed_runs r s : runs (fst (_on_run_removed r s)) = runs s.
Proof. unfold _on_run_removed; simpl. by destruct (runs_to_lines s !! r). Qed.

Lemma on_run_removed_pinned r s :
  pinned (fst (_on_run_removed r s)) = pinned s ∖ {[r]}.
Proof. unfold _on_run_removed; simpl. by destruct (runs_to_lines s !! r). Qed.

Lemma on_run_removed_max_runs r s :
  max_runs (fst (_on_run_removed r s)) = max_runs s.
Proof. unfold _on_run_removed; simpl. by destruct (runs_to_lines s !! r). Qed.

Lemma on_run_removed_conf r s : conf (fst (_on_run_removed r s)) = conf s.
Proof. unfold _on_run_removed; simpl. by destruct (runs_to_lines s !! r). Qed.

Lemma on_run_removed_heap r s : heap (fst (_on_run_removed r s)) = heap s.
Proof. unfold _on_run_removed; simpl. by destruct (runs_to_lines s !! r). Qed.

Lemma on_run_removed_color_cycle r s :
  color_cycle (fst (_on_run_removed r s)) = color_cycle s.
Proof. unfold _on_run_removed; simpl. by destruct (runs_to_lines s !! r). Qed.

Lemma on_run_removed_no_fuel r s : snd (_on_run_removed r s) ≠ OutOfFuel.
Proof. unfold _on_run_removed; simpl. by destruct (runs_to_lines s !! r). Qed.

(** [andThen] in terms of its two halves. *)
Lemma andThen_fst (c k : M) s :
  fst (andThen c k s) =
  if is_ok (snd (c s)) then fst (k (fst (c s))) else fst (c s).
Proof. unfold andThen. by destruct (c s) as [s' [[]|e|]]. Qed.

Lemma andThen_ok (c k : M) s :
  snd (andThen c k s) = Ok tt ↔ snd (c s) = Ok tt ∧ snd (k (fst (c s))) = Ok tt.
Proof. unfold andThen. destruct (c s) as [s' [[]|e|]]; simpl; intuition congruence. Qed.

Lemma andThen_no_fuel (c k : M) s :
  snd (c s) ≠ OutOfFuel → (∀ s', snd (k s') ≠ OutOfFuel) →
  snd (andThen c k s) ≠ OutOfFuel.
Proof.
  unfold andThen. intros Hc Hk.
  destruct (c s) as [s' [[]|e|]]; simpl in *; [apply Hk|done|done].
Qed.

(** ** The inner loop of [_cull_runs] *)

Lemma skip_pinned_spec pin rest i j :
  skip_pinned pin rest i = Some j →
  ∃ r, rest !! (j - i) = Some r ∧ (r ∉ pin) ∧ i ≤ j ∧
       ∀ k r', k < j - i → rest !! k = Some r' → r' ∈ pin.
Proof.
  revert i. induction rest as [|a rest IH]; intros i; simpl; [done|].
  destruct (decide (a ∈ pin)) as [Hin|Hout].
  - intros H. destruct (IH _ H) as (r & Hr & Hp & Hle & Hbefore).
    exists r. replace (j - i) with (S (j - S i)) by lia.
    split_and!; [done|done|lia|].
    intros [|k] r' Hk; simpl; [naive_solver|].
    apply Hbefore. lia.
  - intros [= <-]. exists a. rewrite Nat.sub_diag. split_and!; [done|done|lia|].
    intros k r' Hk. lia.
Qed.

Lemma skip_pinned_lookup pin (l : list uid) i j :
  skip_pinned pin (drop i l) i = Some j →
  ∃ r, l !! j = Some r ∧ (r ∉ pin) ∧ i ≤ j.
Proof.
  intros H. destruct (skip_pinned_spec _ _ _ _ H) as (r & Hr & Hp & Hle & _).
  exists r. rewrite lookup_drop in Hr.
  replace (i + (j - i)) with j in Hr by lia. done.
Qed.

Lemma skip_pinned_all_pinned pin rest i :
  (∀ r, r ∈ rest → r ∈ pin) → skip_pinned pin rest i = None.
Proof.
  revert i. induction rest as [|a rest IH]; intros i Hall; simpl; [done|].
  rewrite decide_True by (apply Hall; left).
  apply IH. intros r Hr. apply Hall. by right.
Qed.

Lemma skip_pinned_head pin a rest :
  a ∉ pin → skip_pinned pin (a :: rest) 0 = Some 0.
Proof. intros H. simpl. by rewrite decide_False. Qed.

(** ** The outer loop of [_cull_runs] *)

(** One unfolding of the loop when the registry is over capacity. *)
Lemma cull_loop_step fuel i s j r :
  over_capacity s = true →
  skip_pinned (pinned s) (drop i (runs s)) i = Some j →
  runs s !! j = Some r →
  cull_loop (S fuel) i s =
  andThen (_on_run_removed r) (cull_loop fuel j) (set_runs (delete j (runs s)) s).
Proof. intros Hc Hs Hr. simpl. by rewrite Hc, Hs, Hr. Qed.

Lemma cull_loop_within fuel i s :
  over_capacity s = false → cull_loop fuel i s = (s, Ok tt).
Proof. intros H. destruct fuel; simpl; by rewrite H. Qed.

(** The fuel that [_cull_runs] gives its loop is enough. *)
Lemma cull_loop_no_fuel fuel i s :
  length (runs s) < fuel → snd (cull_loop fuel i s) ≠ OutOfFuel.
Proof.
  revert i s. induction fuel as [|fuel IH]; intros i s Hlen; [lia|].
  simpl. destruct (over_capacity s); [|done].
  destruct (skip_pinned _ _ _) as [j|] eqn:Hs; [|done].
  destruct (skip_pinned_lookup _ _ _ _ Hs) as (r & Hr & _).
  rewrite Hr. unfold andThen.
  destruct (_on_run_removed r _) as [s' res] eqn:Hrm.
  pose proof (on_run_removed_runs r (set_runs (delete j (runs s)) s)) as Hruns.
  pose proof (on_run_removed_no_fuel r (set_runs (delete j (runs s)) s)) as Hnf.
  rewrite Hrm in Hruns, Hnf. simpl in Hruns, Hnf.
  destruct res as [[]|e|]; [|done|done].
  apply IH. rewrite Hruns, length_delete by eauto.
  apply lookup_lt_Some in Hr. lia.
Qed.

Lemma cull_runs_no_fuel s : snd (_cull_runs s) ≠ OutOfFuel.
Proof. apply cull_loop_no_fuel. lia. Qed.

(** When [_cull_runs] returns, the registry is within capacity. *)
Lemma cull_loop_capacity fuel i s :
  snd (cull_loop fuel i s) = Ok tt →
  over_capacity (fst (cull_loop fuel i s)) = false.
Proof.
  revert i s. induction fuel as [|fuel IH]; intros i s; simpl.
  - destruct (over_capacity s) eqn:Hc; [done|]. by simpl.
  - destruct (over_capacity s) eqn:Hc; [|by simpl].
    destruct (skip_pinned _ _ _) as [j|]; [|done].
    destruct (runs s !! j) as [r|]; [|done].
    unfold andThen. destruct (_on_run_removed r _) as [s' [[]|e|]]; [|done|done].
    apply IH.
Qed.

Lemma cull_runs_capacity s :
  snd (_cull_runs s) = Ok tt →
  (Z.of_nat (length (runs (fst (_cull_runs s)))) ≤
   max_runs (fst (_cull_runs s)) + Z.of_nat (size (pinned (fst (_cull_runs s)))))%Z.
Proof.
  intros H. apply cull_loop_capacity in H. unfold over_capacity in H.
  apply Z.ltb_ge in H. exact H.
Qed.

(** ** Creating lines *)

Lemma foldl_invariant {A B} (I : A → Prop) (f : A → B → A) (l : list B) (a : A) :
  (∀ a b, I a → I (f a b)) → I a → I (foldl f a l).
Proof. intros Hf. revert a. induction l; simpl; auto. Qed.

Ltac add_line_cases r s :=
  unfold add_line; destruct (live (heap s r));
  simpl; destruct (decide (r ∈ pinned s)); simpl.

Lemma add_line_runs r s y : runs (add_line r s y) = runs s.
Proof. add_line_cases r s; done. Qed.

Lemma add_line_pinned r s y : pinned (add_line r s y) = pinned s.
Proof. add_line_cases r s; done. Qed.

Lemma add_line_conf r s y : conf (add_line r s y) = conf s.
Proof. add_line_cases r s; done. Qed.

Lemma add_line_max_runs r s y : max_runs (add_line r s y) = max_runs s.
Proof. add_line_cases r s; done. Qed.

Lemma add_line_streams r s y r' :
  streams (heap (add_line r s y) r') = streams (heap s r').
Proof. add_line_cases r s; try done; by destruct (decide (r' = r)) as [->|]. Qed.

Lemma add_line_live r s y r' :
  live (heap (add_line r s y) r') = live (heap s r').
Proof. add_line_cases r s; try done; by destruct (decide (r' = r)) as [->|]. Qed.

Lemma add_line_new_stream_cb r s y r' :
  new_stream_cb (heap (add_line r s y) r') = new_stream_cb (heap s r').
Proof. add_line_cases r s; try done; by destruct (decide (r' = r)) as [->|]. Qed.

(** The registry and the pins after the whole loop over [ys]. *)
Lemma add_lines_loop_registry r ys s :
  runs (foldl (add_line r) s ys) = runs s ∧
  pinned (foldl (add_line r) s ys) = pinned s ∧
  same_settings s (foldl (add_line r) s ys).
Proof.
  apply (foldl_invariant
           (λ s', runs s' = runs s ∧ pinned s' = pinned s ∧ same_settings s s')).
  - intros a y (Hr & Hp & Hc & Hm).
    rewrite add_line_runs, add_line_pinned. unfold same_settings.
    by rewrite add_line_conf, add_line_max_runs.
  - done.
Qed.

(** ** Pinned runs stay *)

Lemma elem_of_delete_other (l : list uid) j r u :
  l !! j = Some r → u ∈ l → u ≠ r → u ∈ delete j l.
Proof.
  intros Hj Hu Hne. apply list_elem_of_lookup in Hu as [k Hk].
  apply list_elem_of_lookup.
  destruct (decide (k < j)) as [Hlt|Hge].
  - exists k. by rewrite list_lookup_delete_lt.
  - assert (k ≠ j) by (intros ->; congruence).
    exists (pred k). rewrite list_lookup_delete_ge by lia.
    by replace (S (pred k)) with k by lia.
Qed.

Lemma elem_of_remove_first_other (l : list uid) r u :
  u ∈ l → u ≠ r → u ∈ remove_first (is_run r) l.
Proof.
  intros Hu Hne. induction l as [|a l IH]; simpl; [done|].
  unfold is_run at 1. case_bool_decide as Ha.
  - subst a. apply elem_of_cons in Hu as [?|?]; [done|done].
  - apply elem_of_cons in Hu as [->|Hu]; [left|right; auto].
Qed.

Lemma on_run_removed_kept r u s :
  u ≠ r → kept u s → kept u (fst (_on_run_removed r s)).
Proof.
  intros Hne [Hp Hr]. unfold kept.
  rewrite on_run_removed_runs, on_run_removed_pinned. set_solver.
Qed.

Lemma cull_loop_kept fuel i u s :
  kept u s → kept u (fst (cull_loop fuel i s)).
Proof.
  revert i s. induction fuel as [|fuel IH]; intros i s Hk; simpl.
  - by destruct (over_capacity s).
  - destruct (over_capacity s); [|done].
    destruct (skip_pinned _ _ _) as [j|] eqn:Hs; [|done].
    destruct (skip_pinned_lookup _ _ _ _ Hs) as (r & Hr & Hp & _).
    rewrite Hr, andThen_fst.
    assert (u ≠ r) as Hne by (intros ->; by destruct Hk).
    assert (kept u (set_runs (delete j (runs s)) s)) as Hk'.
    { destruct Hk as [Hpin Hin]. split; simpl; [done|].
      by eapply elem_of_delete_other. }
    destruct (is_ok _); [apply IH|]; by apply on_run_removed_kept.
Qed.

Lemma add_lines_kept r u s : kept u s → kept u (fst (_add_lines r s)).
Proof.
  intros Hk. unfold _add_lines. rewrite andThen_fst.
  pose proof (cull_loop_kept (S (length (runs s))) 0 u s Hk) as Hc.
  fold (_cull_runs s) in Hc.
  destruct (is_ok _); [|done]. simpl.
  destruct (add_lines_loop_registry r (ys (conf (fst (_cull_runs s))))
              (fst (_cull_runs s))) as (Hr & Hp & _).
  unfold kept. by rewrite Hr, Hp.
Qed.

Lemma recolor_line_registry s u :
  runs (recolor_line s u) = runs s ∧ pinned (recolor_line s u) = pinned s.
Proof. unfold recolor_line. by destruct (by_uuid _ _). Qed.

Lemma on_run_complete_registry r s :
  runs (fst (_on_run_complete r s)) = runs s ∧
  pinned (fst (_on_run_complete r s)) = pinned s.
Proof.
  unfold _on_run_complete. simpl.
  set (s1 := set_runs_to_lines _ s).
  change (runs s) with (runs s1). change (pinned s) with (pinned s1).
  apply (foldl_invariant (λ s', runs s' = runs s1 ∧ pinned s' = pinned s1));
    [|done].
  intros a b [Hr Hp]. destruct (recolor_line_registry a b) as [-> ->]. done.
Qed.

(** Every call but the discard of [u] itself keeps [u] tracked and pinned. *)
Lemma step_kept o u s :
  o ≠ DiscardRun u → kept u s → kept u (fst (step o s)).
Proof.
  intros Hne Hk. destruct o as [r pin|r|v|r name|r]; simpl.
  - unfold add_run, _on_run_added.
    set (s1 := if pin then set_pinned (pinned s ∪ {[r]}) s else s).
    assert (kept u (set_runs (runs s1 ++ [r]) s1)) as Hk1.
    { destruct Hk as [Hp Hr]. subst s1.
      destruct pin; split; simpl; set_solver. }
    destruct (streams_ready _ _); [by apply add_lines_kept|done].
  - unfold discard_run. destruct (decide _); [|done].
    assert (u ≠ r) as Hur by congruence.
    apply on_run_removed_kept; [done|].
    destruct Hk as [Hp Hr]. split; simpl; [done|].
    by apply elem_of_remove_first_other.
  - unfold set_max_runs, _cull_runs. by apply cull_loop_kept.
  - unfold fire_new_stream, _on_new_stream.
    assert (kept u (stream_arrives r name s)) as Hk1 by done.
    destruct (new_stream_cb _); [|done].
    destruct (streams_ready _ _); [|done].
    rewrite andThen_fst. destruct (is_ok _); by apply add_lines_kept.
  - unfold fire_completed.
    assert (kept u (run_completes r s)) as Hk1 by done.
    destruct (completed_cb _); [|done].
    destruct (on_run_complete_registry r (run_completes r s)) as [Hr Hp].
    unfold kept. by rewrite Hr, Hp.
Qed.

Lemma exec_kept os u s :
  DiscardRun u ∉ os → kept u s → kept u (exec os s).
Proof.
  revert s. induction os as [|o os IH]; intros s Hno Hk; simpl; [done|].
  apply IH; [set_solver|]. apply step_kept; [set_solver|done].
Qed.

(** When every tracked run is pinned, the eviction takes nothing out. *)
Lemma cull_loop_all_pinned fuel s :
  (∀ r, r ∈ runs s → r ∈ pinned s) → fst (cull_loop fuel 0 s) = s.
Proof.
  intros Hall. destruct fuel; simpl; destruct (over_capacity s); try done.
  by rewrite skip_pinned_all_pinned.
Qed.

Lemma add_lines_all_pinned r s :
  (∀ r', r' ∈ runs s → r' ∈ pinned s) →
  runs (fst (_add_lines r s)) = runs s ∧ pinned (fst (_add_lines r s)) = pinned s.
Proof.
  intros Hall. unfold _add_lines. rewrite andThen_fst.
  unfold _cull_runs. rewrite cull_loop_all_pinned by done.
  destruct (is_ok _); [|done]. simpl.
  destruct (add_lines_loop_registry r (ys (conf s)) s) as (Hr & Hp & _). done.
Qed.

Lemma add_run_pinned_all_pinned r s :
  (∀ r', r' ∈ runs s → r' ∈ pinned s) →
  runs (fst (add_run r true s)) = runs s ++ [r] ∧
  pinned (fst (add_run r true s)) = pinned s ∪ {[r]}.
Proof.
  intros Hall. unfold add_run, _on_run_added.
  set (s1 := set_runs _ _).
  assert (∀ r', r' ∈ runs s1 → r' ∈ pinned s1) as Hall1.
  { subst s1; simpl. intros r' Hr'.
    apply elem_of_app in Hr' as [Hr'|Hr']; [|set_solver].
    apply Hall in Hr'. set_solver. }
  destruct (streams_ready _ _); [|done].
  by destruct (add_lines_all_pinned r s1 Hall1) as [-> ->].
Qed.

Lemma add_pinned_runs_registry rs s :
  (∀ r, r ∈ runs s → r ∈ pinned s) →
  runs (exec (map (λ r, AddRun r true) rs) s) = runs s ++ rs.
Proof.
  revert s. induction rs as [|r rs IH]; intros s Hall; simpl.
  - by rewrite app_nil_r.
  - destruct (add_run_pinned_all_pinned r s Hall) as [Hr Hp].
    change (foldl _ _ _) with
      (exec (map (λ r, AddRun r true) rs) (fst (add_run r true s))).
    rewrite IH, Hr; [by rewrite <- app_assoc|].
    rewrite Hr, Hp. intros r' Hr'.
    apply elem_of_app in Hr' as [Hr'|Hr']; [|set_solver].
    apply Hall in Hr'. set_solver.
Qed.

(** ** First in, first out *)

Lemma cull_loop_settings fuel i s :
  same_settings s (fst (cull_loop fuel i s)) ∧
  heap (fst (cull_loop fuel i s)) = heap s.
Proof.
  revert i s. induction fuel as [|fuel IH]; intros i s; simpl.
  - by destruct (over_capacity s).
  - destruct (over_capacity s); [|done].
    destruct (skip_pinned _ _ _) as [j|]; [|done].
    destruct (runs s !! j) as [r|]; [|done].
    rewrite andThen_fst.
    set (s1 := set_runs _ s).
    assert (same_settings s (fst (_on_run_removed r s1)) ∧
            heap (fst (_on_run_removed r s1)) = heap s) as [[Hc Hm] Hh].
    { unfold same_settings.
      by rewrite on_run_removed_conf, on_run_removed_max_runs,
                 on_run_removed_heap. }
    destruct (is_ok _); [|done].
    destruct (IH j (fst (_on_run_removed r s1))) as [[Hc' Hm'] Hh'].
    unfold same_settings. by rewrite Hc', Hm', Hh'.
Qed.

Lemma streams_ready_ext r s s' :
  conf s' = conf s → streams (heap s' r) = streams (heap s r) →
  streams_ready r s' = streams_ready r s.
Proof. unfold streams_ready. by intros -> ->. Qed.

Lemma add_lines_loop_streams r ys s r' :
  streams (heap (foldl (add_line r) s ys) r') = streams (heap s r').
Proof.
  apply (foldl_invariant (λ s', streams (heap s' r') = streams (heap s r')));
    [|done].
  intros a y Ha. by rewrite add_line_streams.
Qed.

(** The eviction pass when nothing is pinned and at most one run is over:
    either there is nothing to do, or the oldest run goes. *)
Lemma cull_runs_unpinned_cases s :
  pinned s = ∅ → (0 ≤ max_runs s)%Z →
  length (runs s) ≤ S (Z.to_nat (max_runs s)) →
  (over_capacity s = false ∧ _cull_runs s = (s, Ok tt)) ∨
  (∃ a t, runs s = a :: t ∧ length t = Z.to_nat (max_runs s) ∧
          _cull_runs s = _on_run_removed a (set_runs t s)).
Proof.
  intros Hp Hm Hlen. unfold _cull_runs.
  destruct (over_capacity s) eqn:Hc.
  - right. pose proof Hc as Hc'. unfold over_capacity in Hc'.
    rewrite Hp, size_empty in Hc'. apply Z.ltb_lt in Hc'.
    assert (∃ a t, runs s = a :: t) as (a & t & Hruns).
    { destruct (runs s); [simpl in Hc'; lia|eauto]. }
    assert (length t = Z.to_nat (max_runs s)) as Ht.
    { rewrite Hruns in Hlen, Hc'. simpl in Hlen, Hc'. lia. }
    exists a, t. split_and!; [done|done|].
    rewrite (cull_loop_step _ 0 s 0 a Hc);
      [|rewrite Hruns, Hp; apply skip_pinned_head; set_solver|by rewrite Hruns].
    replace (delete 0 (runs s)) with t by (by rewrite Hruns).
    set (s1 := set_runs t s).
    assert (over_capacity (fst (_on_run_removed a s1)) = false) as Hw.
    { unfold over_capacity.
      rewrite on_run_removed_runs, on_run_removed_pinned, on_run_removed_max_runs.
      simpl. rewrite Hp.
      replace (∅ ∖ {[a]}) with (∅ : gset uid) by set_solver.
      rewrite size_empty. apply Z.ltb_ge. lia. }
    unfold andThen. destruct (_on_run_removed a s1) as [s' [[]|e|]]; [|done|done].
    by apply cull_loop_within.
  - left. split; [done|]. by apply cull_loop_within.
Qed.

Lemma cull_runs_unpinned s :
  pinned s = ∅ → (0 ≤ max_runs s)%Z →
  length (runs s) ≤ S (Z.to_nat (max_runs s)) →
  runs (fst (_cull_runs s)) = drop (length (runs s) - Z.to_nat (max_runs s)) (runs s) ∧
  pinned (fst (_cull_runs s)) = ∅.
Proof.
  intros Hp Hm Hlen.
  destruct (cull_runs_unpinned_cases s Hp Hm Hlen)
    as [[Hc ->]|(a & t & Hruns & Ht & ->)].
  - simpl. unfold over_capacity in Hc. rewrite Hp, size_empty in Hc.
    apply Z.ltb_ge in Hc.
    replace (length (runs s) - Z.to_nat (max_runs s)) with 0 by lia. done.
  - rewrite on_run_removed_runs, on_run_removed_pinned. simpl.
    rewrite Hruns, Hp. simpl length.
    replace (S (length t) - Z.to_nat (max_runs s)) with 1 by lia.
    split; [done|set_solver].
Qed.

(** Adding an unpinned run whose streams are there, to a registry that is
    within capacity and has no pin. *)
Lemma add_run_unpinned_registry r s :
  pinned s = ∅ → (0 ≤ max_runs s)%Z →
  length (runs s) ≤ Z.to_nat (max_runs s) →
  streams_ready r s = true →
  let s' := fst (add_run r false s) in
  runs s' = drop (length (runs s ++ [r]) - Z.to_nat (max_runs s)) (runs s ++ [r]) ∧
  pinned s' = ∅ ∧ same_settings s s' ∧
  ∀ r', streams (heap s' r') = streams (heap s r').
Proof.
  intros Hp Hm Hlen Hready. simpl.
  unfold add_run, _on_run_added.
  set (s1 := set_runs (runs s ++ [r]) s).
  change (streams_ready r s1) with (streams_ready r s). rewrite Hready.
  unfold _add_lines. rewrite andThen_fst.
  destruct (cull_runs_unpinned s1) as [Hr1 Hp1]; [done|done| |].
  { subst s1; simpl. rewrite length_app; simpl. lia. }
  destruct (cull_loop_settings (S (length (runs s1))) 0 s1) as [[Hc Hmx] Hh].
  fold (_cull_runs s1) in Hc, Hmx, Hh.
  change (runs s ++ [r]) with (runs s1).
  change (max_runs s) with (max_runs s1).
  destruct (is_ok _).
  - simpl.
    destruct (add_lines_loop_registry r (ys (conf (fst (_cull_runs s1))))
                (fst (_cull_runs s1))) as (Hr & Hpn & Hc' & Hm').
    rewrite Hr, Hpn. split_and!; [done|done| |].
    + unfold same_settings. by rewrite Hc', Hm', Hc, Hmx.
    + intros r'. by rewrite add_lines_loop_streams, Hh.
  - split_and!; [done|done|done|]. intros r'. by rewrite Hh.
Qed.

Lemma drop_window (X l : list uid) m :
  drop (length (drop (length X - m) X ++ l) - m) (drop (length X - m) X ++ l) =
  drop (length (X ++ l) - m) (X ++ l).
Proof.
  destruct (decide (length X ≤ m)) as [Hle|Hgt].
  - by replace (length X - m) with 0 by lia.
  - rewrite !length_app, length_drop.
    replace (length X - (length X - m) + length l - m) with (length l) by lia.
    replace (length X + length l - m) with ((length X - m) + length l) by lia.
    rewrite <- drop_drop. f_equal. rewrite drop_app_le; [done|lia].
Qed.

Lemma add_unpinned_runs_registry l s :
  pinned s = ∅ → (0 ≤ max_runs s)%Z →
  length (runs s) ≤ Z.to_nat (max_runs s) →
  (∀ r, r ∈ l → streams_ready r s = true) →
  runs (exec (map (λ r, AddRun r false) l) s) =
  drop (length (runs s ++ l) - Z.to_nat (max_runs s)) (runs s ++ l).
Proof.
  revert s. induction l as [|a l IH]; intros s Hp Hm Hlen Hready; simpl.
  - rewrite app_nil_r. replace (_ - _) with 0 by lia. done.
  - destruct (add_run_unpinned_registry a s) as (Hr & Hp' & [Hc Hm'] & Hst);
      [done|done|done|apply Hready; left|].
    change (foldl _ _ _) with
      (exec (map (λ r, AddRun r false) l) (fst (add_run a false s))).
    rewrite IH; [|done|by rewrite Hm'| |].
    + rewrite Hm', Hr, drop_window. by rewrite <- app_assoc.
    + rewrite Hm', Hr, length_drop, length_app. simpl. lia.
    + intros r Hin. rewrite (streams_ready_ext r s); [|done|apply Hst].
      apply Hready. by right.
Qed.

(** ** The adds return *)

Lemma on_run_removed_ok r s :
  is_Some (runs_to_lines s !! r) →
  snd (_on_run_removed r s) = Ok tt ∧
  runs_to_lines (fst (_on_run_removed r s)) = delete r (runs_to_lines s).
Proof. intros [ids Hids]. unfold _on_run_removed. simpl. by rewrite Hids. Qed.

Lemma add_line_index r s y r' :
  is_Some (runs_to_lines (add_line r s y) !! r') ↔
  r' = r ∨ is_Some (runs_to_lines s !! r').
Proof.
  add_line_cases r s; rewrite lookup_insert_is_Some;
    destruct (decide (r = r')); naive_solver.
Qed.

Lemma add_lines_loop_index r ys s r' :
  is_Some (runs_to_lines (foldl (add_line r) s ys) !! r') ↔
  (r' = r ∧ ys ≠ []) ∨ is_Some (runs_to_lines s !! r').
Proof.
  revert s. induction ys as [|y ys IH]; intros s; simpl.
  - naive_solver.
  - rewrite IH, add_line_index. destruct ys; naive_solver.
Qed.

Lemma add_run_unpinned_ok r s :
  pinned s = ∅ → (1 ≤ max_runs s)%Z →
  length (runs s) ≤ Z.to_nat (max_runs s) →
  streams_ready r s = true → ys (conf s) ≠ [] →
  NoDup (runs s ++ [r]) → indexed s →
  snd (add_run r false s) = Ok tt ∧ indexed (fst (add_run r false s)).
Proof.
  intros Hp Hm Hlen Hready Hys Hnd Hidx.
  unfold add_run, _on_run_added.
  set (s1 := set_runs (runs s ++ [r]) s).
  change (streams_ready r s1) with (streams_ready r s). rewrite Hready.
  unfold _add_lines.
  destruct (cull_runs_unpinned_cases s1)
    as [[Hc Hcull]|(a & t & Hruns & Ht & Hcull)]; [done|simpl; lia| | |].
  { subst s1; simpl. rewrite length_app; simpl. lia. }
  - unfold andThen. rewrite Hcull. simpl. split; [done|].
    intros r'. destruct (add_lines_loop_registry r (ys (conf s)) s1) as (-> & _).
    rewrite add_lines_loop_index. simpl. intros Hr'.
    apply elem_of_app in Hr' as [Hr'|Hr']; [right; by apply Hidx|left].
    apply list_elem_of_singleton in Hr'. done.
  - simpl in Hruns, Ht.
    assert (a ∈ runs s) as Ha.
    { destruct (runs s) as [|a' t'] eqn:Hrs.
      - simpl in Hruns. injection Hruns as <- <-. simpl in Ht. lia.
      - simpl in Hruns. injection Hruns as <- <-. left. }
    destruct (on_run_removed_ok a (set_runs t s1)) as [Hok Hrtl]; [by apply Hidx|].
    unfold andThen. rewrite Hcull.
    destruct (_on_run_removed a (set_runs t s1)) as [s2 res] eqn:Hrm.
    simpl in Hok, Hrtl. subst res. simpl. split; [done|].
    pose proof (on_run_removed_runs a (set_runs t s1)) as Hr2.
    pose proof (on_run_removed_conf a (set_runs t s1)) as Hc2.
    rewrite Hrm in Hr2, Hc2. simpl in Hr2, Hc2.
    intros r'. destruct (add_lines_loop_registry r (ys (conf s2)) s2) as (-> & _).
    rewrite add_lines_loop_index, Hr2, Hc2, Hrtl. intros Hr'.
    rewrite Hruns in Hnd. apply NoDup_cons in Hnd as [Hnotin _].
    assert (r' ≠ a) as Hne by (intros ->; done).
    assert (r' ∈ runs s ++ [r]) as Hin by (rewrite Hruns; by right).
    apply elem_of_app in Hin as [Hin|Hin].
    + right. rewrite lookup_delete_is_Some. split; [done|by apply Hidx].
    + left. apply list_elem_of_singleton in Hin. done.
Qed.

Lemma add_unpinned_runs_ok l s :
  pinned s = ∅ → (1 ≤ max_runs s)%Z →
  length (runs s) ≤ Z.to_nat (max_runs s) →
  (∀ r, r ∈ l → streams_ready r s = true) → ys (conf s) ≠ [] →
  NoDup (runs s ++ l) → indexed s →
  Forall (λ o, o = Ok tt) (outcomes (map (λ r, AddRun r false) l) s).
Proof.
  revert s. induction l as [|a l IH]; intros s Hp Hm Hlen Hready Hys Hnd Hidx;
    simpl; [constructor|].
  assert (NoDup (runs s ++ [a])) as Hnd1.
  { replace (runs s ++ a :: l) with ((runs s ++ [a]) ++ l) in Hnd
      by (by rewrite <- app_assoc).
    by apply NoDup_app in Hnd as [? _]. }
  destruct (add_run_unpinned_ok a s) as [Hok Hidx'];
    [done|done|done|apply Hready; left|done|done|done|].
  destruct (add_run_unpinned_registry a s) as (Hr & Hp' & [Hc Hm'] & Hst);
    [done|lia|done|apply Hready; left|].
  constructor; [done|].
  apply IH; [done|by rewrite Hm'| |..|done].
  - rewrite Hm', Hr, length_drop, length_app. simpl. lia.
  - intros r Hin. rewrite (streams_ready_ext r s); [|done|apply Hst].
    apply Hready. by right.
  - by rewrite Hc.
  - rewrite Hr. apply (sublist_NoDup _ (runs s ++ a :: l)); [exact Hnd|].
    replace (runs s ++ a :: l) with ((runs s ++ [a]) ++ l)
      by (by rewrite <- app_assoc).
    apply sublist_app; [apply sublist_drop|done].
Qed.

(** ** The lines that [_add_lines] creates *)

Lemma cycle_color_in_palette n : cycle_color n ∈ palette.
Proof.
  unfold cycle_color. apply list_elem_of_In, nth_In.
  change (length palette) with 10. apply Nat.mod_upper_bound. done.
Qed.

Lemma add_line_lines r s y :
  ∃ l, lines (add_line r s y) = lines s ++ [l] ∧ line_run l = r ∧
       uuid l = next_uuid s ∧
       style l !! "color" = Some (initial_color r s).
Proof.
  unfold initial_color. add_line_cases r s; eexists; (split; [reflexivity|]);
    simpl; (split_and!; [done|done|]);
    try (rewrite lookup_insert_ne by done); by rewrite lookup_singleton_eq.
Qed.

Lemma add_line_completed_cb r s y :
  live (heap s r) = true → completed_cb (heap (add_line r s y) r) = true.
Proof.
  intros Hl. unfold add_line. rewrite Hl. simpl.
  destruct (decide (r ∈ pinned s)); simpl; by rewrite decide_True.
Qed.

Lemma add_line_completed_cb_mono r s y r' :
  completed_cb (heap s r') = true → completed_cb (heap (add_line r s y) r') = true.
Proof.
  intros Hc. add_line_cases r s; try done; by destruct (decide (r' = r)) as [->|].
Qed.

(** The loop over [ys] appends one line per expression, all for [r]; for a
    live run they are all black and the completion handler is connected. *)
Lemma add_lines_loop_lines r ys s :
  ∃ new, lines (foldl (add_line r) s ys) = lines s ++ new ∧
         length new = length ys ∧
         Forall (λ l, line_run l = r ∧
                      (live (heap s r) = true → style l !! "color" = Some black)) new.
Proof.
  revert s. induction ys as [|y ys IH]; intros s; simpl.
  - exists []. by rewrite app_nil_r.
  - destruct (IH (add_line r s y)) as (new & Hl & Hlen & Hall).
    destruct (add_line_lines r s y) as (l & Hl1 & Hrun & _ & Hcol).
    exists (l :: new). rewrite Hl, Hl1, <- app_assoc. simpl.
    split_and!; [done|by rewrite Hlen|].
    constructor.
    + split; [done|]. intros Hlive. rewrite Hcol. unfold initial_color.
      by rewrite Hlive.
    + eapply Forall_impl; [exact Hall|]. intros l' [? Hc]. split; [done|].
      rewrite add_line_live in Hc. done.
Qed.

Lemma add_lines_loop_completed_cb r ys s :
  live (heap s r) = true → ys ≠ [] →
  completed_cb (heap (foldl (add_line r) s ys) r) = true.
Proof.
  intros Hlive Hys. destruct ys as [|y ys]; [done|]. simpl.
  apply (foldl_invariant (λ s', completed_cb (heap s' r) = true)).
  - intros a b. apply add_line_completed_cb_mono.
  - by apply add_line_completed_cb.
Qed.

Lemma add_lines_loop_new_stream_cb r ys s r' :
  new_stream_cb (heap (foldl (add_line r) s ys) r') = new_stream_cb (heap s r').
Proof.
  apply (foldl_invariant
           (λ s', new_stream_cb (heap s' r') = new_stream_cb (heap s r')));
    [|done].
  intros a y Ha. by rewrite add_line_new_stream_cb.
Qed.

(** [_add_lines] when its eviction pass returns. *)
Lemma add_lines_ok r s :
  snd (_cull_runs s) = Ok tt →
  _add_lines r s =
  (foldl (add_line r) (fst (_cull_runs s)) (ys (conf s)), Ok tt).
Proof.
  intros Hok. unfold _add_lines, andThen.
  destruct (cull_loop_settings (S (length (runs s))) 0 s) as [[Hc _] _].
  fold (_cull_runs s) in Hc.
  destruct (_cull_runs s) as [s' res]. simpl in *. subst res. by rewrite Hc.
Qed.

(** [_add_lines] when its eviction pass raises: nothing is created. *)
Lemma add_lines_raise r s :
  snd (_cull_runs s) ≠ Ok tt → _add_lines r s = _cull_runs s.
Proof.
  intros Hok. unfold _add_lines, andThen.
  destruct (_cull_runs s) as [s' [[]|e|]]; simpl in *; done.
Qed.

(** ** Recolouring at completion *)

Lemma by_uuid_is_Some ls u : is_Some (by_uuid ls u) ↔ u ∈ uuid <$> ls.
Proof.
  unfold by_uuid. induction ls as [|l ls IH].
  - simpl. split; [by intros [? ?]|by intros ?%elem_of_nil].
  - rewrite fmap_cons, elem_of_cons. simpl.
    unfold has_uuid at 1. case_bool_decide as Hu.
    + split; [intros _; by left|eauto].
    + rewrite IH. naive_solver.
Qed.

Lemma recolor_line_spec s u :
  let s' := recolor_line s u in
  uuid <$> lines s' = uuid <$> lines s ∧
  color_cycle s' =
    color_cycle s + (if decide (u ∈ uuid <$> lines s) then 1 else 0) ∧
  (∀ l, l ∈ lines s' → uuid l = u →
        style l !! "color" = Some (cycle_color (color_cycle s))) ∧
  (∀ l, l ∈ lines s' → uuid l ≠ u → l ∈ lines s).
Proof.
  simpl. unfold recolor_line.
  destruct (by_uuid (lines s) u) as [l0|] eqn:Hby.
  - assert (u ∈ uuid <$> lines s) as Hin by (apply by_uuid_is_Some; eauto).
    rewrite decide_True by done. simpl. split_and!.
    + rewrite <- list_fmap_compose. apply list_fmap_ext.
      intros i l _. simpl. by destruct (has_uuid u l).
    + lia.
    + intros l Hl Hu. apply list_elem_of_fmap in Hl as (l1 & -> & Hl1).
      unfold has_uuid in *. case_bool_decide as Hu1.
      * simpl. by rewrite lookup_insert_eq.
      * done.
    + intros l Hl Hu. apply list_elem_of_fmap in Hl as (l1 & -> & Hl1).
      unfold has_uuid in *. case_bool_decide as Hu1; [done|done].
  - assert (u ∉ uuid <$> lines s) as Hin.
    { intros Hin. apply by_uuid_is_Some in Hin as [? ?]. congruence. }
    rewrite decide_False by done. split_and!; [done|lia| |done].
    intros l Hl Hu. exfalso. apply Hin. subst u.
    by apply list_elem_of_fmap_2.
Qed.

(** The loop over the uuids indexed under a run: the lines are the same
    lines, each indexed line that is present got a colour of the cycle, and
    the cycle moved once per such line. *)
Lemma recolor_loop us s :
  let s' := foldl recolor_line s us in
  uuid <$> lines s' = uuid <$> lines s ∧
  color_cycle s' =
    color_cycle s + length (filter (λ u, u ∈ uuid <$> lines s) us) ∧
  (∀ l, l ∈ lines s' → uuid l ∈ us →
        ∃ k, color_cycle s ≤ k < color_cycle s' ∧
             style l !! "color" = Some (cycle_color k)) ∧
  (∀ l, l ∈ lines s' → uuid l ∉ us → l ∈ lines s).
Proof.
  revert s. induction us as [|u us IH]; intros s; simpl.
  - split_and!; [done|lia| |done]. intros l _ Hl. by apply elem_of_nil in Hl.
  - destruct (IH (recolor_line s u)) as (Hids & Hcc & Hcol & Hrest).
    destruct (recolor_line_spec s u) as (Hids1 & Hcc1 & Hcol1 & Hrest1).
    simpl in Hids1, Hcc1, Hcol1, Hrest1.
    rewrite Hids1 in Hcc.
    split_and!.
    + by rewrite Hids, Hids1.
    + rewrite Hcc, Hcc1, filter_cons.
      destruct (decide (u ∈ uuid <$> lines s)); simpl; lia.
    + intros l Hl Hu.
      destruct (decide (uuid l ∈ us)) as [Hin|Hout].
      * destruct (Hcol l Hl Hin) as (k & Hk & Hc). exists k. split; [lia|done].
      * assert (uuid l = u) as Hlu by set_solver.
        exists (color_cycle s). split.
        -- assert (u ∈ uuid <$> lines s) as Hpres.
           { rewrite <- Hids1, <- Hids. apply list_elem_of_fmap.
             exists l. split; [by symmetry|exact Hl]. }
           rewrite Hcc, Hcc1, decide_True by done. lia.
        -- apply Hcol1; [by apply Hrest|done].
    + intros l Hl Hu. apply Hrest1; [apply Hrest; [done|set_solver]|set_solver].
Qed.

(** ** The capacity of the registry *)

(** C1. The capacity invariant [len(runs) <= max_runs + len(pinned)] does
    not hold after every mutation: with [max_runs = 1], adding a completed run
    and then a run that has no stream yet returns twice and leaves two
    unpinned runs in the registry, because [_on_run_added] only subscribes to
    the new run's streams and does not call [_cull_runs]. *)
Theorem capacity_exceeded_by_deferred_run :
  let calls := [AddRun "r1" false; AddRun "w1" false] in
  let s := exec calls (fresh 1 one_y some_runs) in
  outcomes calls (fresh 1 one_y some_runs) = [Ok tt; Ok tt] ∧
  runs s = ["r1"; "w1"] ∧ size (pinned s) = 0 ∧ max_runs s = 1%Z ∧
  ¬ within_capacity s.
Proof.
  cbv zeta. split_and!; [by vm_compute|by vm_compute|by vm_compute|by vm_compute|].
  unfold within_capacity. intros H. vm_compute in H. by apply H.
Qed.

(** ** Pins *)

Lemma add_run_pinned_kept u s : kept u (fst (add_run u true s)).
Proof.
  unfold add_run, _on_run_added. set (s1 := set_runs _ _).
  assert (kept u s1) as Hk by (subst s1; split; simpl; set_solver).
  destruct (streams_ready _ _); [by apply add_lines_kept|done].
Qed.

(** C7. A run that is pinned when it is added stays in the registry, and
    pinned, through every later sequence of calls (adds, pinned or not,
    assignments to [max_runs], discards of other runs, stream and completion
    notifications) that does not discard it. And when every tracked run is
    pinned, the eviction pass takes nothing out, and runs added pinned all
    stay, whatever [max_runs] is: the registry grows past it. *)
Theorem pinned_run_never_evicted (s : State) (u : uid) (calls : list op)
    (more : list uid) :
  DiscardRun u ∉ calls →
  kept u (fst (add_run u true s)) ∧
  kept u (exec calls (fst (add_run u true s))) ∧
  ((∀ r, r ∈ runs s → r ∈ pinned s) →
   fst (_cull_runs s) = s ∧
   runs (exec (map (λ r, AddRun r true) more) s) = runs s ++ more).
Proof.
  intros Hno. split_and!.
  - apply add_run_pinned_kept.
  - apply exec_kept; [done|apply add_run_pinned_kept].
  - intros Hall. split.
    + by apply cull_loop_all_pinned.
    + by apply add_pinned_runs_registry.
Qed.

Lemma pinned_run_never_evicted_witness :
  let calls := [AddRun "b" false; AddRun "c" false; SetMaxRuns 0;
                DiscardRun "c"; Completed "a"; NewStream "w1" "primary"] in
(DiscardRun "a" ∉ calls) ∧
  kept "a" (exec calls (fst (add_run "a" true (fresh 1 one_y some_runs)))).
Proof.
  cbv zeta.
  assert (DiscardRun "a" ∉
          [AddRun "b" false; AddRun "c" false; SetMaxRuns 0;
           DiscardRun "c"; Completed "a"; NewStream "w1" "primary"]) as Hno.
  { intros H. repeat (apply elem_of_cons in H as [H|H]; [discriminate|]).
    by apply elem_of_nil in H. }
  split; [exact Hno|].
  apply (pinned_run_never_evicted (fresh 1 one_y some_runs) "a" _ [] Hno).
Defined.

(** ** Eviction order *)

(** X24. From a new controller with [max_runs = m], adding the runs [rs] in
    order, none pinned, each with its required streams available, leaves in
    the registry exactly the last [m] of them, in their order of arrival: the
    oldest went first. When there are more than [m] runs, [m] are left. With
    [m >= 1], at least one y expression and distinct runs, every call
    returns. *)
Lemma fifo_of_ready_runs (m : Z) (c : Config) (h : uid → RunObj) (rs : list uid) :
  (0 ≤ m)%Z →
  (∀ r, r ∈ rs → streams_ready r (fresh m c h) = true) →
  let adds := map (λ r, AddRun r false) rs in
  runs (exec adds (fresh m c h)) = drop (length rs - Z.to_nat m) rs ∧
  (Z.to_nat m < length rs → length (runs (exec adds (fresh m c h))) = Z.to_nat m) ∧
  ((1 ≤ m)%Z → ys c ≠ [] → NoDup rs →
   Forall (λ o, o = Ok tt) (outcomes adds (fresh m c h))).
Proof.
  intros Hm Hready adds.
  assert (runs (exec adds (fresh m c h)) = drop (length rs - Z.to_nat m) rs) as Hr.
  { subst adds. rewrite add_unpinned_runs_registry; simpl; try done. lia. }
  split_and!.
  - done.
  - intros Hlt. rewrite Hr, length_drop. lia.
  - intros Hm1 Hys Hnd. subst adds.
    apply add_unpinned_runs_ok; simpl; try done; [lia|].
    intros r Hin. by apply elem_of_nil in Hin.
Qed.

Lemma fifo_of_ready_runs_example :
  let rs := ["a"; "b"; "c"; "d"; "e"] in
  (0 ≤ 2)%Z ∧
  (∀ r, r ∈ rs → streams_ready r (fresh 2 one_y some_runs) = true) ∧
  runs (exec (map (λ r, AddRun r false) rs) (fresh 2 one_y some_runs)) = ["d"; "e"].
Proof.
  cbv zeta.
  assert (∀ r, r ∈ ["a"; "b"; "c"; "d"; "e"] →
               streams_ready r (fresh 2 one_y some_runs) = true) as Hready.
  { intros r Hr.
    repeat (apply elem_of_cons in Hr as [->|Hr]; [by vm_compute|]).
    by apply elem_of_nil in Hr. }
  split_and!; [lia|exact Hready|].
  apply (fifo_of_ready_runs 2 one_y some_runs ["a"; "b"; "c"; "d"; "e"]);
    [lia|exact Hready].
Defined.

(** ** Colours *)

(** C2, as the specification states it, fails: with two y expressions, a live run
    gets two black lines and the completion notification draws two colours
    from the cycle, one per line, not one for the event. *)
Lemma palette_advances_once_per_line :
  let s1 := fst (add_run "live" false (fresh 3 two_ys some_runs)) in
  let s2 := fst (fire_completed "live" s1) in
  map (λ l, style l !! "color") (lines s1) = [Some black; Some black] ∧
  color_cycle s1 = 0 ∧
  snd (fire_completed "live" s1) = Ok tt ∧
  length (lines s2) = 2 ∧
  color_cycle s2 = color_cycle s1 + 2 ∧
  color_cycle s2 ≠ color_cycle s1 + 1.
Proof. cbv zeta. split_and!; by vm_compute. Qed.

(** C2, amended. The lines that [_add_lines] creates for a run that is live
    and not completed are all black, one per y expression when the call
    returns, and the completion handler is then connected. When the run's
    completion notification fires, no line is added or removed, every line
    indexed under the run's uid has a colour of the palette, and the cycle
    has advanced once per indexed line that is present in the axes. *)
Theorem completion_recoloring (s t : State) (r : uid) :
  live (heap s r) = true →
  completed_cb (heap t r) = true →
  (∃ new,
      lines (fst (_add_lines r s)) = lines (fst (_cull_runs s)) ++ new ∧
      Forall (λ l, line_run l = r ∧ style l !! "color" = Some black) new ∧
      (snd (_add_lines r s) = Ok tt →
       length new = length (ys (conf s)) ∧
       (ys (conf s) ≠ [] → completed_cb (heap (fst (_add_lines r s)) r) = true))) ∧
  let ids := default ∅ (runs_to_lines t !! r) in
  let t' := fst (fire_completed r t) in
  snd (fire_completed r t) = Ok tt ∧
  uuid <$> lines t' = uuid <$> lines t ∧
  (∀ l, l ∈ lines t' → uuid l ∈ ids →
        ∃ c, c ∈ palette ∧ style l !! "color" = Some c) ∧
  color_cycle t' =
    color_cycle t + length (filter (λ u, u ∈ uuid <$> lines t) (elements ids)).
Proof.
  intros Hlive Hcb. split.
  - destruct (cull_loop_settings (S (length (runs s))) 0 s) as [[Hc _] Hh].
    fold (_cull_runs s) in Hc, Hh.
    assert (snd (_cull_runs s) = Ok tt ∨ snd (_cull_runs s) ≠ Ok tt)
      as [Hok|Hraise] by (destruct (snd (_cull_runs s)) as [[]|e|]; auto).
    + rewrite add_lines_ok by done. simpl.
      destruct (add_lines_loop_lines r (ys (conf s)) (fst (_cull_runs s)))
        as (new & Hl & Hlen & Hall).
      exists new. split_and!; [done| |].
      * eapply Forall_impl; [exact Hall|]. intros l [? Hcol]. split; [done|].
        apply Hcol. by rewrite Hh.
      * intros _. split; [done|]. intros Hys.
        apply add_lines_loop_completed_cb; [by rewrite Hh|done].
    + rewrite add_lines_raise by done. exists []. rewrite app_nil_r.
      split_and!; [done|constructor|done].
  - cbv zeta. unfold fire_completed. rewrite Hcb. unfold _on_run_complete. simpl.
    set (ids := default ∅ (runs_to_lines t !! r)).
    set (t1 := set_runs_to_lines _ _).
    destruct (recolor_loop (elements ids) t1) as (Hids & Hcc & Hcol & _).
    simpl in Hids, Hcc, Hcol.
    split_and!; [done|done| |done].
    intros l Hl Hu. destruct (Hcol l Hl) as (k & _ & Hk); [set_solver|].
    exists (cycle_color k). split; [apply cycle_color_in_palette|done].
Qed.

Lemma completion_recoloring_witness :
  let s := set_runs ["live"] (fresh 3 two_ys some_runs) in
  let t := fst (_add_lines "live" s) in
  live (heap s "live") = true ∧ completed_cb (heap t "live") = true ∧
  color_cycle (fst (fire_completed "live" t)) =
    color_cycle t +
    length (filter (λ u, u ∈ uuid <$> lines t)
                   (elements (default ∅ (runs_to_lines t !! "live")))).
Proof.
  cbv zeta. split_and!; [by vm_compute|by vm_compute|].
  apply (completion_recoloring
           (set_runs ["live"] (fresh 3 two_ys some_runs))
           (fst (_add_lines "live" (set_runs ["live"] (fresh 3 two_ys some_runs))))
           "live"); by vm_compute.
Defined.

(** ** Runs that wait for their streams *)

Lemma remove_first_app_notin (l : list uid) r :
  r ∉ l → remove_first (is_run r) (l ++ [r]) = l.
Proof.
  induction l as [|a l IH]; intros Hr; simpl.
  - unfold is_run. by rewrite bool_decide_true.
  - unfold is_run at 1. rewrite bool_decide_false by set_solver.
    rewrite IH; [done|set_solver].
Qed.

(** A run whose streams are not there is stored and subscribed to; nothing
    is evicted and no line is created. *)
Lemma add_run_deferred r pin s :
  streams_ready r s = false →
  add_run r pin s =
  (set_new_stream_cb r true
     (set_runs (runs s ++ [r])
        (if pin then set_pinned (pinned s ∪ {[r]}) s else s)), Ok tt).
Proof.
  intros Hnot. unfold add_run, _on_run_added.
  replace (streams_ready r _) with (streams_ready r s) by (by destruct pin).
  rewrite Hnot. by destruct pin.
Qed.

(** A stream notification that leaves the run short of a stream changes
    nothing and returns. *)
Lemma fire_new_stream_not_ready r name s :
  streams_ready r (stream_arrives r name s) = false →
  fire_new_stream r name s = (stream_arrives r name s, Ok tt).
Proof.
  intros Hnot. unfold fire_new_stream, _on_new_stream. rewrite Hnot.
  by destruct (new_stream_cb _).
Qed.

(** The discard of a run that was added while it lacked a stream, and that
    has no entry in [_runs_to_lines], raises KeyError: [pop] on the index
    finds no entry for a run that never had a line. *)
Lemma discard_of_waiting_run_raises (s : State) (r : uid) (pin : bool) :
  streams_ready r s = false →
  r ∉ runs s →
  runs_to_lines s !! r = None →
  snd (add_run r pin s) = Ok tt ∧
  snd (discard_run r (fst (add_run r pin s))) = Raise KeyError.
Proof.
  intros Hnot Hfresh Hidx. rewrite add_run_deferred by done.
  split; [done|]. simpl fst. unfold discard_run.
  rewrite decide_True by (simpl; set_solver).
  unfold _on_run_removed. simpl.
  replace (runs_to_lines (if pin then _ else s)) with (runs_to_lines s)
    by (by destruct pin).
  by rewrite Hidx.
Qed.

(** C3. The discard of a run that was never activated raises, and it does
    not cancel the subscription: with a new controller, a run that has no
    stream yet is added and discarded; the discard takes the run out of the
    registry but raises KeyError, as the run has no entry in
    [_runs_to_lines], and the subscription to the run's streams stays
    connected; when the primary stream then arrives, the notification
    creates a line for the discarded run. The specification has the discard
    return, cancel the subscription, and the notification create nothing. *)
Lemma discarded_run_still_activates :
  let s1 := fst (add_run "w1" false (fresh 3 one_y some_runs)) in
  let s2 := fst (discard_run "w1" s1) in
  let s3 := fst (fire_new_stream "w1" "primary" s2) in
  snd (discard_run "w1" s1) = Raise KeyError ∧
  runs s2 = [] ∧ lines s2 = [] ∧
  new_stream_cb (heap s2 "w1") = true ∧
  snd (fire_new_stream "w1" "primary" s2) = Ok tt ∧
  map line_run (lines s3) = ["w1"].
Proof. cbv zeta. split_and!; by vm_compute. Qed.

(** What the discard of a waiting run does, whether it returns or raises:
    it takes the run out of the registry and of the pinned set, and leaves
    the stream subscription connected. A later new-stream notification after
    which a required stream is still missing creates no line and returns. *)
Lemma discard_before_activation (s : State) (r : uid) (pin : bool) :
  streams_ready r s = false →
  r ∉ runs s →
  let s1 := fst (add_run r pin s) in
  let s2 := fst (discard_run r s1) in
  runs s2 = runs s ∧ (r ∉ pinned s2) ∧
  new_stream_cb (heap s2 r) = true ∧
  ∀ name, streams_ready r (stream_arrives r name s2) = false →
          fire_new_stream r name s2 = (stream_arrives r name s2, Ok tt) ∧
          lines (fst (fire_new_stream r name s2)) = lines s2.
Proof.
  intros Hnot Hfresh. cbv zeta. rewrite add_run_deferred by done.
  simpl fst. set (s1 := set_new_stream_cb r true _).
  assert (runs s1 = runs s ++ [r]) as Hr1 by done.
  unfold discard_run. rewrite Hr1.
  rewrite decide_True by set_solver.
  rewrite remove_first_app_notin by done.
  rewrite on_run_removed_runs, on_run_removed_pinned, on_run_removed_heap.
  split_and!.
  - done.
  - set_solver.
  - subst s1. simpl. by rewrite decide_True.
  - intros name Hnot'. rewrite fire_new_stream_not_ready by done. done.
Qed.

Lemma discard_before_activation_witness :
  let s := fresh 3 one_y some_runs in
  streams_ready "w1" s = false ∧ ("w1" ∉ runs s) ∧
  runs (fst (discard_run "w1" (fst (add_run "w1" true s)))) = runs s.
Proof.
  cbv zeta.
  assert ("w1" ∉ runs (fresh 3 one_y some_runs)) as Hfresh
    by (simpl; apply not_elem_of_nil).
  split_and!; [by vm_compute|exact Hfresh|].
  apply (discard_before_activation (fresh 3 one_y some_runs) "w1" true);
    [by vm_compute|exact Hfresh].
Defined.

(** X25. Adding a run that lacks a required stream returns, creates no line
    and subscribes to the run's streams. A new-stream notification after
    which a stream is still missing creates nothing. The notification after
    which the required streams are all there, handled while the subscription
    is connected and with an eviction pass that returns, returns, appends
    exactly one line per y expression, all for this run, and cancels the
    subscription. Once the subscription is cancelled, a stream notification
    for the run changes nothing but the run's streams. *)
Lemma deferred_activation_when_culled (s t u : State) (r : uid) (pin : bool)
    (name name' : string) :
  streams_ready r s = false →
  new_stream_cb (heap t r) = true →
  streams_ready r (stream_arrives r name t) = true →
  snd (_cull_runs (stream_arrives r name t)) = Ok tt →
  new_stream_cb (heap u r) = false →
  (snd (add_run r pin s) = Ok tt ∧
   lines (fst (add_run r pin s)) = lines s ∧
   new_stream_cb (heap (fst (add_run r pin s)) r) = true) ∧
  (∀ t0 name0, streams_ready r (stream_arrives r name0 t0) = false →
               fire_new_stream r name0 t0 = (stream_arrives r name0 t0, Ok tt)) ∧
  (snd (fire_new_stream r name t) = Ok tt ∧
   (∃ new,
       lines (fst (fire_new_stream r name t)) =
         lines (fst (_cull_runs (stream_arrives r name t))) ++ new ∧
       length new = length (ys (conf t)) ∧
       Forall (λ l, line_run l = r) new) ∧
   new_stream_cb (heap (fst (fire_new_stream r name t)) r) = false) ∧
  (fire_new_stream r name' u = (stream_arrives r name' u, Ok tt) ∧
   lines (stream_arrives r name' u) = lines u).
Proof.
  intros Hnot Hcb Hready Hcull Hoff. split_and!.
  - by rewrite add_run_deferred.
  - rewrite add_run_deferred by done. by destruct pin.
  - rewrite add_run_deferred by done. simpl. by rewrite decide_True.
  - intros t0 name0. apply fire_new_stream_not_ready.
  - unfold fire_new_stream, _on_new_stream. rewrite Hcb, Hready.
    unfold andThen. by rewrite add_lines_ok.
  - unfold fire_new_stream, _on_new_stream. rewrite Hcb, Hready.
    unfold andThen. rewrite add_lines_ok by done. simpl.
    destruct (add_lines_loop_lines r (ys (conf t))
                (fst (_cull_runs (stream_arrives r name t))))
      as (new & Hl & Hlen & Hall).
    exists new. split_and!; [done|done|].
    eapply Forall_impl; [exact Hall|]. by intros l [? _].
  - unfold fire_new_stream, _on_new_stream. rewrite Hcb, Hready.
    unfold andThen. rewrite add_lines_ok by done. simpl.
    by rewrite decide_True.
  - unfold fire_new_stream. by rewrite Hoff.
  - done.
Qed.

Lemma deferred_activation_example :
  let s := fresh 3 two_ys some_runs in
  let t := fst (add_run "w1" false s) in
  let u := fst (fire_new_stream "w1" "primary" t) in
  streams_ready "w1" s = false ∧
  new_stream_cb (heap t "w1") = true ∧
  streams_ready "w1" (stream_arrives "w1" "primary" t) = true ∧
  snd (_cull_runs (stream_arrives "w1" "primary" t)) = Ok tt ∧
  new_stream_cb (heap u "w1") = false ∧
  snd (fire_new_stream "w1" "primary" t) = Ok tt ∧
  length (lines u) = 2 ∧
  lines (fst (fire_new_stream "w1" "baseline" u)) = lines u.
Proof.
  cbv zeta.
  pose proof (deferred_activation_when_culled
                (fresh 3 two_ys some_runs)
                (fst (add_run "w1" false (fresh 3 two_ys some_runs)))
                (fst (fire_new_stream "w1" "primary"
                        (fst (add_run "w1" false (fresh 3 two_ys some_runs)))))
                "w1" false "primary" "baseline") as H.
  destruct H as (_ & _ & (Hok & _ & _) & _);
    [by vm_compute|by vm_compute|by vm_compute|by vm_compute|by vm_compute|].
  split_and!; [by vm_compute|by vm_compute|by vm_compute|by vm_compute
              |by vm_compute|exact Hok|by vm_compute|by vm_compute].
Defined.

(** C6. The registry does not always hold the last [max_runs] runs: with
    [max_runs = 1], adding a completed run and then a run that has no stream
    yet leaves both in the registry, the older one first, where the
    specification has the newer one alone. Nothing is evicted when the second run is added,
    because [_on_run_added] calls [_cull_runs] only on its way to
    [_add_lines]. *)
Theorem fifo_eviction_skipped_for_deferred_run :
  let rs := ["r1"; "w1"] in
  let adds := map (λ r, AddRun r false) rs in
  let s := exec adds (fresh 1 one_y some_runs) in
  outcomes adds (fresh 1 one_y some_runs) = [Ok tt; Ok tt] ∧
  runs s = ["r1"; "w1"] ∧
  drop (length rs - 1) rs = ["w1"] ∧
  runs s ≠ drop (length rs - 1) rs.
Proof. cbv zeta. split_and!; by vm_compute. Qed.

(** C4. The first notification that completes a run's streams does not
    always create its lines: with [max_runs = 1], two runs that have no
    stream yet are added, and the primary stream of the second arrives. The
    eviction pass of [_add_lines] takes the first run out of the registry,
    [_on_run_removed] raises KeyError at [self._runs_to_lines.pop(run_uid)]
    as that run never had a line, and the handler is left before any line is
    created and before the subscription is cancelled. The next notification
    creates the line. *)
Theorem deferred_activation_lost_to_eviction :
  let s2 := exec [AddRun "w1" false; AddRun "w2" false] (fresh 1 one_y some_runs) in
  let s3 := fst (fire_new_stream "w2" "primary" s2) in
  let s4 := fst (fire_new_stream "w2" "baseline" s3) in
  runs s2 = ["w1"; "w2"] ∧ lines s2 = [] ∧
  new_stream_cb (heap s2 "w2") = true ∧
  streams_ready "w2" s2 = false ∧
  streams_ready "w2" (stream_arrives "w2" "primary" s2) = true ∧
  snd (fire_new_stream "w2" "primary" s2) = Raise KeyError ∧
  runs s3 = ["w2"] ∧ lines s3 = [] ∧
  new_stream_cb (heap s3 "w2") = true ∧
  snd (fire_new_stream "w2" "baseline" s3) = Ok tt ∧
  map line_run (lines s4) = ["w2"] ∧
  new_stream_cb (heap s4 "w2") = false.
Proof. cbv zeta. split_and!; by vm_compute. Qed.

(** ** No call runs out of fuel *)

Lemma add_lines_no_fuel r s : snd (_add_lines r s) ≠ OutOfFuel.
Proof.
  unfold _add_lines. apply andThen_no_fuel; [apply cull_runs_no_fuel|done].
Qed.

Lemma step_no_fuel o s : snd (step o s) ≠ OutOfFuel.
Proof.
  destruct o as [r pin|r|v|r name|r]; simpl.
  - unfold add_run, _on_run_added.
    destruct (streams_ready _ _); [apply add_lines_no_fuel|done].
  - unfold discard_run. destruct (decide _); [apply on_run_removed_no_fuel|done].
  - apply cull_runs_no_fuel.
  - unfold fire_new_stream, _on_new_stream.
    destruct (new_stream_cb _); [|done].
    destruct (streams_ready _ _); [|done].
    apply andThen_no_fuel; [apply add_lines_no_fuel|done].
  - unfold fire_completed. by destruct (completed_cb _).
Qed.

End RecentLinesFacts.

(** * Properties of Image *)

Module ImageFacts.

Import Image.

#[local] Arguments Nat.div : simpl never.

Section Array.

Context {A : Type}.
Implicit Types a b : ndarray A.

Lemma middle_slice_cons a d rest :
  shape a = d :: rest → 0 < d →
  middle_slice a =
  Ok {| shape := rest;
        data := take (shape_size rest) (drop (d / 2 * shape_size rest) (data a)) |}.
Proof.
  intros Hs Hd. unfold middle_slice, index0. rewrite Hs.
  change (hd 0 (d :: rest)) with d.
  rewrite decide_True; [done|]. apply Nat.div_lt; lia.
Qed.

Lemma middle_slice_empty a rest :
  shape a = 0 :: rest → middle_slice a = Raise IndexError.
Proof. intros Hs. unfold middle_slice, index0. rewrite Hs. done. Qed.

Lemma middle_slice_ok a a' :
  middle_slice a = Ok a' →
  ∃ d, 0 < d ∧ shape a = d :: shape a' ∧
       data a' = take (shape_size (shape a'))
                      (drop (d / 2 * shape_size (shape a')) (data a)).
Proof.
  unfold middle_slice, index0. destruct (shape a) as [|d rest] eqn:Hs; [done|].
  change (hd 0 (d :: rest)) with d.
  destruct (decide (d / 2 < d)) as [Hlt|]; [|done].
  intros [= <-]. exists d. split_and!; [|done|done].
  destruct d; [by apply Nat.nlt_0_r in Hlt|lia].
Qed.

(** The loop of [_transform] takes [ndim a - 2] middle slices; the fuel that
    [_transform] gives it is enough. *)
Lemma collapse_repeat fuel a :
  ndim a ≤ fuel → collapse fuel a = repeat_middle_slice (ndim a - 2) a.
Proof.
  revert a. induction fuel as [|fuel IH]; intros a Hf.
  - simpl. destruct (decide (2 < ndim a)); [lia|].
    by replace (ndim a - 2) with 0 by lia.
  - simpl. destruct (decide (2 < ndim a)) as [Hgt|Hle].
    + replace (ndim a - 2) with (S (ndim a - 3)) by lia. simpl.
      destruct (middle_slice a) as [a'|e|] eqn:Hm; [|done|done].
      apply middle_slice_ok in Hm as (d & _ & Hs & _).
      assert (ndim a = S (ndim a')) as Hn by (unfold ndim; by rewrite Hs).
      rewrite IH by lia. f_equal. lia.
    + by replace (ndim a - 2) with 0 by lia.
Qed.

Lemma transform_repeat a : _transform a = repeat_middle_slice (ndim a - 2) a.
Proof. by apply collapse_repeat. Qed.

Lemma repeat_middle_slice_no_fuel n a : repeat_middle_slice n a ≠ OutOfFuel.
Proof.
  revert a. induction n as [|n IH]; intros a; simpl; [done|].
  destruct (middle_slice a) as [a'|e|] eqn:Hm; [apply IH|done|].
  unfold middle_slice, index0 in Hm.
  destruct (shape a); [done|]. by destruct (decide _).
Qed.

Lemma transform_no_fuel a : _transform a ≠ OutOfFuel.
Proof. rewrite transform_repeat. apply repeat_middle_slice_no_fuel. Qed.

(** The middle block of the first [n] axes lies within the array. *)
Lemma middle_offset_bound n sh :
  Forall (λ d, 0 < d) (take n sh) →
  middle_offset n sh + shape_size (drop n sh) ≤ shape_size sh.
Proof.
  revert sh. induction n as [|n IH]; intros sh Hpos;
    [rewrite drop_0; simpl; lia|].
  destruct sh as [|d rest]; [simpl; lia|].
  simpl in Hpos. apply Forall_cons in Hpos as [Hd Hrest].
  specialize (IH rest Hrest). simpl.
  assert (d / 2 + 1 ≤ d) as Hhalf.
  { pose proof (Nat.div_lt d 2 Hd). lia. }
  nia.
Qed.

Lemma take_drop_block (l : list A) J K off K' :
  off + K' ≤ K →
  take K' (drop off (take K (drop J l))) = take K' (drop (J + off) l).
Proof.
  intros Hb. rewrite <- drop_drop.
  replace K with (off + (K - off)) by lia.
  rewrite <- take_drop_commute, take_take.
  by replace (K' `min` (K - off)) with K' by lia.
Qed.

(** When the leading [n] axes are not empty, [n] middle slices give the
    block of the middle indices of these axes. *)
Lemma repeat_middle_slice_closed n a :
  well_formed a → n ≤ ndim a →
  Forall (λ d, 0 < d) (take n (shape a)) →
  repeat_middle_slice n a =
  Ok {| shape := drop n (shape a);
        data := take (shape_size (drop n (shape a)))
                     (drop (middle_offset n (shape a)) (data a)) |}.
Proof.
  revert a. induction n as [|n IH]; intros a Hwf Hn Hpos.
  - simpl. rewrite !drop_0. destruct a as [sh d].
    unfold well_formed in Hwf. simpl in *. by rewrite take_ge by lia.
  - destruct (shape a) as [|d rest] eqn:Hs;
      [unfold ndim in Hn; rewrite Hs in Hn; simpl in Hn; lia|].
    simpl in Hpos. apply Forall_cons in Hpos as [Hd Hrest].
    simpl. rewrite (middle_slice_cons a d rest Hs Hd).
    rewrite IH; simpl.
    + f_equal. f_equal. apply take_drop_block.
      by apply middle_offset_bound.
    + unfold well_formed in *. simpl. rewrite length_take, length_drop, Hwf, Hs.
      simpl. assert (d / 2 < d) by (apply Nat.div_lt; lia). nia.
    + unfold ndim in *. rewrite Hs in Hn. simpl in *. lia.
    + done.
Qed.

(** If [n] middle slices can be taken, the leading [n] axes are not empty. *)
Lemma repeat_middle_slice_ok n a b :
  repeat_middle_slice n a = Ok b →
  n ≤ ndim a ∧ Forall (λ d, 0 < d) (take n (shape a)).
Proof.
  revert a. induction n as [|n IH]; intros a; simpl.
  - intros _. split; [lia|constructor].
  - destruct (middle_slice a) as [a'|e|] eqn:Hm; [|done|done].
    apply middle_slice_ok in Hm as (d & Hd & Hs & _).
    intros [Hn Hpos]%IH. unfold ndim in *. rewrite Hs. simpl.
    split; [lia|by constructor].
Qed.

End Array.

(** C8. For an array of more than two dimensions, [_transform] returns what
    taking the slice at index [shape[0] // 2] along the leading axis, again
    and again until two dimensions are left, returns. When it returns an
    array, that array has the last two dimensions of the input and holds the
    input's elements at the middle indices of the leading axes, as they are:
    nothing is averaged. It does return when no leading axis is empty. For
    the shape (4, 5, 6) it is the (5, 6) slice at index 2 of axis 0. *)
Theorem dimensional_collapse {A : Type} (a : ndarray A) :
  well_formed a →
  2 < ndim a →
  _transform a = repeat_middle_slice (ndim a - 2) a ∧
  (∀ b, _transform a = Ok b →
        ndim b = 2 ∧
        shape b = drop (ndim a - 2) (shape a) ∧
        data b = take (shape_size (shape b))
                      (drop (middle_offset (ndim a - 2) (shape a)) (data a))) ∧
  (Forall (λ d, 0 < d) (take (ndim a - 2) (shape a)) → ∃ b, _transform a = Ok b) ∧
  (shape a = [4; 5; 6] →
   _transform a = index0 a 2 ∧
   _transform a = Ok {| shape := [5; 6]; data := take 30 (drop 60 (data a)) |}).
Proof.
  intros Hwf Hdim. split_and!.
  - apply transform_repeat.
  - intros b Hb. rewrite transform_repeat in Hb.
    destruct (repeat_middle_slice_ok _ _ _ Hb) as [Hn Hpos].
    rewrite repeat_middle_slice_closed in Hb by done.
    injection Hb as <-. simpl. split_and!; [|done|done].
    unfold ndim in *. simpl. rewrite length_drop. lia.
  - intros Hpos. rewrite transform_repeat.
    rewrite repeat_middle_slice_closed; [eauto|done|lia|done].
  - intros Hs. rewrite transform_repeat.
    unfold ndim, index0. rewrite Hs. simpl.
    unfold middle_slice, index0. rewrite Hs. simpl. done.
Qed.

Lemma dimensional_collapse_witness :
  let a := {| shape := [4; 5; 6]; data := seq 0 120 |} in
  well_formed a ∧ 2 < ndim a ∧
  _transform a = Ok {| shape := [5; 6]; data := seq 60 30 |}.
Proof.
  cbv zeta.
  assert (well_formed {| shape := [4; 5; 6]; data := seq 0 120 |}) as Hwf
    by reflexivity.
  assert (2 < ndim {| shape := [4; 5; 6]; data := seq 0 120 |}) as Hdim
    by (unfold ndim; simpl; lia).
  split_and!; [exact Hwf|exact Hdim|].
  destruct (dimensional_collapse _ Hwf Hdim) as (_ & _ & _ & H456).
  destruct (H456 eq_refl) as [_ ->]. reflexivity.
Defined.

End ImageFacts.

(** * Properties of RasteredImage *)

Module RasteredImageFacts.

Import RasteredImage.

(** ** The raster *)

(** C5. With shape (2, 3), the data 0..5 is laid out as [[0,1,2],[5,4,3]]
    when the column axis snakes (the odd row is mirrored), and as
    [[0,1,2],[3,4,5]] when it does not. *)
Theorem raster_round_trip :
  _transform (2, 3) (false, true) [0; 1; 2; 3; 4; 5]%Z =
    Ok [[Some 0; Some 1; Some 2]; [Some 5; Some 4; Some 3]]%Z ∧
  _transform (2, 3) (false, false) [0; 1; 2; 3; 4; 5]%Z =
    Ok [[Some 0; Some 1; Some 2]; [Some 3; Some 4; Some 5]]%Z.
Proof. split; reflexivity. Qed.

Lemma fill_no_fuel {A} shape snaking i (data : list A) g :
  fill shape snaking i data g ≠ OutOfFuel.
Proof.
  revert i g. induction data as [|d rest IH]; intros i g; simpl; [done|].
  unfold unravel_index. destruct (decide _); [apply IH|done].
Qed.

(** ** Orientation *)

Lemma num_gt_lt (a b : Q) : num_gt (Fin a) (Fin b) = true ↔ (b < a)%Q.
Proof.
  unfold num_gt. simpl. rewrite andb_true_iff, negb_true_iff,
    <- not_true_iff_false, !Qle_bool_iff.
  split.
  - intros [_ H]. by apply Qnot_le_lt.
  - intros H. split; [by apply Qlt_le_weak|by apply Qlt_not_le].
Qed.

Lemma num_gt_asym a b : num_gt a b = true → num_gt b a = false.
Proof.
  unfold num_gt. intros [_ H]%andb_true_iff. apply negb_true_iff in H.
  by rewrite H.
Qed.

(** What the getters answer, by the order of the limits alone. *)
Lemma get_x_positive_limits s a b :
  x_limits s = Some (a, b) →
  get_x_positive s =
  (set__x_positive (if num_gt a b then "left" else "right") s,
   Ok (if num_gt a b then "left" else "right")).
Proof. intros H. unfold get_x_positive. rewrite H. by destruct (num_gt a b). Qed.

Lemma get_y_positive_limits s a b :
  y_limits s = Some (a, b) →
  get_y_positive s =
  (set__y_positive (if num_gt a b then "down" else "up") s,
   Ok (if num_gt a b then "down" else "up")).
Proof. intros H. unfold get_y_positive. rewrite H. by destruct (num_gt a b). Qed.

(** Two numbers of which one is greater than the other. *)
Lemma order_cases a b :
  num_gt a b = true ∨ num_gt b a = true →
  (num_gt a b = true ∧ num_gt b a = false ∧ num_ge a b = true) ∨
  (num_gt a b = false ∧ num_gt b a = true ∧ num_ge b a = true).
Proof.
  intros [H|H]; [left|right]; pose proof (num_gt_asym _ _ H) as H';
    unfold num_gt, num_ge in *; apply andb_true_iff in H as [Hle Hn];
    rewrite Hle; rewrite Hle in H'; simpl in *; by rewrite Hn.
Qed.

Lemma set_get_x_positive s a b v :
  x_limits s = Some (a, b) → num_gt a b = true ∨ num_gt b a = true →
  v ∈ ["right"; "left"] →
  snd (set_x_positive v s) = Ok tt ∧
  snd (get_x_positive (fst (set_x_positive v s))) = Ok v.
Proof.
  intros Hx Hord Hv.
  assert (v = "right" ∨ v = "left") as Hcases by set_solver.
  unfold set_x_positive. rewrite bool_decide_true by done.
  simpl. rewrite Hx. unfold str_eq.
  destruct (order_cases a b Hord) as [(Hab & Hba & Hge)|(Hab & Hba & Hge)];
    destruct Hcases as [-> | ->]; rewrite Hab, Hba; simpl;
    rewrite ?Hge, ?orb_true_r; simpl;
    (split; [done|]); unfold get_x_positive; simpl;
    rewrite ?Hab, ?Hba; done.
Qed.

Lemma set_get_y_positive s a b v :
  y_limits s = Some (a, b) → num_gt a b = true ∨ num_gt b a = true →
  v ∈ ["up"; "down"] →
  snd (set_y_positive v s) = Ok tt ∧
  snd (get_y_positive (fst (set_y_positive v s))) = Ok v.
Proof.
  intros Hy Hord Hv.
  assert (v = "up" ∨ v = "down") as Hcases by set_solver.
  unfold set_y_positive. rewrite bool_decide_true by done.
  simpl. rewrite Hy. unfold str_eq.
  destruct (order_cases a b Hord) as [(Hab & Hba & Hge)|(Hab & Hba & Hge)];
    destruct Hcases as [-> | ->]; rewrite Hab, Hba; simpl;
    rewrite ?Hge, ?orb_true_r; simpl;
    (split; [done|]); unfold get_y_positive; simpl;
    rewrite ?Hab, ?Hba; done.
Qed.

(** C10, as the specification states it, fails for limits that differ but
    are not ordered: with x-limits [(nan, 1.0)], whose two numbers differ as
    Python compares them, setting [x_positive] to "left" returns, swaps
    nothing, and reading [x_positive] then gives "right"; with y-limits
    [(0.0, nan)], setting [y_positive] to "down" returns and reading it gives
    "up". *)
Lemma unordered_limits_break_round_trip :
  let s := {| _x_positive := "right"; _y_positive := "up";
              x_limits := Some (NaN, Fin 1); y_limits := Some (Fin 0, NaN) |} in
  num_ne NaN (Fin 1) = true ∧
  set_x_positive "left" s = (set__x_positive "left" s, Ok tt) ∧
  snd (get_x_positive (fst (set_x_positive "left" s))) = Ok "right" ∧
  num_ne (Fin 0) NaN = true ∧
  set_y_positive "down" s = (set__y_positive "down" s, Ok tt) ∧
  snd (get_y_positive (fst (set_y_positive "down" s))) = Ok "up".
Proof. cbv zeta. split_and!; reflexivity. Qed.

(** C10, amended. With x-limits [(a, b)] of which one is greater than the
    other ([a < b] or [b < a], so neither is NaN), setting [x_positive] to
    "right" or "left" returns, and reading it then gives the value that was
    set. The getter answers by the order of the limits alone: it stores and
    returns "left" exactly when the limits are strictly decreasing ([a > b])
    and "right" otherwise, whatever orientation was stored. The same holds
    for [y_positive] with "up" and "down" and the y-limits. *)
Theorem orientation_round_trip (s : State) (a b : num) (vx vy : string) :
  (x_limits s = Some (a, b) → num_gt a b = true ∨ num_gt b a = true →
   vx ∈ ["right"; "left"] →
   snd (set_x_positive vx s) = Ok tt ∧
   snd (get_x_positive (fst (set_x_positive vx s))) = Ok vx) ∧
  (x_limits s = Some (a, b) →
   ∃ v, get_x_positive s = (set__x_positive v s, Ok v) ∧
        (v = "left" ↔ num_gt a b = true) ∧
        (v = "right" ↔ num_gt a b = false)) ∧
  (y_limits s = Some (a, b) → num_gt a b = true ∨ num_gt b a = true →
   vy ∈ ["up"; "down"] →
   snd (set_y_positive vy s) = Ok tt ∧
   snd (get_y_positive (fst (set_y_positive vy s))) = Ok vy) ∧
  (y_limits s = Some (a, b) →
   ∃ v, get_y_positive s = (set__y_positive v s, Ok v) ∧
        (v = "down" ↔ num_gt a b = true) ∧
        (v = "up" ↔ num_gt a b = false)).
Proof.
  split_and!.
  - intros Hx Hord Hv. by apply (set_get_x_positive s a b).
  - intros Hx. eexists. split; [by apply get_x_positive_limits|].
    destruct (num_gt a b); split; split; done.
  - intros Hy Hord Hv. by apply (set_get_y_positive s a b).
  - intros Hy. eexists. split; [by apply get_y_positive_limits|].
    destruct (num_gt a b); split; split; done.
Qed.

Lemma orientation_round_trip_witness :
  let s := {| _x_positive := "right"; _y_positive := "up";
              x_limits := Some (Fin (-0.5), Fin 2.5);
              y_limits := Some (Fin (-0.5), Fin 2.5) |} in
  (num_gt (Fin (-0.5)) (Fin 2.5) = true ∨
   num_gt (Fin 2.5) (Fin (-0.5)) = true) ∧
  snd (get_x_positive (fst (set_x_positive "left" s))) = Ok "left" ∧
  snd (get_y_positive (fst (set_y_positive "down" s))) = Ok "down".
Proof.
  cbv zeta.
  assert (num_gt (Fin (-0.5)) (Fin 2.5) = true ∨
          num_gt (Fin 2.5) (Fin (-0.5)) = true) as Hord by (right; reflexivity).
  pose proof (orientation_round_trip
                {| _x_positive := "right"; _y_positive := "up";
                   x_limits := Some (Fin (-0.5), Fin 2.5);
                   y_limits := Some (Fin (-0.5), Fin 2.5) |}
                (Fin (-0.5)) (Fin 2.5) "left" "down") as (Hx & _ & Hy & _).
  split_and!; [exact Hord| |].
  - apply Hx; [reflexivity|exact Hord|set_solver].
  - apply Hy; [reflexivity|exact Hord|set_solver].
Defined.

(** ** Configuration errors *)

(** C9. The constructor of RecentLines raises ValueError when [ys] is a
    single string. The setter of [x_positive] raises ValueError for a value
    that is neither "right" nor "left", the setter of [y_positive] for a
    value that is neither "up" nor "down", and both leave the stored
    orientations and the limits as they were. *)
Theorem configuration_errors (m : Z) (x y : string)
    (label_maker : RecentLines.uid → string → string) (needs : list string)
    (h : RecentLines.uid → RecentLines.RunObj) (s : State) (v : string) :
  RecentLines.init m x (RecentLines.YsStr y) label_maker needs h
    = Raise ValueError ∧
  (v ∉ ["right"; "left"] → set_x_positive v s = (s, Raise ValueError)) ∧
  (v ∉ ["up"; "down"] → set_y_positive v s = (s, Raise ValueError)).
Proof.
  split_and!.
  - reflexivity.
  - intros Hv. unfold set_x_positive. by rewrite bool_decide_false.
  - intros Hv. unfold set_y_positive. by rewrite bool_decide_false.
Qed.

Lemma configuration_errors_witness :
  let s := {| _x_positive := "right"; _y_positive := "up";
              x_limits := Some (Fin (-0.5), Fin 2.5); y_limits := None |} in
  ("sideways" ∉ ["right"; "left"]) ∧ ("sideways" ∉ ["up"; "down"]) ∧
  set_x_positive "sideways" s = (s, Raise ValueError) ∧
  set_y_positive "sideways" s = (s, Raise ValueError).
Proof.
  cbv zeta.
  assert ("sideways" ∉ ["right"; "left"]) as Hx by set_solver.
  assert ("sideways" ∉ ["up"; "down"]) as Hy by set_solver.
  pose proof (configuration_errors 3 "motor" "det" RecentLines.scan_label
                ["primary"] RecentLines.some_runs
                {| _x_positive := "right"; _y_positive := "up";
                   x_limits := Some (Fin (-0.5), Fin 2.5); y_limits := None |}
                "sideways") as (_ & Hsx & Hsy).
  split_and!; [exact Hx|exact Hy|by apply Hsx|by apply Hsy].
Defined.

End RasteredImageFacts.

(** * More properties of RecentLines *)

Module RecentLinesMore.

Import RecentLines RecentLinesFacts.

(** ** What the eviction pass takes out *)

Lemma evict_zero pin l : evict 0 pin l = l.
Proof. by destruct l. Qed.

(** Evicting one more run is evicting the first unpinned one. *)
Lemma evict_first_unpinned pin (l : list uid) j r k :
  (∀ i a, i < j → l !! i = Some a → a ∈ pin) →
  l !! j = Some r → r ∉ pin →
  evict (S k) pin l = evict k pin (delete j l).
Proof.
  revert j. induction l as [|a l IH]; intros j Hbefore Hj Hr; [done|].
  destruct j as [|j]; simpl in Hj.
  - injection Hj as ->. simpl. by rewrite decide_False.
  - assert (a ∈ pin) as Ha by (apply (Hbefore 0); [lia|done]).
    simpl. rewrite decide_True by done.
    rewrite (IH j); [|intros i b Hi Hb; apply (Hbefore (S i)); [lia|done]|done|done].
    destruct k; [by rewrite evict_zero|]. by rewrite decide_True.
Qed.

Lemma on_run_removed_unpinned r s :
  r ∉ pinned s → pinned (fst (_on_run_removed r s)) = pinned s.
Proof. intros Hr. rewrite on_run_removed_pinned. set_solver. Qed.

(** However the loop ends, the pins are as before and the runs that went
    are the first unpinned ones. *)
Lemma cull_loop_evict fuel i s :
  (∀ k a, k < i → runs s !! k = Some a → a ∈ pinned s) →
  pinned (fst (cull_loop fuel i s)) = pinned s ∧
  ∃ k, runs (fst (cull_loop fuel i s)) = evict k (pinned s) (runs s) ∧
       length (runs (fst (cull_loop fuel i s))) + k = length (runs s).
Proof.
  revert i s. induction fuel as [|fuel IH]; intros i s Hpre; simpl.
  - destruct (over_capacity s); (split; [done|]); exists 0;
      by rewrite evict_zero, Nat.add_0_r.
  - destruct (over_capacity s);
      [|split; [done|]; exists 0; by rewrite evict_zero, Nat.add_0_r].
    destruct (skip_pinned _ _ _) as [j|] eqn:Hs;
      [|split; [done|]; exists 0; by rewrite evict_zero, Nat.add_0_r].
    destruct (skip_pinned_spec _ _ _ _ Hs) as (r & Hr & Hp & Hle & Hbetween).
    rewrite lookup_drop in Hr. replace (i + (j - i)) with j in Hr by lia.
    rewrite Hr, andThen_fst.
    assert (∀ k a, k < j → runs s !! k = Some a → a ∈ pinned s) as Hpre'.
    { intros k a Hk Ha. destruct (decide (k < i)) as [Hki|Hki]; [by eapply Hpre|].
      apply (Hbetween (k - i)); [lia|].
      rewrite lookup_drop. by replace (i + (k - i)) with k by lia. }
    set (s1 := set_runs (delete j (runs s)) s).
    pose proof (on_run_removed_runs r s1) as Hr1.
    pose proof (on_run_removed_unpinned r s1 Hp) as Hp1.
    simpl in Hr1, Hp1.
    assert (length (delete j (runs s)) + 1 = length (runs s)) as Hlen.
    { rewrite length_delete by eauto. apply lookup_lt_Some in Hr. lia. }
    destruct (is_ok _).
    + destruct (IH j (fst (_on_run_removed r s1))) as (Hp2 & k & Hk & Hklen).
      { rewrite Hr1, Hp1. intros k a Hk Ha.
        rewrite list_lookup_delete_lt in Ha by done. by eapply Hpre'. }
      rewrite Hp2, Hp1. split; [done|].
      exists (S k). split.
      * rewrite Hk, Hp1, Hr1. by rewrite (evict_first_unpinned _ _ j r).
      * rewrite Hr1 in Hklen. lia.
    + rewrite Hp1, Hr1. split; [done|].
      exists 1. split; [|lia].
      by rewrite (evict_first_unpinned _ _ j r), evict_zero.
Qed.

(** When the loop returns, the registry is as long as the capacity allows. *)
Lemma cull_loop_length fuel i s :
  (∀ k a, k < i → runs s !! k = Some a → a ∈ pinned s) →
  snd (cull_loop fuel i s) = Ok tt →
  Z.of_nat (length (runs (fst (cull_loop fuel i s)))) =
  Z.min (Z.of_nat (length (runs s)))
        (max_runs s + Z.of_nat (size (pinned s))).
Proof.
  revert i s. induction fuel as [|fuel IH]; intros i s Hpre; simpl.
  - destruct (over_capacity s) eqn:Hc; [done|]. intros _. simpl.
    unfold over_capacity in Hc. apply Z.ltb_ge in Hc. lia.
  - destruct (over_capacity s) eqn:Hc.
    2:{ intros _. simpl. unfold over_capacity in Hc. apply Z.ltb_ge in Hc. lia. }
    destruct (skip_pinned _ _ _) as [j|] eqn:Hs; [|done].
    destruct (skip_pinned_spec _ _ _ _ Hs) as (r & Hr & Hp & Hle & Hbetween).
    rewrite lookup_drop in Hr. replace (i + (j - i)) with j in Hr by lia.
    rewrite Hr.
    set (s1 := set_runs (delete j (runs s)) s).
    pose proof (andThen_ok (_on_run_removed r) (cull_loop fuel j) s1) as Hok.
    pose proof (andThen_fst (_on_run_removed r) (cull_loop fuel j) s1) as Hfst.
    intros Hres. apply Hok in Hres as [Hrm Hrest].
    rewrite Hfst, Hrm. simpl.
    pose proof (on_run_removed_runs r s1) as Hr1.
    pose proof (on_run_removed_unpinned r s1 Hp) as Hp1.
    pose proof (on_run_removed_max_runs r s1) as Hm1.
    simpl in Hr1, Hp1, Hm1.
    rewrite (IH j _); [|rewrite Hr1, Hp1|done].
    + rewrite Hr1, Hp1, Hm1, length_delete by eauto.
      apply lookup_lt_Some in Hr.
      unfold over_capacity in Hc. apply Z.ltb_lt in Hc. lia.
    + intros k a Hk Ha. rewrite list_lookup_delete_lt in Ha by done.
      destruct (decide (k < i)) as [Hki|Hki]; [by eapply Hpre|].
      apply (Hbetween (k - i)); [lia|].
      rewrite lookup_drop. by replace (i + (k - i)) with k by lia.
Qed.

(** X1. When [_cull_runs] returns, the pins are as they were and the
    registry is the old one without its first [n] unpinned runs, where [n]
    is the number of runs over capacity: the oldest unpinned runs go, the
    others keep their order, and the registry is within capacity. *)
Theorem cull_runs_evicts_oldest_unpinned (s : State) :
  snd (_cull_runs s) = Ok tt →
  let n := Z.to_nat (Z.of_nat (length (runs s))
                     - (max_runs s + Z.of_nat (size (pinned s)))) in
  pinned (fst (_cull_runs s)) = pinned s ∧
  runs (fst (_cull_runs s)) = evict n (pinned s) (runs s) ∧
  within_capacity (fst (_cull_runs s)).
Proof.
  intros Hok. cbv zeta. unfold _cull_runs in *.
  destruct (cull_loop_evict (S (length (runs s))) 0 s) as (Hp & k & Hk & Hlen);
    [intros k a Hk; lia|].
  pose proof (cull_loop_length (S (length (runs s))) 0 s) as Hmin.
  specialize (Hmin ltac:(intros k' a Hk'; lia) Hok).
  pose proof (cull_loop_capacity _ _ _ Hok) as Hcap.
  unfold over_capacity in Hcap. apply Z.ltb_ge in Hcap.
  split_and!; [done| |exact Hcap].
  rewrite Hk. f_equal. lia.
Qed.

Lemma cull_runs_evicts_oldest_unpinned_witness :
  let s := set_max_runs_field 1
             (exec [AddRun "a" false; AddRun "b" true; AddRun "c" false;
                    AddRun "d" false] (fresh 5 one_y some_runs)) in
  snd (_cull_runs s) = Ok tt ∧
  runs s = ["a"; "b"; "c"; "d"] ∧
  runs (fst (_cull_runs s)) = ["b"; "d"] ∧
  within_capacity (fst (_cull_runs s)).
Proof.
  cbv zeta. split_and!; [by vm_compute|by vm_compute|by vm_compute|].
  apply (cull_runs_evicts_oldest_unpinned
           (set_max_runs_field 1
              (exec [AddRun "a" false; AddRun "b" true; AddRun "c" false;
                     AddRun "d" false] (fresh 5 one_y some_runs)))).
  by vm_compute.
Defined.

(** ** The capacity, call by call *)

Lemma within_capacity_ext s s' :
  runs s' = runs s → pinned s' = pinned s → max_runs s' = max_runs s →
  within_capacity s → within_capacity s'.
Proof. unfold within_capacity. by intros -> -> ->. Qed.

Lemma add_lines_pinned r s : pinned (fst (_add_lines r s)) = pinned s.
Proof.
  unfold _add_lines. rewrite andThen_fst.
  destruct (cull_loop_evict (S (length (runs s))) 0 s) as [Hp _];
    [intros k a Hk; lia|].
  fold (_cull_runs s) in Hp.
  destruct (is_ok _); [|done]. simpl.
  destruct (add_lines_loop_registry r (ys (conf (fst (_cull_runs s))))
              (fst (_cull_runs s))) as (_ & -> & _). done.
Qed.

Lemma add_lines_within r s :
  snd (_add_lines r s) = Ok tt → within_capacity (fst (_add_lines r s)).
Proof.
  unfold _add_lines. intros Hok. pose proof Hok as Hok'.
  apply andThen_ok in Hok' as [Hcull _].
  rewrite andThen_fst, Hcull. simpl.
  destruct (add_lines_loop_registry r (ys (conf (fst (_cull_runs s))))
              (fst (_cull_runs s))) as (Hr & Hp & Hc & Hm).
  apply (within_capacity_ext (fst (_cull_runs s))); [done..|].
  pose proof (cull_loop_capacity _ _ _ Hcull) as Hcap.
  unfold over_capacity in Hcap. by apply Z.ltb_ge in Hcap.
Qed.

Lemma length_remove_first (l : list uid) r :
  r ∈ l → length (remove_first (is_run r) l) + 1 = length l.
Proof.
  induction l as [|a l IH]; intros Hin; [by apply elem_of_nil in Hin|].
  simpl. unfold is_run at 1. case_bool_decide as Ha; [lia|].
  simpl. rewrite <- IH; [lia|]. set_solver.
Qed.

Lemma size_without (X : gset uid) r : size X ≤ size (X ∖ {[r]}) + 1.
Proof.
  transitivity (size ((X ∖ {[r]}) ∪ {[r]})).
  - apply subseteq_size. intros x Hx.
    destruct (decide (x = r)); set_solver.
  - rewrite size_union_alt.
    pose proof (subseteq_size ({[r]} ∖ (X ∖ {[r]})) ({[r]} : gset uid)) as Hs.
    rewrite size_singleton in Hs. specialize (Hs ltac:(set_solver)). lia.
Qed.

Lemma recolor_line_max_runs s u : max_runs (recolor_line s u) = max_runs s.
Proof. unfold recolor_line. by destruct (by_uuid _ _). Qed.

Lemma on_run_complete_max_runs r s :
  max_runs (fst (_on_run_complete r s)) = max_runs s.
Proof.
  unfold _on_run_complete. simpl.
  set (s1 := set_runs_to_lines _ s). change (max_runs s) with (max_runs s1).
  apply (foldl_invariant (λ s', max_runs s' = max_runs s1)); [|done].
  intros a b Ha. by rewrite recolor_line_max_runs.
Qed.

(** X2. A call that returns leaves the registry within capacity if it was
    within capacity before, unless the call adds a run whose required
    streams are not all there yet. *)
Theorem capacity_kept_by_returning_calls (o : op) (s : State) :
  within_capacity s →
  ¬ deferred_add o s →
  snd (step o s) = Ok tt →
  within_capacity (fst (step o s)).
Proof.
  intros Hin Hnot Hok. destruct o as [r pin|r|v|r name|r]; simpl in *.
  - unfold add_run, _on_run_added in *.
    set (s1 := set_runs _ _) in *.
    assert (streams_ready r s1 = streams_ready r s) as Hrd by (by destruct pin).
    rewrite Hrd in *.
    destruct (streams_ready r s) eqn:Hready; [by apply add_lines_within|].
    exfalso. apply Hnot. by exists r, pin.
  - unfold discard_run in *. destruct (decide (r ∈ runs s)) as [Hr|]; [|done].
    unfold within_capacity in *.
    rewrite on_run_removed_runs, on_run_removed_pinned, on_run_removed_max_runs.
    simpl. pose proof (length_remove_first _ _ Hr). pose proof (size_without (pinned s) r).
    lia.
  - unfold set_max_runs in *.
    pose proof (cull_loop_capacity _ _ _ Hok) as Hcap.
    unfold over_capacity in Hcap. by apply Z.ltb_ge in Hcap.
  - unfold fire_new_stream, _on_new_stream in *.
    destruct (new_stream_cb _); [|done].
    destruct (streams_ready _ _); [|done].
    pose proof Hok as Hok'. apply andThen_ok in Hok' as [Hadd _].
    rewrite andThen_fst, Hadd. simpl.
    apply (within_capacity_ext (fst (_add_lines r (stream_arrives r name s))));
      [done..|]. by apply add_lines_within.
  - unfold fire_completed in *. destruct (completed_cb _); [|done].
    destruct (on_run_complete_registry r (run_completes r s)) as [Hr Hp].
    apply (within_capacity_ext (run_completes r s));
      [done|done|apply on_run_complete_max_runs|done].
Qed.

Lemma capacity_kept_by_returning_calls_witness :
  let s := exec [AddRun "a" false; AddRun "b" true] (fresh 1 one_y some_runs) in
  within_capacity s ∧ ¬ deferred_add (AddRun "c" false) s ∧
  snd (step (AddRun "c" false) s) = Ok tt ∧
  within_capacity (fst (step (AddRun "c" false) s)).
Proof.
  cbv zeta.
  assert (within_capacity
            (exec [AddRun "a" false; AddRun "b" true] (fresh 1 one_y some_runs)))
    as Hin by (by vm_compute).
  assert (¬ deferred_add (AddRun "c" false)
            (exec [AddRun "a" false; AddRun "b" true] (fresh 1 one_y some_runs)))
    as Hnot.
  { intros (r & pin & [= <- <-] & Hr). vm_compute in Hr. discriminate. }
  split_and!; [exact Hin|exact Hnot|by vm_compute|].
  apply capacity_kept_by_returning_calls; [exact Hin|exact Hnot|by vm_compute].
Defined.

(** ** Pins are pins of tracked runs *)

Lemma step_pinned o s u :
  u ∈ pinned (fst (step o s)) →
  (u ∈ pinned s ∧ ¬ (o = DiscardRun u ∧ u ∈ runs s)) ∨ o = AddRun u true.
Proof.
  destruct o as [r pin|r|v|r name|r]; simpl.
  - unfold add_run, _on_run_added. set (s1 := set_runs _ _).
    assert (u ∈ pinned s1 → (u ∈ pinned s ∧
              ¬ (AddRun r pin = DiscardRun u ∧ u ∈ runs s)) ∨ AddRun r pin = AddRun u true)
      as Hs1.
    { subst s1. destruct pin; simpl; [|naive_solver].
      intros [Hu|Hu]%elem_of_union; [naive_solver|].
      apply elem_of_singleton in Hu as ->. by right. }
    destruct (streams_ready _ _); [|done]. by rewrite add_lines_pinned.
  - unfold discard_run. destruct (decide (r ∈ runs s)) as [Hr|Hr].
    + rewrite on_run_removed_pinned. simpl. intros Hu. left.
      split; [set_solver|]. intros [[= ->] _]. set_solver.
    + intros Hu. left. split; [done|]. intros [[= ->] ?]. done.
  - unfold set_max_runs, _cull_runs.
    destruct (cull_loop_evict (S (length (runs (set_max_runs_field v s)))) 0
                (set_max_runs_field v s)) as [-> _]; [intros k a Hk; lia|].
    naive_solver.
  - unfold fire_new_stream, _on_new_stream.
    destruct (new_stream_cb _); [|naive_solver].
    destruct (streams_ready _ _); [|naive_solver].
    rewrite andThen_fst. destruct (is_ok _); simpl;
      rewrite add_lines_pinned; naive_solver.
  - unfold fire_completed. destruct (completed_cb _); [|naive_solver].
    destruct (on_run_complete_registry r (run_completes r s)) as [_ ->].
    naive_solver.
Qed.

Lemma step_pins_tracked o s : pins_tracked s → pins_tracked (fst (step o s)).
Proof.
  intros Htr u Hu. destruct (step_pinned o s u Hu) as [[Hp Hno]| ->].
  - assert (kept u s) as Hk by (split; [done|by apply Htr]).
    assert (o ≠ DiscardRun u) as Hne.
    { intros ->. apply Hno. split; [done|by apply Htr]. }
    by destruct (step_kept o u s Hne Hk).
  - by destruct (add_run_pinned_kept u s).
Qed.

(** X3. Every pinned uid is the uid of a run in the registry, after any
    sequence of calls made from a state in which this holds, whether the
    calls return or raise. *)
Theorem pins_are_tracked (os : list op) (s : State) :
  pins_tracked s → pins_tracked (exec os s).
Proof.
  revert s. induction os as [|o os IH]; intros s Htr; simpl; [done|].
  apply IH. by apply step_pins_tracked.
Qed.

Lemma pins_are_tracked_witness :
  let os := [AddRun "a" true; AddRun "w1" true; DiscardRun "w1";
             AddRun "b" false; SetMaxRuns 0; DiscardRun "a"] in
  pins_tracked (fresh 1 one_y some_runs) ∧
  pins_tracked (exec os (fresh 1 one_y some_runs)).
Proof.
  cbv zeta.
  assert (pins_tracked (fresh 1 one_y some_runs)) as H0
    by (intros u Hu; simpl in Hu; by apply not_elem_of_empty in Hu).
  split; [exact H0|]. by apply pins_are_tracked.
Defined.

(** ** The lines of a run, one by one *)

Lemma add_line_closed r s y :
  lines (add_line r s y) = lines s ++ [new_line r s 0 y] ∧
  color_cycle (add_line r s y) =
    color_cycle s + (if live (heap s r) then 0 else 1) ∧
  next_uuid (add_line r s y) = S (next_uuid s) ∧
  runs_to_lines (add_line r s y) =
    <[ r := default ∅ (runs_to_lines s !! r) ∪ {[ next_uuid s ]} ]> (runs_to_lines s).
Proof.
  unfold new_line, add_line. rewrite !Nat.add_0_r.
  destruct (live (heap s r)); simpl; destruct (decide (r ∈ pinned s)); simpl;
    split_and!; try done; lia.
Qed.

Lemma new_line_shift r s y k y' :
  new_line r (add_line r s y) k y' = new_line r s (S k) y'.
Proof.
  unfold new_line.
  destruct (add_line_closed r s y) as (_ & Hcc & Hn & _).
  rewrite add_line_live, add_line_pinned, add_line_conf, Hcc, Hn.
  replace (S (next_uuid s) + k) with (next_uuid s + S k) by lia.
  destruct (live (heap s r)); [done|].
  by replace (color_cycle s + 1 + k) with (color_cycle s + S k) by lia.
Qed.

(** The loop over [ys], in closed form. *)
Lemma add_lines_loop_closed r ys s :
  lines (foldl (add_line r) s ys) = lines s ++ imap (new_line r s) ys ∧
  color_cycle (foldl (add_line r) s ys) =
    color_cycle s + (if live (heap s r) then 0 else length ys) ∧
  next_uuid (foldl (add_line r) s ys) = next_uuid s + length ys.
Proof.
  revert s. induction ys as [|y ys IH]; intros s; simpl.
  - rewrite app_nil_r. split_and!; [done| |lia].
    destruct (live (heap s r)); lia.
  - destruct (IH (add_line r s y)) as (Hl & Hcc & Hn).
    destruct (add_line_closed r s y) as (Hl1 & Hcc1 & Hn1 & _).
    rewrite Hl, Hcc, Hn, Hl1, Hcc1, Hn1, add_line_live, <- app_assoc.
    split_and!.
    + f_equal. simpl. f_equal. apply imap_ext. intros k y' _. simpl.
      apply new_line_shift.
    + destruct (live (heap s r)); lia.
    + lia.
Qed.

Lemma on_run_removed_next_uuid r s :
  next_uuid (fst (_on_run_removed r s)) = next_uuid s.
Proof. unfold _on_run_removed; simpl. by destruct (runs_to_lines s !! r). Qed.

(** The eviction pass draws no colour and hands out no line id. *)
Lemma cull_loop_counters fuel i s :
  color_cycle (fst (cull_loop fuel i s)) = color_cycle s ∧
  next_uuid (fst (cull_loop fuel i s)) = next_uuid s.
Proof.
  revert i s. induction fuel as [|fuel IH]; intros i s; simpl.
  - by destruct (over_capacity s).
  - destruct (over_capacity s); [|done].
    destruct (skip_pinned _ _ _) as [j|]; [|done].
    destruct (runs s !! j) as [r|]; [|done].
    rewrite andThen_fst. set (s1 := set_runs _ s).
    destruct (is_ok _).
    + destruct (IH j (fst (_on_run_removed r s1))) as [-> ->].
      by rewrite on_run_removed_color_cycle, on_run_removed_next_uuid.
    + by rewrite on_run_removed_color_cycle, on_run_removed_next_uuid.
Qed.

(** X4. When [_add_lines] returns for a run [r], the axes hold the lines
    that the eviction pass left, followed by one new line per y expression
    in the order of [ys]. The [k]-th new line is for [r], is labelled by the
    label maker, with " (pinned)" appended and a dashed line style exactly
    when [r] is pinned, and is black when [r] is live and not completed and
    has the [k]-th next colour of the cycle otherwise. The cycle has advanced
    by [len(ys)] for a run that is not live and not at all for a live run. *)
Theorem add_lines_creates (r : uid) (s : State) :
  snd (_add_lines r s) = Ok tt →
  lines (fst (_add_lines r s)) =
    lines (fst (_cull_runs s)) ++ imap (new_line r s) (ys (conf s)) ∧
  color_cycle (fst (_add_lines r s)) =
    color_cycle s + (if live (heap s r) then 0 else length (ys (conf s))) ∧
  ∀ k y, ys (conf s) !! k = Some y →
    line_run (new_line r s k y) = r ∧
    label (new_line r s k y) =
      (if decide (r ∈ pinned s)
       then (label_maker (conf s) r y ++ " (pinned)")%string
       else label_maker (conf s) r y) ∧
    style (new_line r s k y) !! "linestyle" =
      (if decide (r ∈ pinned s) then Some "dashed" else None) ∧
    style (new_line r s k y) !! "color" =
      Some (if live (heap s r) then black else cycle_color (color_cycle s + k)).
Proof.
  intros Hok. apply andThen_ok in Hok as [Hcull _].
  rewrite add_lines_ok by done. simpl.
  destruct (cull_loop_settings (S (length (runs s))) 0 s) as [[Hc _] Hh].
  destruct (cull_loop_counters (S (length (runs s))) 0 s) as [Hcc Hn].
  destruct (cull_loop_evict (S (length (runs s))) 0 s) as [Hp _];
    [intros k a Hk; lia|].
  fold (_cull_runs s) in Hc, Hh, Hcc, Hn, Hp.
  destruct (add_lines_loop_closed r (ys (conf s)) (fst (_cull_runs s)))
    as (Hl & Hcy & _).
  assert (∀ k y, new_line r (fst (_cull_runs s)) k y = new_line r s k y) as Hnew.
  { intros k y. unfold new_line. by rewrite Hh, Hcc, Hn, Hp, Hc. }
  split_and!.
  - rewrite Hl. f_equal. apply imap_ext. intros k y _. apply Hnew.
  - by rewrite Hcy, Hcc, Hh.
  - intros k y _. unfold new_line. simpl.
    destruct (decide (r ∈ pinned s)); simpl; split_and!; try done;
      repeat first [ rewrite lookup_insert_eq
                   | rewrite lookup_insert_ne by done
                   | rewrite lookup_singleton_eq
                   | rewrite lookup_singleton_ne by done ]; done.
Qed.

Lemma add_lines_creates_witness :
  let s := fst (add_run "a" false (fresh 3 two_ys some_runs)) in
  snd (_add_lines "b" (set_pinned {[ "b" ]} s)) = Ok tt ∧
  map (λ l, (label l, style l !! "color", style l !! "linestyle"))
      (lines (fst (_add_lines "b" (set_pinned {[ "b" ]} s)))) =
    [("Scan ?", Some "C0", None); ("Scan ?", Some "C1", None);
     ("Scan ? (pinned)", Some "C2", Some "dashed");
     ("Scan ? (pinned)", Some "C3", Some "dashed")] ∧
  color_cycle (fst (_add_lines "b" (set_pinned {[ "b" ]} s))) = color_cycle s + 2.
Proof.
  cbv zeta. split_and!; [by vm_compute|by vm_compute|].
  pose proof (add_lines_creates "b"
                (set_pinned {[ "b" ]}
                   (fst (add_run "a" false (fresh 3 two_ys some_runs)))))
    as H.
  destruct H as (_ & Hcc & _); [by vm_compute|]. exact Hcc.
Defined.

(** ** Lines and index in lock step *)

Lemma lock_step_ext s s' :
  lines s' = lines s → runs_to_lines s' = runs_to_lines s →
  next_uuid s' = next_uuid s → lock_step s → lock_step s'.
Proof.
  intros Hl Hi Hn [Hd Hk Hik Hli Hio].
  constructor; rewrite ?Hl, ?Hi, ?Hn; done.
Qed.

Lemma filter_ext_in {A} (P Q : A → Prop) `{∀ x, Decision (P x)}
    `{∀ x, Decision (Q x)} (l : list A) :
  (∀ x, x ∈ l → P x ↔ Q x) → filter P l = filter Q l.
Proof.
  induction l as [|a l IH]; intros Hext; [done|].
  rewrite !filter_cons.
  rewrite IH by (intros x Hx; apply Hext; by right).
  destruct (decide (P a)) as [Hp|Hp], (decide (Q a)) as [Hq|Hq]; try done;
    exfalso; apply (Hext a) in Hp || apply (Hext a) in Hq; try done; by left.
Qed.

Lemma filter_all {A} (P : A → Prop) `{∀ x, Decision (P x)} (l : list A) :
  (∀ x, x ∈ l → P x) → filter P l = l.
Proof.
  induction l as [|a l IH]; intros Hall; [done|].
  rewrite filter_cons_True by (apply Hall; left).
  rewrite IH; [done|]. intros x Hx. apply Hall. by right.
Qed.

Lemma NoDup_fmap_filter {A B} (f : A → B) (P : A → Prop)
    `{∀ x, Decision (P x)} (l : list A) :
  NoDup (f <$> l) → NoDup (f <$> filter P l).
Proof.
  induction l as [|a l IH]; [done|].
  rewrite fmap_cons, NoDup_cons. intros [Ha Hnd].
  rewrite filter_cons. destruct (decide (P a)); [|by apply IH].
  rewrite fmap_cons, NoDup_cons. split; [|by apply IH].
  intros Hin. apply Ha. apply list_elem_of_fmap in Hin as (x & -> & Hx).
  apply list_elem_of_filter in Hx as [_ Hx]. by apply list_elem_of_fmap_2.
Qed.

(** With distinct line ids, taking the line of id [u] out is filtering. *)
Lemma remove_line_filter ls u :
  NoDup (uuid <$> ls) → remove_line ls u = filter (λ l, uuid l ≠ u) ls.
Proof.
  unfold remove_line, by_uuid.
  induction ls as [|a ls IH]; [done|].
  rewrite fmap_cons, NoDup_cons. intros [Ha Hnd]. simpl.
  unfold has_uuid at 1 3. case_bool_decide as Hu.
  - rewrite filter_cons_False by (by intros ?).
    symmetry. apply filter_all. intros x Hx Hxu.
    apply Ha. rewrite Hu, <- Hxu. by apply list_elem_of_fmap_2.
  - rewrite filter_cons_True by done. specialize (IH Hnd).
    destruct (find (has_uuid u) ls); by rewrite <- IH.
Qed.

Lemma remove_lines_filter us ls :
  NoDup (uuid <$> ls) →
  foldl remove_line ls us = filter (λ l, uuid l ∉ us) ls.
Proof.
  revert ls. induction us as [|u us IH]; intros ls Hnd; simpl.
  - symmetry. apply filter_all. intros x _. apply not_elem_of_nil.
  - rewrite remove_line_filter by done.
    rewrite IH by (by apply NoDup_fmap_filter).
    rewrite list_filter_filter. apply filter_ext_in.
    intros x _. rewrite not_elem_of_cons. naive_solver.
Qed.

(** In lock step, [_on_run_removed] leaves exactly the lines of the other
    runs. *)
Lemma on_run_removed_lines r s :
  lock_step s →
  lines (fst (_on_run_removed r s)) = filter (λ l, line_run l ≠ r) (lines s).
Proof.
  intros [Hd Hk Hik Hli Hio]. unfold _on_run_removed. simpl.
  destruct (runs_to_lines s !! r) as [ids|] eqn:Hids; simpl.
  - rewrite remove_lines_filter by done. apply filter_ext_in.
    intros l Hl. rewrite elem_of_elements. split.
    + intros Hnot Hrun. apply Hnot.
      destruct (Hli l Hl) as (ids' & Hids' & Hu). congruence.
    + intros Hrun Hu. apply Hrun. by eapply Hio.
  - symmetry. apply filter_all. intros l Hl Hrun.
    destruct (Hli l Hl) as (ids' & Hids' & _). congruence.
Qed.

Lemma on_run_removed_lock_step r s :
  lock_step s → lock_step (fst (_on_run_removed r s)).
Proof.
  intros Hls. pose proof (on_run_removed_lines r s Hls) as Hlines.
  destruct Hls as [Hd Hk Hik Hli Hio].
  assert (next_uuid (fst (_on_run_removed r s)) = next_uuid s) as Hn
    by apply on_run_removed_next_uuid.
  assert (∀ r' ids, runs_to_lines (fst (_on_run_removed r s)) !! r' = Some ids →
                    runs_to_lines s !! r' = Some ids ∧
                    (r' = r → runs_to_lines s !! r = None)) as Hidx.
  { unfold _on_run_removed. simpl.
    destruct (runs_to_lines s !! r) as [ids0|] eqn:Hids; simpl.
    - intros r' ids Hl. apply lookup_delete_Some in Hl as [Hne Hl].
      split; [done|]. by intros ->.
    - intros r' ids Hl. split; [done|]. by intros ->. }
  assert (∀ r' ids, r' ≠ r → runs_to_lines s !! r' = Some ids →
                    runs_to_lines (fst (_on_run_removed r s)) !! r' = Some ids)
    as Hidx'.
  { unfold _on_run_removed. simpl. intros r' ids Hne Hl.
    destruct (runs_to_lines s !! r) as [ids0|] eqn:Hids; simpl; [|done].
    by rewrite lookup_delete_ne. }
  constructor; rewrite ?Hlines, ?Hn.
  - by apply NoDup_fmap_filter.
  - intros l [_ Hl]%list_elem_of_filter. by apply Hk.
  - intros r' ids u [Hl _]%Hidx Hu. by eapply Hik.
  - intros l [Hrun Hl]%list_elem_of_filter.
    destruct (Hli l Hl) as (ids & Hids & Hu). exists ids. split; [|done].
    by apply Hidx'.
  - intros r' ids l [Hl _]%Hidx [_ Hin]%list_elem_of_filter Hu. by eapply Hio.
Qed.

Lemma add_line_lock_step r s y : lock_step s → lock_step (add_line r s y).
Proof.
  intros [Hd Hk Hik Hli Hio].
  destruct (add_line_closed r s y) as (Hl & _ & Hn & Hi).
  assert (uuid (new_line r s 0 y) = next_uuid s) as Hnu
    by (simpl; lia).
  assert (line_run (new_line r s 0 y) = r) as Hnr by done.
  constructor; rewrite ?Hl, ?Hn, ?Hi.
  - rewrite fmap_app, NoDup_app. split_and!; [done| |apply NoDup_singleton].
    intros u Hu Hu'. simpl in Hu'. apply list_elem_of_singleton in Hu'.
    apply list_elem_of_fmap in Hu as (l & -> & Hl').
    apply Hk in Hl'. lia.
  - intros l [Hl'|Hl']%elem_of_app; [apply Hk in Hl'; lia|].
    apply list_elem_of_singleton in Hl' as ->. lia.
  - intros r' ids u Hl' Hu. destruct (decide (r' = r)) as [->|Hne].
    + rewrite lookup_insert_eq in Hl'. injection Hl' as <-.
      apply elem_of_union in Hu as [Hu|Hu]; [|set_solver by lia].
      destruct (runs_to_lines s !! r) as [ids0|] eqn:Hids; simpl in Hu;
        [|set_solver].
      specialize (Hik r ids0 u Hids Hu). lia.
    + rewrite lookup_insert_ne in Hl' by done.
      specialize (Hik r' ids u Hl' Hu). lia.
  - intros l [Hl'|Hl']%elem_of_app.
    + destruct (Hli l Hl') as (ids & Hids & Hu).
      destruct (decide (line_run l = r)) as [Hr|Hne].
      * rewrite Hr in *. rewrite lookup_insert_eq. eexists. split; [done|].
        rewrite Hids. simpl. set_solver.
      * rewrite lookup_insert_ne by done. eauto.
    + apply list_elem_of_singleton in Hl' as ->. rewrite Hnr, Hnu.
      rewrite lookup_insert_eq. eexists. split; [done|]. set_solver.
  - intros r' ids l Hl' Hin Hu.
    apply elem_of_app in Hin as [Hin|Hin].
    + destruct (decide (r' = r)) as [->|Hne].
      * rewrite lookup_insert_eq in Hl'. injection Hl' as <-.
        apply elem_of_union in Hu as [Hu|Hu].
        -- destruct (runs_to_lines s !! r) as [ids0|] eqn:Hids; simpl in Hu;
             [|set_solver]. by eapply Hio.
        -- apply elem_of_singleton in Hu. apply Hk in Hin. lia.
      * rewrite lookup_insert_ne in Hl' by done. by eapply Hio.
    + apply list_elem_of_singleton in Hin as ->. rewrite Hnu in Hu.
      destruct (decide (r' = r)) as [->|Hne]; [done|].
      rewrite lookup_insert_ne in Hl' by done.
      specialize (Hik r' ids _ Hl' Hu). lia.
Qed.

Lemma recolor_line_origin s u l' :
  l' ∈ lines (recolor_line s u) →
  ∃ l, l ∈ lines s ∧ uuid l' = uuid l ∧ line_run l' = line_run l.
Proof.
  unfold recolor_line. destruct (by_uuid _ _) as [l0|]; [|by eauto].
  simpl. intros (l & -> & Hl)%list_elem_of_fmap.
  exists l. by destruct (has_uuid u l).
Qed.

Lemma recolor_line_lock_step s u : lock_step s → lock_step (recolor_line s u).
Proof.
  intros [Hd Hk Hik Hli Hio].
  destruct (recolor_line_spec s u) as (Hids & _). simpl in Hids.
  assert (runs_to_lines (recolor_line s u) = runs_to_lines s ∧
          next_uuid (recolor_line s u) = next_uuid s) as [Hi Hn]
    by (unfold recolor_line; by destruct (by_uuid _ _)).
  constructor; rewrite ?Hids, ?Hi, ?Hn; [done|..].
  - intros l' (l & Hl & -> & _)%recolor_line_origin. by apply Hk.
  - done.
  - intros l' (l & Hl & -> & ->)%recolor_line_origin. by apply Hli.
  - intros r ids l' Hr (l & Hl & -> & ->)%recolor_line_origin. by apply Hio.
Qed.

Lemma cull_loop_lock_step fuel i s :
  lock_step s → lock_step (fst (cull_loop fuel i s)).
Proof.
  revert i s. induction fuel as [|fuel IH]; intros i s Hls; simpl.
  - by destruct (over_capacity s).
  - destruct (over_capacity s); [|done].
    destruct (skip_pinned _ _ _) as [j|]; [|done].
    destruct (runs s !! j) as [r|]; [|done].
    rewrite andThen_fst. set (s1 := set_runs _ s).
    assert (lock_step (fst (_on_run_removed r s1))) as Hls1
      by (apply on_run_removed_lock_step; by apply (lock_step_ext s)).
    destruct (is_ok _); [by apply IH|done].
Qed.

Lemma add_lines_lock_step r s : lock_step s → lock_step (fst (_add_lines r s)).
Proof.
  intros Hls. unfold _add_lines. rewrite andThen_fst.
  assert (lock_step (fst (_cull_runs s))) as Hc by (by apply cull_loop_lock_step).
  destruct (is_ok _); [|done]. simpl.
  apply foldl_invariant; [|done]. intros a y. apply add_line_lock_step.
Qed.

Lemma step_lock_step o s : lock_step s → lock_step (fst (step o s)).
Proof.
  intros Hls. destruct o as [r pin|r|v|r name|r]; simpl.
  - unfold add_run, _on_run_added. set (s1 := set_runs _ _).
    assert (lock_step s1) as Hls1
      by (apply (lock_step_ext s); [by destruct pin..|done]).
    destruct (streams_ready _ _); [by apply add_lines_lock_step|].
    by apply (lock_step_ext s1).
  - unfold discard_run. destruct (decide _); [|done].
    apply on_run_removed_lock_step. by apply (lock_step_ext s).
  - unfold set_max_runs, _cull_runs. apply cull_loop_lock_step.
    by apply (lock_step_ext s).
  - unfold fire_new_stream, _on_new_stream.
    assert (lock_step (stream_arrives r name s)) as Hls1
      by (by apply (lock_step_ext s)).
    destruct (new_stream_cb _); [|done].
    destruct (streams_ready _ _); [|done].
    rewrite andThen_fst.
    assert (lock_step (fst (_add_lines r (stream_arrives r name s)))) as Hls2
      by (by apply add_lines_lock_step).
    destruct (is_ok _); [|done]. simpl.
    by apply (lock_step_ext (fst (_add_lines r (stream_arrives r name s)))).
  - unfold fire_completed.
    assert (lock_step (run_completes r s)) as Hls1
      by (by apply (lock_step_ext s)).
    destruct (completed_cb _); [|done].
    unfold _on_run_complete. simpl.
    apply foldl_invariant; [intros a b; apply recolor_line_lock_step|].
    destruct Hls as [Hd Hk Hik Hli Hio].
    constructor; simpl; [done|done|..].
    + intros r' ids u Hl Hu. destruct (decide (r' = r)) as [->|Hne].
      * rewrite lookup_insert_eq in Hl. injection Hl as <-.
        destruct (runs_to_lines s !! r) as [ids0|] eqn:Hids; simpl in Hu;
          [by eapply Hik|set_solver].
      * rewrite lookup_insert_ne in Hl by done. by eapply Hik.
    + intros l Hl. destruct (Hli l Hl) as (ids & Hids & Hu).
      destruct (decide (line_run l = r)) as [Hr|Hne].
      * rewrite Hr in *. rewrite lookup_insert_eq, Hids. eauto.
      * rewrite lookup_insert_ne by done. eauto.
    + intros r' ids l Hl Hin Hu. destruct (decide (r' = r)) as [->|Hne].
      * rewrite lookup_insert_eq in Hl. injection Hl as <-.
        destruct (runs_to_lines s !! r) as [ids0|] eqn:Hids; simpl in Hu;
          [by eapply Hio|set_solver].
      * rewrite lookup_insert_ne in Hl by done. by eapply Hio.
Qed.

Lemma exec_lock_step os s : lock_step s → lock_step (exec os s).
Proof.
  revert s. induction os as [|o os IH]; intros s Hls; simpl; [done|].
  apply IH. by apply step_lock_step.
Qed.

Lemma fresh_lock_step m c h : lock_step (fresh m c h).
Proof.
  constructor; simpl.
  - constructor.
  - intros l Hl. by apply elem_of_nil in Hl.
  - intros r ids u Hl. by rewrite lookup_empty in Hl.
  - intros l Hl. by apply elem_of_nil in Hl.
  - intros r ids l Hl. by rewrite lookup_empty in Hl.
Qed.

(** X5. After any sequence of calls on a new controller, whether they
    return or raise, the lines of the axes and [_runs_to_lines] are in lock
    step: line ids are distinct, every line is indexed under the uid of its
    run, and the entry of a uid names no line of another run. *)
Theorem lines_and_index_in_lock_step (m : Z) (c : Config) (h : uid → RunObj)
    (os : list op) :
  lock_step (exec os (fresh m c h)).
Proof. apply exec_lock_step, fresh_lock_step. Qed.

(** X6. On a controller whose lines and index are in lock step, discarding
    a tracked run takes exactly the lines of that run out of the axes: the
    lines of the other runs stay, in their order, and no line of the
    discarded run is left, whether the call returns or raises. *)
Theorem discard_run_removes_its_lines (r : uid) (s : State) :
  lock_step s → r ∈ runs s →
  lines (fst (discard_run r s)) = filter (λ l, line_run l ≠ r) (lines s) ∧
  (r ∉ pinned (fst (discard_run r s))) ∧
  length (runs (fst (discard_run r s))) + 1 = length (runs s).
Proof.
  intros Hls Hr. unfold discard_run. rewrite decide_True by done.
  rewrite on_run_removed_lines by (by apply (lock_step_ext s)).
  rewrite on_run_removed_pinned, on_run_removed_runs. simpl.
  split_and!; [done|set_solver|by apply length_remove_first].
Qed.

Lemma discard_run_removes_its_lines_witness :
  let s := exec [AddRun "a" false; AddRun "b" true; AddRun "c" false]
             (fresh 3 two_ys some_runs) in
  lock_step s ∧ "b" ∈ runs s ∧
  map line_run (lines s) = ["a"; "a"; "b"; "b"; "c"; "c"] ∧
  lines (fst (discard_run "b" s)) = filter (λ l, line_run l ≠ "b") (lines s).
Proof.
  cbv zeta.
  assert (lock_step (exec [AddRun "a" false; AddRun "b" true; AddRun "c" false]
                       (fresh 3 two_ys some_runs))) as Hls
    by apply exec_lock_step, fresh_lock_step.
  assert ("b" ∈ runs (exec [AddRun "a" false; AddRun "b" true; AddRun "c" false]
                        (fresh 3 two_ys some_runs))) as Hr.
  { replace (runs _) with ["a"; "b"; "c"] by (by vm_compute). right. left. }
  split_and!; [exact Hls|exact Hr|by vm_compute|].
  by apply discard_run_removes_its_lines.
Defined.

(** ** What a completion leaves alone *)

Lemma recolored_refl l : recolored l l.
Proof. by repeat split. Qed.

Lemma recolored_trans l1 l2 l3 :
  recolored l1 l2 → recolored l2 l3 → recolored l1 l3.
Proof.
  intros (Hu & Hr & Hl & Hs) (Hu' & Hr' & Hl' & Hs').
  repeat split; try congruence. intros key Hk. by rewrite Hs', Hs.
Qed.

Lemma set_color_recolored c l : recolored l (set_color c l).
Proof.
  repeat split. intros key Hk. simpl. by rewrite lookup_insert_ne.
Qed.

(** The loop of [_on_run_complete] maps a function over the lines that only
    changes colours, and only of the lines whose id is in the loop. *)
Lemma recolor_loop_map us s :
  ∃ F : LineSpec → LineSpec,
    lines (foldl recolor_line s us) = F <$> lines s ∧
    ∀ l, recolored l (F l) ∧ (uuid l ∉ us → F l = l).
Proof.
  revert s. induction us as [|u us IH]; intros s; simpl.
  - exists id. split; [by rewrite list_fmap_id|].
    intros l. split; [apply recolored_refl|done].
  - destruct (IH (recolor_line s u)) as (F & HF & HFl).
    assert (∃ f : LineSpec → LineSpec,
               lines (recolor_line s u) = f <$> lines s ∧
               ∀ l, recolored l (f l) ∧ (uuid l ≠ u → f l = l))
      as (f & Hf & Hfl).
    { unfold recolor_line. destruct (by_uuid _ _) as [l0|].
      - eexists. split; [reflexivity|]. intros l. unfold has_uuid.
        case_bool_decide; (split; [|intros; congruence]);
          [apply set_color_recolored|apply recolored_refl].
      - exists id. split; [by rewrite list_fmap_id|].
        intros l. split; [apply recolored_refl|done]. }
    exists (F ∘ f). split.
    + by rewrite HF, Hf, <- list_fmap_compose.
    + intros l. destruct (Hfl l) as [Hrec Hsame].
      destruct (HFl (f l)) as [Hrec' Hsame']. split.
      * by apply (recolored_trans _ (f l)).
      * intros Hu. apply not_elem_of_cons in Hu as [Hne Hnin]. simpl.
        rewrite Hsame by done. apply HFl. done.
Qed.

(** X7. A completion notification returns, marks the run as no longer
    live, and leaves the registry, the pins and the number and order of the
    lines as they were; each line keeps its id, run, label and every style
    key but "color", and the lines that are not indexed under the completed
    run are left untouched. When the handler is not connected, or the run has
    no indexed line, nothing is recoloured and no colour is drawn. *)
Theorem completion_changes_only_colors (r : uid) (s : State) :
  let ids := default ∅ (runs_to_lines s !! r) in
  let s' := fst (fire_completed r s) in
  snd (fire_completed r s) = Ok tt ∧
  live (heap s' r) = false ∧
  runs s' = runs s ∧ pinned s' = pinned s ∧
  Forall2 (λ l l', recolored l l' ∧ (uuid l ∉ ids → l' = l))
          (lines s) (lines s') ∧
  (completed_cb (heap s r) = false ∨ ids = ∅ →
   lines s' = lines s ∧ color_cycle s' = color_cycle s).
Proof.
  cbv zeta. unfold fire_completed.
  destruct (completed_cb (heap s r)) eqn:Hcb.
  - unfold _on_run_complete. simpl.
    set (ids := default ∅ (runs_to_lines s !! r)).
    set (s1 := set_runs_to_lines _ _).
    destruct (on_run_complete_registry r (run_completes r s)) as [Hr Hp].
    unfold _on_run_complete in Hr, Hp. simpl in Hr, Hp. fold ids s1 in Hr, Hp.
    destruct (recolor_loop_map (elements ids) s1) as (F & HF & HFl).
    split_and!; [done| |done|done| |].
    + apply (foldl_invariant (λ s', live (heap s' r) = false)).
      * intros a b Ha. unfold recolor_line. by destruct (by_uuid _ _).
      * simpl. by rewrite decide_True.
    + rewrite HF. simpl. apply Forall2_fmap_r, Forall_Forall2_diag.
      apply Forall_forall. intros l _. destruct (HFl l) as [Hrec Hsame].
      split; [done|]. intros Hu. apply Hsame. by rewrite elem_of_elements.
    + intros [?|Hempty]; [done|]. by rewrite Hempty, elements_empty.
  - simpl. split_and!; try done.
    + by rewrite decide_True.
    + apply Forall_Forall2_diag, Forall_forall. intros l _.
      split; [apply recolored_refl|done].
Qed.

End RecentLinesMore.

(** * More properties of Image *)

Module ImageMore.

Import Image ImageFacts.

#[local] Arguments Nat.div : simpl never.

(** ** When the transform returns *)

Lemma repeat_middle_slice_raises {A} n (a : ndarray A) :
  n ≤ ndim a →
  (repeat_middle_slice n a = Raise IndexError ↔
   Exists (λ d, d = 0) (take n (shape a))) ∧
  ((∃ b, repeat_middle_slice n a = Ok b) ↔
   Forall (λ d, 0 < d) (take n (shape a))).
Proof.
  revert a. induction n as [|n IH]; intros a Hn.
  - simpl. rewrite take_0. split.
    + split; [done|by intros ?%Exists_nil].
    + split; [constructor|eauto].
  - destruct (shape a) as [|d rest] eqn:Hs;
      [unfold ndim in Hn; rewrite Hs in Hn; simpl in Hn; lia|].
    simpl. rewrite Exists_cons, Forall_cons.
    destruct (decide (d = 0)) as [->|Hd].
    + rewrite (middle_slice_empty a rest Hs). split.
      * split; [by left|done].
      * split; [by intros [b ?]|intros [? _]; lia].
    + rewrite (middle_slice_cons a d rest Hs) by lia.
      set (a' := {| shape := rest; data := _ |}).
      destruct (IH a') as [Hraise Hok].
      { unfold ndim in *. rewrite Hs in Hn. simpl in *. lia. }
      simpl in Hraise, Hok. rewrite Hraise, Hok. split.
      * split; [by right|by intros [?|?]].
      * split; [intros ?; split; [lia|done]|by intros [_ ?]].
Qed.

(** X8. [_transform] returns exactly when none of the leading axes that it
    collapses is empty, and raises IndexError otherwise; an array of at most
    two dimensions is returned as it is. *)
Theorem transform_returns_or_raises {A : Type} (a : ndarray A) :
  ((∃ b, _transform a = Ok b) ↔
   Forall (λ d, 0 < d) (take (ndim a - 2) (shape a))) ∧
  (_transform a = Raise IndexError ↔
   Exists (λ d, d = 0) (take (ndim a - 2) (shape a))) ∧
  (ndim a ≤ 2 → _transform a = Ok a).
Proof.
  rewrite transform_repeat.
  destruct (repeat_middle_slice_raises (ndim a - 2) a) as [Hraise Hok]; [lia|].
  split_and!; [done|done|].
  intros Hle. by replace (ndim a - 2) with 0 by lia.
Qed.

Lemma collapse_ndim {A} fuel (a b : ndarray A) :
  collapse fuel a = Ok b → ndim b ≤ 2.
Proof.
  revert a. induction fuel as [|fuel IH]; intros a; simpl.
  - destruct (decide (2 < ndim a)); [done|]. intros [= <-]. lia.
  - destruct (decide (2 < ndim a)); [|intros [= <-]; lia].
    destruct (middle_slice a) as [a'|e|]; [apply IH|done|done].
Qed.

(** X9. What [_transform] returns has at most two dimensions, and
    transforming it again changes nothing. *)
Theorem transform_idempotent {A : Type} (a b : ndarray A) :
  _transform a = Ok b →
  ndim b ≤ 2 ∧ _transform b = Ok b.
Proof.
  intros Hb. assert (ndim b ≤ 2) as Hn by (by eapply collapse_ndim).
  split; [done|]. rewrite transform_repeat.
  by replace (ndim b - 2) with 0 by lia.
Qed.

Lemma transform_idempotent_witness :
  let a := {| shape := [2; 3; 2; 2]; data := seq 0 24 |} in
  let b := {| shape := [2; 2]; data := [16; 17; 18; 19] |} in
  _transform a = Ok b ∧ _transform b = Ok b.
Proof.
  cbv zeta.
  assert (_transform {| shape := [2; 3; 2; 2]; data := seq 0 24 |} =
          Ok {| shape := [2; 2]; data := [16; 17; 18; 19] |}) as H
    by reflexivity.
  split; [exact H|]. by destruct (transform_idempotent _ _ H).
Defined.

(** ** The run setter *)

Lemma from_end_last (pre : list nat) n : from_end (pre ++ [n]) 1 = Ok n.
Proof.
  unfold from_end. rewrite length_app. simpl.
  rewrite decide_True by lia.
  replace (length pre + 1 - 1) with (length pre + 0) by lia.
  by rewrite lookup_app_r, Nat.add_0_r, Nat.sub_diag by lia.
Qed.

Lemma from_end_second_last (pre : list nat) n k :
  from_end (pre ++ [n; k]) 2 = Ok n.
Proof.
  unfold from_end. rewrite length_app. simpl.
  rewrite decide_True by lia.
  replace (length pre + 2 - 2) with (length pre + 0) by lia.
  by rewrite lookup_app_r, Nat.add_0_r, Nat.sub_diag by lia.
Qed.

Lemma from_end_short (t : list nat) k :
  length t < k → from_end t k = Raise IndexError.
Proof. intros Hk. unfold from_end. by rewrite decide_False by lia. Qed.

(** The setter for a run whose array has at least two dimensions. *)
Lemma set_run_some r m pre nrows ncols :
  array_shape r (field m) = Ok (pre ++ [nrows; ncols]) →
  set_run (Some r) m =
  ({| field := field m; label_maker := label_maker m; _run := Some r;
      images := [{| image_run := run_uid r; image_label := field m |}];
      title := Some (label_maker m r (field m));
      x_limits := Some (default (pixel_limits ncols) (x_limits m));
      y_limits := Some (default (pixel_limits nrows) (y_limits m)) |}, Ok tt).
Proof.
  intros Hs. unfold set_run, _add_image. simpl field. rewrite Hs.
  rewrite from_end_second_last.
  replace (pre ++ [nrows; ncols]) with ((pre ++ [nrows]) ++ [ncols])
    by (by rewrite <- app_assoc).
  rewrite from_end_last.
  destruct m as [f lm r0 im t [lx|] [ly|]]; reflexivity.
Qed.

(** X10. Assigning a run whose field reads as an array of at least two
    dimensions returns and leaves exactly one image in the axes, that of the
    new run, labelled
    with the field; the title is the label maker's; limits that were set
    stay, and limits that were not become [(-0.5, ncols - 0.5)] horizontally
    and [(-0.5, nrows - 0.5)] vertically, for the last two dimensions
    [(nrows, ncols)] of the array. *)
Theorem run_setter_shows_the_run (r : Run) (m : Model) (pre : list nat)
    (nrows ncols : nat) :
  array_shape r (field m) = Ok (pre ++ [nrows; ncols]) →
  set_run (Some r) m =
  ({| field := field m; label_maker := label_maker m; _run := Some r;
      images := [{| image_run := run_uid r; image_label := field m |}];
      title := Some (label_maker m r (field m));
      x_limits := Some (default (pixel_limits ncols) (x_limits m));
      y_limits := Some (default (pixel_limits nrows) (y_limits m)) |}, Ok tt).
Proof. apply set_run_some. Qed.

Lemma run_setter_shows_the_run_witness :
  let r := run_with "abc" "ccd" [7; 4; 5] in
  let m := fst (set_run (Some (run_with "old" "ccd" [2; 3]))
                  (fresh "ccd" (λ _ f, f))) in
  array_shape r (field m) = Ok ([7] ++ [4; 5]) ∧
  images (fst (set_run (Some r) m)) =
    [{| image_run := "abc"; image_label := "ccd" |}] ∧
  x_limits (fst (set_run (Some r) m)) = Some (pixel_limits 3).
Proof.
  cbv zeta. split; [reflexivity|].
  rewrite (run_setter_shows_the_run
             (run_with "abc" "ccd" [7; 4; 5])
             (fst (set_run (Some (run_with "old" "ccd" [2; 3]))
                     (fresh "ccd" (λ _ f, f))))
             [7] 4 5 eq_refl).
  split; reflexivity.
Defined.

(** X11. After any assignment the controller holds the assigned run and
    limits that were set are as they were. The axes hold no image when the
    run is [None] or when reading the field of the run raises, in which case
    the setter raises the exception of the read; they hold the image of the
    run otherwise, even when the setter raises after the read. Once both
    limits are set, an assignment returns whenever the read does, whatever
    the shape of the array. *)
Theorem run_setter_keeps_limits (v : option Run) (m : Model) :
  images (fst (set_run v m)) =
    match v with
    | None => []
    | Some r =>
        if is_ok (array_shape r (field m))
        then [{| image_run := run_uid r; image_label := field m |}]
        else []
    end ∧
  _run (fst (set_run v m)) = v ∧
  (∀ lx, x_limits m = Some lx → x_limits (fst (set_run v m)) = Some lx) ∧
  (∀ ly, y_limits m = Some ly → y_limits (fst (set_run v m)) = Some ly) ∧
  (∀ r e, v = Some r → array_shape r (field m) = Raise e →
          snd (set_run v m) = Raise e) ∧
  (is_Some (x_limits m) → is_Some (y_limits m) →
   snd (set_run v m) =
     match v with
     | None => Ok tt
     | Some r => match array_shape r (field m) with
                 | Ok _ => Ok tt
                 | Raise e => Raise e
                 | OutOfFuel => OutOfFuel
                 end
     end).
Proof.
  unfold set_run, _add_image.
  destruct m as [f lm r0 im t xl yl], v as [r|]; simpl; [|by repeat split].
  destruct (array_shape r f) as [sh|e|] eqn:Hread; simpl.
  - destruct xl as [lx|], yl as [ly|]; simpl;
      destruct (from_end sh 1), (from_end sh 2); simpl;
      split_and!; try done;
      first [ by intros r' e' [= <-] He; simpl in He; rewrite Hread in He
            | by intros [? ?] [? ?] ].
  - split_and!; try done. intros r' e' [= <-] He. simpl in He.
    rewrite Hread in He. by injection He as <-.
  - split_and!; try done. intros r' e' [= <-] He. simpl in He.
    by rewrite Hread in He.
Qed.

(** X12. Assigning a run whose field reads as an array of fewer than two
    dimensions, on axes without vertical limits, raises IndexError after the
    image was appended:
    the run and its image are in place and the vertical limits are still
    unset. *)
Theorem run_setter_needs_two_axes (r : Run) (m : Model) (sh : list nat) :
  array_shape r (field m) = Ok sh →
  length sh < 2 →
  y_limits m = None →
  snd (set_run (Some r) m) = Raise IndexError ∧
  images (fst (set_run (Some r) m)) =
    [{| image_run := run_uid r; image_label := field m |}] ∧
  _run (fst (set_run (Some r) m)) = Some r ∧
  y_limits (fst (set_run (Some r) m)) = None.
Proof.
  intros Hsh Hlen Hy. unfold set_run, _add_image. simpl field. rewrite Hsh.
  rewrite (from_end_short _ 2) by done.
  destruct m as [f lm r0 im t xl yl]. simpl in Hy. subst yl.
  destruct xl as [lx|]; simpl; [done|].
  unfold from_end. destruct (decide _); [destruct (_ !! _)|]; simpl; done.
Qed.

Lemma run_setter_needs_two_axes_witness :
  let r := run_with "abc" "det" [5] in
  array_shape r (field (fresh "det" (λ _ f, f))) = Ok [5] ∧
  length [5] < 2 ∧ y_limits (fresh "det" (λ _ f, f)) = None ∧
  snd (set_run (Some r) (fresh "det" (λ _ f, f))) = Raise IndexError.
Proof.
  cbv zeta.
  assert (length [5] < 2) as Hlen by (simpl; lia).
  split_and!; [reflexivity|exact Hlen|reflexivity|].
  by apply (run_setter_needs_two_axes
              (run_with "abc" "det" [5])
              (fresh "det" (λ _ f, f)) [5] eq_refl Hlen eq_refl).
Defined.

(** X13. The default limits frame the image that [_transform] returns: for
    a well-formed array of at least two dimensions that [_transform] turns
    into [b], a run with that array, assigned to a new controller, sets the
    horizontal limits from the number of columns of [b] and the vertical
    limits from its number of rows. *)
Theorem default_limits_frame_the_image {A : Type} (a b : ndarray A) (r : Run)
    (f : string) (lm : Run → string → string) :
  well_formed a → 2 ≤ ndim a → array_shape r f = Ok (shape a) →
  _transform a = Ok b →
  ∃ nrows ncols,
    shape b = [nrows; ncols] ∧
    snd (set_run (Some r) (fresh f lm)) = Ok tt ∧
    x_limits (fst (set_run (Some r) (fresh f lm))) = Some (pixel_limits ncols) ∧
    y_limits (fst (set_run (Some r) (fresh f lm))) = Some (pixel_limits nrows).
Proof.
  intros Hwf Hdim Hr Hb. rewrite transform_repeat in Hb.
  destruct (repeat_middle_slice_ok _ _ _ Hb) as [Hn Hpos].
  rewrite repeat_middle_slice_closed in Hb by done.
  assert (shape b = drop (ndim a - 2) (shape a)) as Hsb
    by (by injection Hb as <-).
  assert (length (drop (ndim a - 2) (shape a)) = 2) as Hlen
    by (rewrite length_drop; unfold ndim in *; lia).
  remember (drop (ndim a - 2) (shape a)) as t eqn:Hd.
  destruct t as [|nrows [|ncols [|? ?]]]; try done.
  exists nrows, ncols. split; [done|].
  rewrite (set_run_some r _ (take (ndim a - 2) (shape a)) nrows ncols);
    [done|].
  simpl. rewrite Hr. f_equal. by rewrite Hd, take_drop.
Qed.

Lemma default_limits_frame_the_image_witness :
  let a := {| shape := [4; 5; 6]; data := seq 0 120 |} in
  let r := run_with "abc" "ccd" [4; 5; 6] in
  well_formed a ∧ 2 ≤ ndim a ∧
  _transform a = Ok {| shape := [5; 6]; data := seq 60 30 |} ∧
  x_limits (fst (set_run (Some r) (fresh "ccd" (λ _ f, f)))) =
    Some (pixel_limits 6).
Proof.
  cbv zeta.
  assert (well_formed {| shape := [4; 5; 6]; data := seq 0 120 |}) as Hwf
    by reflexivity.
  assert (2 ≤ ndim {| shape := [4; 5; 6]; data := seq 0 120 |}) as Hdim
    by (unfold ndim; simpl; lia).
  assert (_transform {| shape := [4; 5; 6]; data := seq 0 120 |} =
          Ok {| shape := [5; 6]; data := seq 60 30 |}) as Hb by reflexivity.
  split_and!; [exact Hwf|exact Hdim|exact Hb|].
  destruct (default_limits_frame_the_image _ _
              (run_with "abc" "ccd" [4; 5; 6])
              "ccd" (λ _ f, f) Hwf Hdim eq_refl Hb)
    as (nrows & ncols & [= <- <-] & _ & Hx & _).
  exact Hx.
Defined.

End ImageMore.

(** * More properties of RasteredImage *)

Module RasteredImageMore.

Import RasteredImage RasteredImageFacts.

#[local] Arguments Nat.div : simpl never.
#[local] Arguments Nat.modulo : simpl never.
#[local] Arguments num_gt : simpl never.
#[local] Arguments num_ge : simpl never.

(** ** Where the points land *)

Section Raster.

Context {A : Type}.
Implicit Types (g : list (list (option A))) (data : list A).

Lemma scan_index_of_position shape snaking i :
  i < fst shape * snd shape →
  let r := i / snd shape in
  let c := i mod snd shape in
  let c' := if snd snaking && Nat.odd r then snd shape - c - 1 else c in
  r < fst shape ∧ c' < snd shape ∧ scan_index shape snaking r c' = i.
Proof.
  destruct shape as [R C]. simpl. intros Hi.
  assert (C ≠ 0) as HC by (intros ->; lia).
  pose proof (Nat.mod_upper_bound i C HC) as Hc.
  pose proof (Nat.div_mod_eq i C) as Hdm.
  assert (i / C < R) as Hr by (apply Nat.Div0.div_lt_upper_bound; lia).
  unfold scan_index. simpl.
  destruct (snd snaking && Nat.odd (i / C)); split_and!; try done; lia.
Qed.

Lemma position_of_scan_index shape snaking r c i :
  c < snd shape → scan_index shape snaking r c = i →
  r = i / snd shape ∧
  c = (if snd snaking && Nat.odd r then snd shape - i mod snd shape - 1
       else i mod snd shape).
Proof.
  destruct shape as [R C]. unfold scan_index. simpl. intros Hc Hi.
  set (m := if snd snaking && Nat.odd r then C - c - 1 else c) in Hi.
  assert (m < C) as Hm by (subst m; destruct (_ && _); lia).
  assert (r = i / C) as Hr by (apply (Nat.div_unique i C r m); lia).
  assert (m = i mod C) as Hmod by (apply (Nat.mod_unique i C r m); lia).
  split; [done|]. rewrite <- Hmod. subst m.
  destruct (snd snaking && Nat.odd r); lia.
Qed.

(** The loop from index [i] on: the cells of the points before [i] are
    filled, the others are as they were, NaN. *)
Lemma fill_cells shape snaking data0 rest i g :
  drop i data0 = rest →
  i + length rest ≤ fst shape * snd shape →
  length g = fst shape →
  (∀ j row, g !! j = Some row → length row = snd shape) →
  (∀ r c, r < fst shape → c < snd shape →
          cell g r c =
          Some (if decide (scan_index shape snaking r c < i)
                then data0 !! scan_index shape snaking r c else None)) →
  ∃ g', fill shape snaking i rest g = Ok g' ∧
        length g' = fst shape ∧
        (∀ j row, g' !! j = Some row → length row = snd shape) ∧
        ∀ r c, r < fst shape → c < snd shape →
               cell g' r c =
               Some (if decide (scan_index shape snaking r c < i + length rest)
                     then data0 !! scan_index shape snaking r c else None).
Proof.
  revert i g. induction rest as [|d rest IH]; intros i g Hdrop Hfit Hlen Hrows Hcells.
  - exists g. simpl. rewrite Nat.add_0_r. done.
  - simpl in Hfit. simpl.
    destruct (scan_index_of_position shape snaking i) as (Hr & Hc' & Hidx); [lia|].
    simpl in Hr, Hc', Hidx.
    unfold unravel_index. rewrite decide_True by lia.
    set (r := i / snd shape) in *. set (c := i mod snd shape) in *.
    set (c' := if snd snaking && Nat.odd r then snd shape - c - 1 else c) in *.
    assert (data0 !! i = Some d) as Hd.
    { rewrite <- (Nat.add_0_r i), <- lookup_drop, Hdrop. done. }
    destruct (lookup_lt_is_Some_2 g r) as [row0 Hrow0]; [lia|].
    pose proof (Hrows r row0 Hrow0) as Hlen0.
    destruct (IH (S i) (alter (<[ c' := Some d ]>) r g)) as (g' & Hfill & Hlen' & Hrows' & Hcells').
    + replace (S i) with (i + 1) by lia. rewrite <- drop_drop, Hdrop. done.
    + lia.
    + by rewrite length_alter.
    + intros j row Hj. destruct (decide (j = r)) as [->|Hne].
      * rewrite list_lookup_alter_eq, Hrow0 in Hj. simpl in Hj.
        injection Hj as <-. by rewrite length_insert.
      * rewrite list_lookup_alter_ne in Hj by done. by eapply Hrows.
    + intros r0 c0 Hr0 Hc0. unfold cell.
      destruct (decide (r0 = r)) as [->|Hne].
      * rewrite list_lookup_alter_eq, Hrow0. simpl.
        destruct (decide (c0 = c')) as [->|Hnec].
        -- rewrite list_lookup_insert_eq by lia.
           rewrite Hidx, decide_True by lia. by rewrite Hd.
        -- rewrite list_lookup_insert_ne by done.
           specialize (Hcells r c0 Hr0 Hc0). unfold cell in Hcells.
           rewrite Hrow0 in Hcells. simpl in Hcells. rewrite Hcells.
           assert (scan_index shape snaking r c0 ≠ i) as Hother.
           { intros Heq.
             destruct (position_of_scan_index _ _ _ _ _ Hc0 Heq) as [_ Hc0'].
             apply Hnec. rewrite Hc0'. done. }
           destruct (decide (_ < i)), (decide (_ < S i)); try done; lia.
      * rewrite list_lookup_alter_ne by done.
        specialize (Hcells r0 c0 Hr0 Hc0). unfold cell in Hcells.
        rewrite Hcells.
        assert (scan_index shape snaking r0 c0 ≠ i) as Hother.
        { intros Heq.
          destruct (position_of_scan_index _ _ _ _ _ Hc0 Heq) as [Hr0' _].
          by apply Hne. }
        destruct (decide (_ < i)), (decide (_ < S i)); try done; lia.
    + exists g'. replace (i + S (length rest)) with (S i + length rest) by lia.
      done.
Qed.

Lemma blank_cells (shape : nat * nat) :
  length (blank (A:=A) shape) = fst shape ∧
  (∀ j row, blank (A:=A) shape !! j = Some row → length row = snd shape) ∧
  ∀ r c, r < fst shape → c < snd shape →
         cell (blank (A:=A) shape) r c = Some None.
Proof.
  unfold blank. split_and!.
  - by rewrite length_replicate.
  - intros j row [-> _]%lookup_replicate. by rewrite length_replicate.
  - intros r c Hr Hc. unfold cell.
    rewrite lookup_replicate_2 by done. simpl.
    by rewrite lookup_replicate_2.
Qed.

(** The grid that [_transform] returns, cell by cell. *)
Lemma transform_cells shape snaking data :
  length data ≤ fst shape * snd shape →
  ∃ g, _transform shape snaking data = Ok g ∧
       length g = fst shape ∧
       Forall (λ row, length row = snd shape) g ∧
       ∀ r c, r < fst shape → c < snd shape →
              cell g r c = Some (data !! scan_index shape snaking r c).
Proof.
  intros Hfit. destruct (blank_cells shape) as (Hlen & Hrows & Hcells).
  destruct (fill_cells shape snaking data data 0 (blank shape))
    as (g & Hfill & Hlen' & Hrows' & Hcells');
    [done|simpl; lia|done|done| |].
  { intros r c Hr Hc. rewrite Hcells by done. by rewrite decide_False by lia. }
  exists g. split_and!; [done|done| |].
  - apply Forall_lookup. intros j row Hj. by eapply Hrows'.
  - intros r c Hr Hc. rewrite Hcells' by done. simpl.
    destruct (decide _) as [|Hge]; [done|].
    f_equal. symmetry. apply lookup_ge_None. lia.
Qed.

Lemma fill_overflow shape snaking rest i g :
  i ≤ fst shape * snd shape < i + length rest →
  fill shape snaking i rest g = Raise ValueError.
Proof.
  revert i g. induction rest as [|d rest IH]; intros i g Hi; simpl in *; [lia|].
  unfold unravel_index. destruct (decide _) as [Hlt|Hge]; [|done].
  apply IH. lia.
Qed.

End Raster.

(** X14. When the data has no more points than the grid has cells,
    [_transform] returns a grid of [rows] rows of [cols] cells in which the
    cell at row [r] and column [c] holds the point at position
    [r * cols + c] of the data, or at [r * cols + (cols - 1 - c)] when the
    column axis snakes and [r] is odd, and is NaN when the data has no such
    point yet. *)
Theorem transform_places_every_point {A : Type} (shape : nat * nat)
    (snaking : bool * bool) (data : list A) :
  length data ≤ fst shape * snd shape →
  ∃ g, _transform shape snaking data = Ok g ∧
       length g = fst shape ∧
       Forall (λ row, length row = snd shape) g ∧
       ∀ r c, r < fst shape → c < snd shape →
              cell g r c = Some (data !! scan_index shape snaking r c).
Proof. apply transform_cells. Qed.

Lemma transform_places_every_point_witness :
  (length [10; 11; 12; 13]%Z ≤ fst (2, 3) * snd (2, 3)) ∧
  _transform (2, 3) (false, true) [10; 11; 12; 13]%Z =
    Ok [[Some 10; Some 11; Some 12]; [None; None; Some 13]]%Z ∧
  ∃ g, _transform (2, 3) (false, true) [10; 11; 12; 13]%Z = Ok g ∧
       cell g 1 2 = Some ([10; 11; 12; 13]%Z !! 3).
Proof.
  assert (length [10; 11; 12; 13]%Z ≤ fst (2, 3) * snd (2, 3)) as Hfit
    by (simpl; lia).
  split_and!; [exact Hfit|reflexivity|].
  destruct (transform_places_every_point (2, 3) (false, true)
              [10; 11; 12; 13]%Z Hfit) as (g & Hg & _ & _ & Hcells).
  exists g. split; [exact Hg|].
  apply (Hcells 1 2); simpl; lia.
Defined.

(** X15. When the data has more points than the grid has cells,
    [_transform] raises ValueError. *)
Theorem transform_rejects_surplus_points {A : Type} (shape : nat * nat)
    (snaking : bool * bool) (data : list A) :
  fst shape * snd shape < length data →
  _transform shape snaking data = Raise ValueError.
Proof. intros Hover. apply fill_overflow. lia. Qed.

Lemma transform_rejects_surplus_points_witness :
  (fst (2, 2) * snd (2, 2) < length [1; 2; 3; 4; 5]%Z) ∧
  _transform (2, 2) (true, true) [1; 2; 3; 4; 5]%Z = Raise ValueError.
Proof.
  assert (fst (2, 2) * snd (2, 2) < length [1; 2; 3; 4; 5]%Z) as Hover
    by (simpl; lia).
  split; [exact Hover|]. by apply transform_rejects_surplus_points.
Defined.

(** X16. Points that arrive later do not disturb the cells that are filled:
    when the data grows and still fits the grid, every cell that held a point
    holds the same point in the new grid. *)
Theorem transform_keeps_filled_cells {A : Type} (shape : nat * nat)
    (snaking : bool * bool) (data more : list A) :
  length (data ++ more) ≤ fst shape * snd shape →
  ∃ g g', _transform shape snaking data = Ok g ∧
          _transform shape snaking (data ++ more) = Ok g' ∧
          ∀ r c x, cell g r c = Some (Some x) → cell g' r c = Some (Some x).
Proof.
  intros Hfit.
  destruct (transform_cells shape snaking data) as (g & Hg & Hlen & Hrows & Hcells).
  { rewrite length_app in Hfit. lia. }
  destruct (transform_cells shape snaking (data ++ more) Hfit)
    as (g' & Hg' & _ & _ & Hcells').
  exists g, g'. split_and!; [done|done|].
  intros r c x Hx.
  assert (r < fst shape ∧ c < snd shape) as [Hr Hc].
  { unfold cell in Hx. destruct (g !! r) as [row|] eqn:Hrow; [|done].
    simpl in Hx. split.
    - apply lookup_lt_Some in Hrow. lia.
    - apply lookup_lt_Some in Hx.
      rewrite Forall_lookup in Hrows. by rewrite (Hrows r row Hrow) in Hx. }
  rewrite Hcells in Hx by done. rewrite Hcells' by done.
  injection Hx as Hx. by rewrite (lookup_app_l_Some _ _ _ _ Hx).
Qed.

Lemma transform_keeps_filled_cells_witness :
  (length ([10; 11]%Z ++ [12; 13]%Z) ≤ fst (2, 3) * snd (2, 3)) ∧
  ∃ g g', _transform (2, 3) (false, true) [10; 11]%Z = Ok g ∧
          _transform (2, 3) (false, true) ([10; 11] ++ [12; 13])%Z = Ok g' ∧
          ∀ r c x, cell g r c = Some (Some x) → cell g' r c = Some (Some x).
Proof.
  assert (length ([10; 11]%Z ++ [12; 13]%Z) ≤ fst (2, 3) * snd (2, 3)) as Hfit
    by (simpl; lia).
  split; [exact Hfit|]. by apply transform_keeps_filled_cells.
Defined.

(** ** The controller: styles *)

Lemma default_x_limits_frame r m :
  let m' := fst (default_x_limits r m) in
  images m' = images m ∧ _cmap m' = _cmap m ∧ _clim m' = _clim m ∧
  _extent m' = _extent m ∧ _run m' = _run m ∧ title m' = title m ∧
  x_label m' = x_label m ∧ y_label m' = y_label m ∧
  _x_positive (orient m') = _x_positive (orient m) ∧
  _y_positive (orient m') = _y_positive (orient m) ∧
  y_limits (orient m') = y_limits (orient m).
Proof.
  unfold default_x_limits. repeat case_match; simpl; done.
Qed.

Lemma default_y_limits_frame r m :
  let m' := fst (default_y_limits r m) in
  images m' = images m ∧ _cmap m' = _cmap m ∧ _clim m' = _clim m ∧
  _extent m' = _extent m ∧ _run m' = _run m ∧ title m' = title m ∧
  x_label m' = x_label m ∧ y_label m' = y_label m ∧
  _x_positive (orient m') = _x_positive (orient m) ∧
  _y_positive (orient m') = _y_positive (orient m) ∧
  x_limits (orient m') = x_limits (orient m).
Proof.
  unfold default_y_limits. repeat case_match; simpl; done.
Qed.

(** What [_add_image] does whether it returns or raises: one more image,
    styled from the settings; the settings and the stored orientations
    stay. *)
Lemma add_image_frame r m :
  let m' := fst (_add_image r m) in
  images m' = images m ++
    [ {| image_run := uid r; image_label := field m;
         style := <[ "cmap" := _cmap m ]>
                    (<[ "clim" := _clim m ]> {[ "extent" := _extent m ]}) |} ] ∧
  _cmap m' = _cmap m ∧ _clim m' = _clim m ∧ _extent m' = _extent m ∧
  _run m' = _run m ∧
  title m' = Some (label_maker m r (field m)) ∧
  _x_positive (orient m') = _x_positive (orient m) ∧
  _y_positive (orient m') = _y_positive (orient m).
Proof.
  unfold _add_image.
  destruct (md_item (motors r) 1) as [mx|e|]; [|simpl; done..].
  destruct (md_item (motors r) 0) as [my|e|]; [|simpl; done..].
  match goal with
  | |- context [default_x_limits r ?m4] =>
      pose proof (default_x_limits_frame r m4) as Hx;
      destruct (default_x_limits r m4) as [m5 [[]|e|]] eqn:H5
  end; simpl in Hx; destruct Hx as (?&?&?&?&?&?&?&?&?&?&?).
  - pose proof (default_y_limits_frame r m5) as Hy. simpl in Hy.
    destruct Hy as (?&?&?&?&?&?&?&?&?&?&?). simpl. split_and!; congruence.
  - simpl. split_and!; congruence.
  - simpl. split_and!; congruence.
Qed.

Lemma set_run_frame v m :
  let m' := fst (set_run v m) in
  images m' = match v with
              | Some r =>
                  [ {| image_run := uid r; image_label := field m;
                       style := <[ "cmap" := _cmap m ]>
                                  (<[ "clim" := _clim m ]>
                                     {[ "extent" := _extent m ]}) |} ]
              | None => []
              end ∧
  _cmap m' = _cmap m ∧ _clim m' = _clim m ∧ _extent m' = _extent m ∧
  _run m' = v ∧
  _x_positive (orient m') = _x_positive (orient m) ∧
  _y_positive (orient m') = _y_positive (orient m).
Proof.
  unfold set_run. destruct v as [r|]; [|simpl; done].
  pose proof (add_image_frame r (set_images [] (set_run_field (Some r) m))) as H.
  simpl in H. destruct H as (?&?&?&?&?&?&?&?). simpl. split_and!; done.
Qed.

Lemma step_styled o m : styled m → styled (step o m).
Proof.
  intros [Hlen Hsty]. destruct o as [v|v|v|v| |v| |v]; simpl.
  - split; [simpl; by rewrite length_fmap|].
    intros i Hi. simpl in Hi. apply list_elem_of_fmap in Hi as (j & -> & Hj).
    destruct (Hsty j Hj) as (Hc & Hl & He). simpl.
    rewrite lookup_insert_eq. by split_and!; [|rewrite lookup_insert_ne..].
  - split; [simpl; by rewrite length_fmap|].
    intros i Hi. simpl in Hi. apply list_elem_of_fmap in Hi as (j & -> & Hj).
    destruct (Hsty j Hj) as (Hc & Hl & He). simpl.
    rewrite lookup_insert_eq. by split_and!; [rewrite lookup_insert_ne| |rewrite lookup_insert_ne].
  - split; [simpl; by rewrite length_fmap|].
    intros i Hi. simpl in Hi. apply list_elem_of_fmap in Hi as (j & -> & Hj).
    destruct (Hsty j Hj) as (Hc & Hl & He). simpl.
    rewrite lookup_insert_eq. by split_and!; [rewrite lookup_insert_ne..|].
  - destruct (set_run_frame v m) as (Him & Hc & Hl & He & _).
    unfold styled. rewrite Him, Hc, Hl, He. destruct v as [r|].
    + split; [simpl; lia|]. intros i Hi. apply list_elem_of_singleton in Hi as ->.
      simpl. rewrite lookup_insert_eq.
      rewrite lookup_insert_ne by done. rewrite lookup_insert_eq.
      do 2 rewrite lookup_insert_ne by done. by rewrite lookup_singleton_eq.
    + split; [simpl; lia|]. intros i Hi. by apply elem_of_nil in Hi.
  - done.
  - done.
  - done.
  - done.
Qed.

Lemma exec_styled os m : styled m → styled (exec os m).
Proof.
  revert m. induction os as [|o os IH]; intros m Hm; [done|].
  simpl. apply IH. by apply step_styled.
Qed.

(** X17. Whatever is called on a RasteredImage controller that was built
    with axes of its own (the setters of [cmap], [clim], [extent] and [run],
    the getters and setters of [x_positive] and [y_positive], returning or
    raising), the axes hold at most one image, and the style of that image
    carries the colour map, the colour limits and the extent that the
    controller holds. *)
Theorem images_carry_the_settings (field : string)
    (label_maker : RunStart → string → string) (clim cmap extent : pyval)
    (vx vy : string) (os : list op) :
  let m := exec os (fresh field label_maker clim cmap extent vx vy) in
  length (images m) ≤ 1 ∧
  ∀ i, i ∈ images m →
       style i !! "cmap" = Some (_cmap m) ∧
       style i !! "clim" = Some (_clim m) ∧
       style i !! "extent" = Some (_extent m).
Proof.
  apply exec_styled. split; [simpl; lia|].
  intros i Hi. by apply elem_of_nil in Hi.
Qed.

(** ** The controller: the first run *)

Lemma lower_le_upper n : num_le lower (upper n) = true.
Proof.
  unfold lower, upper, num_le. apply Qle_bool_iff. unfold Qle. simpl. lia.
Qed.

Lemma upper_le_lower n : 0 < n → num_le (upper n) lower = false.
Proof.
  intros Hn. unfold lower, upper, num_le.
  apply not_true_iff_false. rewrite Qle_bool_iff.
  unfold Qle. simpl. lia.
Qed.

Lemma default_x_limits_ok r m rows cols sh :
  md_shape r = Some (rows :: cols :: sh) →
  snd (default_x_limits r m) = Ok tt ∧
  x_limits (orient (fst (default_x_limits r m))) =
    match x_limits (orient m) with
    | Some l => Some l
    | None => if str_eq (_x_positive (orient m)) "right"
              then Some (lower, upper cols)
              else if str_eq (_x_positive (orient m)) "left"
              then Some (upper cols, lower) else None
    end.
Proof.
  intros Hs. unfold default_x_limits. rewrite Hs. simpl.
  destruct (x_limits (orient m)) as [l|] eqn:Hl; simpl; [done|].
  destruct (str_eq _ "right"); simpl; [done|].
  destruct (str_eq _ "left"); simpl; done.
Qed.

Lemma default_y_limits_ok r m rows cols sh :
  md_shape r = Some (rows :: cols :: sh) →
  snd (default_y_limits r m) = Ok tt ∧
  y_limits (orient (fst (default_y_limits r m))) =
    match y_limits (orient m) with
    | Some l => Some l
    | None => if str_eq (_y_positive (orient m)) "up"
              then Some (lower, upper rows)
              else if str_eq (_y_positive (orient m)) "down"
              then Some (upper rows, lower) else None
    end.
Proof.
  intros Hs. unfold default_y_limits. rewrite Hs. simpl.
  destruct (y_limits (orient m)) as [l|] eqn:Hl; simpl; [done|].
  destruct (str_eq _ "up"); simpl; [done|].
  destruct (str_eq _ "down"); simpl; done.
Qed.

Lemma set_run_limits m r my mx ms rows cols sh :
  motors r = Some (my :: mx :: ms) →
  md_shape r = Some (rows :: cols :: sh) →
  let m1 := fst (set_run (Some r) m) in
  snd (set_run (Some r) m) = Ok tt ∧
  title m1 = Some (label_maker m r (field m)) ∧
  x_label m1 = Some mx ∧ y_label m1 = Some my ∧
  x_limits (orient m1) =
    match x_limits (orient m) with
    | Some l => Some l
    | None => if str_eq (_x_positive (orient m)) "right"
              then Some (lower, upper cols)
              else if str_eq (_x_positive (orient m)) "left"
              then Some (upper cols, lower) else None
    end ∧
  y_limits (orient m1) =
    match y_limits (orient m) with
    | Some l => Some l
    | None => if str_eq (_y_positive (orient m)) "up"
              then Some (lower, upper rows)
              else if str_eq (_y_positive (orient m)) "down"
              then Some (upper rows, lower) else None
    end.
Proof.
  intros Hm Hs. unfold set_run, _add_image. rewrite Hm. simpl.
  match goal with
  | |- context [default_x_limits r ?m4] =>
      pose proof (default_x_limits_frame r m4) as Hfx;
      pose proof (default_x_limits_ok r m4 rows cols sh Hs) as [Hokx Hlx];
      destruct (default_x_limits r m4) as [m5 ox]
  end.
  simpl in Hfx, Hokx, Hlx. subst ox.
  destruct Hfx as (_ & _ & _ & _ & _ & Ht & Hxl & Hyl & _ & Hyp & Hyy).
  pose proof (default_y_limits_frame r m5) as Hfy.
  pose proof (default_y_limits_ok r m5 rows cols sh Hs) as [Hoky Hly].
  simpl in Hfy.
  destruct Hfy as (_ & _ & _ & _ & _ & Ht' & Hxl' & Hyl' & _ & _ & Hxx).
  split_and!; [done|congruence|congruence|congruence| |].
  - by rewrite Hxx, Hlx.
  - by rewrite Hly, Hyy, Hyp.
Qed.

Lemma get_x_of_default s v n :
  0 < n → v ∈ ["right"; "left"] →
  x_limits s = (if str_eq v "right" then Some (lower, upper n)
                else if str_eq v "left" then Some (upper n, lower) else None) →
  snd (get_x_positive s) = Ok v.
Proof.
  intros Hn Hv Hl. unfold get_x_positive, num_gt.
  assert (v = "right" ∨ v = "left") as [-> | ->] by set_solver;
    simpl in Hl; rewrite Hl.
  - by rewrite lower_le_upper, upper_le_lower.
  - by rewrite lower_le_upper, upper_le_lower.
Qed.

Lemma get_y_of_default s v n :
  0 < n → v ∈ ["up"; "down"] →
  y_limits s = (if str_eq v "up" then Some (lower, upper n)
                else if str_eq v "down" then Some (upper n, lower) else None) →
  snd (get_y_positive s) = Ok v.
Proof.
  intros Hn Hv Hl. unfold get_y_positive, num_gt.
  assert (v = "up" ∨ v = "down") as [-> | ->] by set_solver;
    simpl in Hl; rewrite Hl.
  - by rewrite lower_le_upper, upper_le_lower.
  - by rewrite lower_le_upper, upper_le_lower.
Qed.

(** X18. On a controller whose axes have no limits yet and whose stored
    orientations are valid, setting a run whose start document has at least
    two motors and a shape [(rows, cols, ...)] returns; the axes then show
    one image of that run, titled by the label maker, the x label is the
    second motor and the y label the first, the x limits are
    [(-0.5, cols - 0.5)], reversed when x is positive to the left, the y
    limits are [(-0.5, rows - 0.5)], reversed when y is positive downwards,
    and with at least one column and one row the getters of [x_positive] and
    [y_positive] return the orientations that the controller was given. *)
Theorem first_run_frames_the_raster (m : Model) (r : RunStart)
    (my mx : string) (ms : list string) (rows cols : nat) (sh : list nat) :
  x_limits (orient m) = None → y_limits (orient m) = None →
  _x_positive (orient m) ∈ ["right"; "left"] →
  _y_positive (orient m) ∈ ["up"; "down"] →
  motors r = Some (my :: mx :: ms) →
  md_shape r = Some (rows :: cols :: sh) →
  let m1 := fst (set_run (Some r) m) in
  snd (set_run (Some r) m) = Ok tt ∧
  _run m1 = Some r ∧
  images m1 =
    [ {| image_run := uid r; image_label := field m;
         style := <[ "cmap" := _cmap m ]>
                    (<[ "clim" := _clim m ]> {[ "extent" := _extent m ]}) |} ] ∧
  title m1 = Some (label_maker m r (field m)) ∧
  x_label m1 = Some mx ∧ y_label m1 = Some my ∧
  x_limits (orient m1) =
    Some (if bool_decide (_x_positive (orient m) = "right")
          then (lower, upper cols) else (upper cols, lower)) ∧
  y_limits (orient m1) =
    Some (if bool_decide (_y_positive (orient m) = "up")
          then (lower, upper rows) else (upper rows, lower)) ∧
  (0 < cols → snd (x_positive m1) = Ok (_x_positive (orient m))) ∧
  (0 < rows → snd (y_positive m1) = Ok (_y_positive (orient m))).
Proof.
  intros Hxl Hyl Hvx Hvy Hm Hs.
  destruct (set_run_limits m r my mx ms rows cols sh Hm Hs)
    as (Hok & Ht & Hx & Hy & Hlx & Hly).
  destruct (set_run_frame (Some r) m) as (Him & _ & _ & _ & Hr & _).
  rewrite Hxl in Hlx. rewrite Hyl in Hly.
  cbv zeta. split_and!; try done.
  - rewrite Hlx. unfold str_eq.
    assert (_x_positive (orient m) = "right" ∨ _x_positive (orient m) = "left")
      as [-> | ->] by set_solver; done.
  - rewrite Hly. unfold str_eq.
    assert (_y_positive (orient m) = "up" ∨ _y_positive (orient m) = "down")
      as [-> | ->] by set_solver; done.
  - intros Hc. unfold x_positive. simpl. by apply (get_x_of_default _ _ cols).
  - intros Hr'. unfold y_positive. simpl. by apply (get_y_of_default _ _ rows).
Qed.

Lemma first_run_frames_the_raster_witness :
  let m := fresh "I" (λ r f, uid r +:+ f) PNone (PStr "viridis") PNone
             "left" "up" in
  let r := {| uid := "abc"; motors := Some ["my"; "mx"];
              md_shape := Some [2; 3] |} in
  x_limits (orient m) = None ∧ y_limits (orient m) = None ∧
  _x_positive (orient m) ∈ ["right"; "left"] ∧
  _y_positive (orient m) ∈ ["up"; "down"] ∧
  x_limits (orient (fst (set_run (Some r) m))) = Some (upper 3, lower) ∧
  y_limits (orient (fst (set_run (Some r) m))) = Some (lower, upper 2) ∧
  snd (x_positive (fst (set_run (Some r) m))) = Ok "left".
Proof.
  cbv zeta.
  set (m := fresh "I" (λ r f, uid r +:+ f) PNone (PStr "viridis") PNone
              "left" "up").
  set (r := {| uid := "abc"; motors := Some ["my"; "mx"];
               md_shape := Some [2; 3] |}).
  assert (_x_positive (orient m) ∈ ["right"; "left"]) as Hvx by (right; left).
  assert (_y_positive (orient m) ∈ ["up"; "down"]) as Hvy by left.
  destruct (first_run_frames_the_raster m r "my" "mx" [] 2 3 []
              eq_refl eq_refl Hvx Hvy eq_refl eq_refl)
    as (_ & _ & _ & _ & _ & _ & Hlx & Hly & Hgx & _).
  split_and!; [reflexivity|reflexivity|exact Hvx|exact Hvy|exact Hlx|exact Hly|].
  apply Hgx. lia.
Defined.

(** ** The controller: orientation and limits *)

Lemma default_x_limits_skip r m :
  x_limits (orient m) ≠ None ∨ _x_positive (orient m) ∉ ["right"; "left"] →
  default_x_limits r m = (m, Ok tt).
Proof.
  intros H. unfold default_x_limits, str_eq.
  destruct (x_limits (orient m)) as [l|]; simpl; [done|].
  destruct H as [H|H]; [done|].
  rewrite !bool_decide_false; [done| |]; intros Heq; apply H; rewrite Heq;
    [right; left|left].
Qed.

Lemma default_y_limits_skip r m :
  y_limits (orient m) ≠ None ∨ _y_positive (orient m) ∉ ["up"; "down"] →
  default_y_limits r m = (m, Ok tt).
Proof.
  intros H. unfold default_y_limits, str_eq.
  destruct (y_limits (orient m)) as [l|]; simpl; [done|].
  destruct H as [H|H]; [done|].
  rewrite !bool_decide_false; [done| |]; intros Heq; apply H; rewrite Heq;
    [right; left|left].
Qed.

Lemma set_run_x_limits_skip v m :
  x_limits (orient m) ≠ None ∨ _x_positive (orient m) ∉ ["right"; "left"] →
  x_limits (orient (fst (set_run v m))) = x_limits (orient m).
Proof.
  intros H. unfold set_run. destruct v as [r|]; [|done].
  unfold _add_image.
  destruct (md_item (motors r) 1) as [mx|e|]; [|done..].
  destruct (md_item (motors r) 0) as [my|e|]; [|done..].
  rewrite default_x_limits_skip by done. cbv beta iota.
  match goal with
  | |- context [default_y_limits r ?m4] =>
      pose proof (default_y_limits_frame r m4) as Hf
  end.
  cbv zeta in Hf. destruct Hf as (_&_&_&_&_&_&_&_&_&_&Hf). by rewrite Hf.
Qed.

Lemma set_run_y_limits_skip v m :
  y_limits (orient m) ≠ None ∨ _y_positive (orient m) ∉ ["up"; "down"] →
  y_limits (orient (fst (set_run v m))) = y_limits (orient m).
Proof.
  intros H. unfold set_run. destruct v as [r|]; [|done].
  unfold _add_image.
  destruct (md_item (motors r) 1) as [mx|e|]; [|done..].
  destruct (md_item (motors r) 0) as [my|e|]; [|done..].
  match goal with
  | |- context [default_x_limits r ?m4] =>
      pose proof (default_x_limits_frame r m4) as Hf;
      destruct (default_x_limits r m4) as [m5 [[]|e|]]
  end; simpl in Hf; destruct Hf as (_&_&_&_&_&_&_&_&_&Hp&Hf); [|done..].
  rewrite default_y_limits_skip; [done|]. simpl in Hp. by rewrite Hf, Hp.
Qed.

(** X19. A valid orientation that is set while the axes have no limits
    raises TypeError, but the controller keeps it: when a run with two motors
    and a shape [(rows, cols, ...)] is set next, the default limits follow
    that orientation, and with at least one column (one row) the getter
    returns it. *)
Theorem orientation_set_before_a_run (m : Model) (r : RunStart) (v : string)
    (my mx : string) (ms : list string) (rows cols : nat) (sh : list nat) :
  motors r = Some (my :: mx :: ms) →
  md_shape r = Some (rows :: cols :: sh) →
  (x_limits (orient m) = None → v ∈ ["right"; "left"] →
   let m1 := fst (x_positive_set v m) in
   let m2 := fst (set_run (Some r) m1) in
   snd (x_positive_set v m) = Raise TypeError ∧
   x_limits (orient m1) = None ∧
   snd (set_run (Some r) m1) = Ok tt ∧
   x_limits (orient m2) =
     Some (if bool_decide (v = "right")
           then (lower, upper cols) else (upper cols, lower)) ∧
   (0 < cols → snd (x_positive m2) = Ok v)) ∧
  (y_limits (orient m) = None → v ∈ ["up"; "down"] →
   let m1 := fst (y_positive_set v m) in
   let m2 := fst (set_run (Some r) m1) in
   snd (y_positive_set v m) = Raise TypeError ∧
   y_limits (orient m1) = None ∧
   snd (set_run (Some r) m1) = Ok tt ∧
   y_limits (orient m2) =
     Some (if bool_decide (v = "up")
           then (lower, upper rows) else (upper rows, lower)) ∧
   (0 < rows → snd (y_positive m2) = Ok v)).
Proof.
  intros Hm Hs. split.
  - intros Hl Hv. cbv zeta.
    assert (x_positive_set v m
            = (set_orient (set__x_positive v (orient m)) m, Raise TypeError))
      as Hset.
    { unfold x_positive_set, set_x_positive. rewrite bool_decide_true by done.
      simpl. by rewrite Hl. }
    rewrite Hset. simpl fst. simpl snd.
    destruct (set_run_limits (set_orient (set__x_positive v (orient m)) m)
                r my mx ms rows cols sh Hm Hs) as (Hok & _ & _ & _ & Hlx & _).
    simpl in Hlx. rewrite Hl in Hlx.
    split_and!; [done|by simpl|done| |].
    + rewrite Hlx. unfold str_eq.
      assert (v = "right" ∨ v = "left") as [-> | ->] by set_solver; done.
    + intros Hc. unfold x_positive. simpl snd.
      by apply (get_x_of_default _ _ cols).
  - intros Hl Hv. cbv zeta.
    assert (y_positive_set v m
            = (set_orient (set__y_positive v (orient m)) m, Raise TypeError))
      as Hset.
    { unfold y_positive_set, set_y_positive. rewrite bool_decide_true by done.
      simpl. by rewrite Hl. }
    rewrite Hset. simpl fst. simpl snd.
    destruct (set_run_limits (set_orient (set__y_positive v (orient m)) m)
                r my mx ms rows cols sh Hm Hs) as (Hok & _ & _ & _ & _ & Hly).
    simpl in Hly. rewrite Hl in Hly.
    split_and!; [done|by simpl|done| |].
    + rewrite Hly. unfold str_eq.
      assert (v = "up" ∨ v = "down") as [-> | ->] by set_solver; done.
    + intros Hc. unfold y_positive. simpl snd.
      by apply (get_y_of_default _ _ rows).
Qed.

Lemma orientation_set_before_a_run_witness :
  let m := fresh "I" (λ r f, uid r +:+ f) PNone (PStr "viridis") PNone
             "right" "up" in
  let r := {| uid := "abc"; motors := Some ["my"; "mx"];
              md_shape := Some [2; 3] |} in
  x_limits (orient m) = None ∧ "left" ∈ ["right"; "left"] ∧
  snd (x_positive_set "left" m) = Raise TypeError ∧
  x_limits (orient (fst (set_run (Some r) (fst (x_positive_set "left" m)))))
    = Some (upper 3, lower) ∧
  snd (x_positive (fst (set_run (Some r) (fst (x_positive_set "left" m)))))
    = Ok "left".
Proof.
  cbv zeta.
  set (m := fresh "I" (λ r f, uid r +:+ f) PNone (PStr "viridis") PNone
              "right" "up").
  set (r := {| uid := "abc"; motors := Some ["my"; "mx"];
               md_shape := Some [2; 3] |}).
  assert ("left" ∈ ["right"; "left"]) as Hv by (right; left).
  destruct (orientation_set_before_a_run m r "left" "my" "mx" [] 2 3 []
              eq_refl eq_refl) as [Hx _].
  destruct (Hx eq_refl Hv) as (Hraise & _ & _ & Hlx & Hgx).
  split_and!; [reflexivity|exact Hv|exact Hraise|exact Hlx|].
  apply Hgx. lia.
Defined.

(** X20. The constructor does not check the orientations. With a stored
    [x_positive] that is neither "right" nor "left" and axes without x
    limits, setting a run (or None) leaves the x limits unset, whatever the
    run holds and whether the setter returns or raises, and reading
    [x_positive] then raises TypeError. The same holds for [y_positive],
    "up" and "down" and the y limits. *)
Theorem unknown_orientation_leaves_limits_unset (m : Model)
    (v : option RunStart) :
  (x_limits (orient m) = None → _x_positive (orient m) ∉ ["right"; "left"] →
   x_limits (orient (fst (set_run v m))) = None ∧
   snd (x_positive (fst (set_run v m))) = Raise TypeError) ∧
  (y_limits (orient m) = None → _y_positive (orient m) ∉ ["up"; "down"] →
   y_limits (orient (fst (set_run v m))) = None ∧
   snd (y_positive (fst (set_run v m))) = Raise TypeError).
Proof.
  split; intros Hl Hv.
  - assert (x_limits (orient (fst (set_run v m))) = None) as Hn.
    { rewrite set_run_x_limits_skip; [done|by right]. }
    split; [done|]. unfold x_positive, get_x_positive. simpl snd. by rewrite Hn.
  - assert (y_limits (orient (fst (set_run v m))) = None) as Hn.
    { rewrite set_run_y_limits_skip; [done|by right]. }
    split; [done|]. unfold y_positive, get_y_positive. simpl snd. by rewrite Hn.
Qed.

Lemma unknown_orientation_leaves_limits_unset_witness :
  let m := fresh "I" (λ r f, uid r +:+ f) PNone (PStr "viridis") PNone
             "east" "up" in
  let r := {| uid := "abc"; motors := Some ["my"; "mx"];
              md_shape := Some [2; 3] |} in
  x_limits (orient m) = None ∧ (_x_positive (orient m) ∉ ["right"; "left"]) ∧
  snd (set_run (Some r) m) = Ok tt ∧
  x_limits (orient (fst (set_run (Some r) m))) = None ∧
  snd (x_positive (fst (set_run (Some r) m))) = Raise TypeError.
Proof.
  cbv zeta.
  set (m := fresh "I" (λ r f, uid r +:+ f) PNone (PStr "viridis") PNone
              "east" "up").
  set (r := {| uid := "abc"; motors := Some ["my"; "mx"];
               md_shape := Some [2; 3] |}).
  assert (_x_positive (orient m) ∉ ["right"; "left"]) as Hv.
  { intros H. apply elem_of_cons in H as [H|H]; [discriminate H|].
    apply elem_of_cons in H as [H|H]; [discriminate H|].
    by apply elem_of_nil in H. }
  destruct (unknown_orientation_leaves_limits_unset m (Some r)) as [Hx _].
  destruct (Hx eq_refl Hv) as [Hn Hg].
  split_and!; [reflexivity|exact Hv|reflexivity|exact Hn|exact Hg].
Defined.

(** X21. The run setter never replaces limits that the axes have and never
    changes the stored orientations: limits that are set stay as they are,
    whatever run is set and whether the setter returns or raises; so a
    second run of another shape is framed by the limits of the first. *)
Theorem run_setter_keeps_set_limits (m : Model) (v : option RunStart)
    (l : num * num) :
  (x_limits (orient m) = Some l →
   x_limits (orient (fst (set_run v m))) = Some l) ∧
  (y_limits (orient m) = Some l →
   y_limits (orient (fst (set_run v m))) = Some l) ∧
  _x_positive (orient (fst (set_run v m))) = _x_positive (orient m) ∧
  _y_positive (orient (fst (set_run v m))) = _y_positive (orient m).
Proof.
  destruct (set_run_frame v m) as (_ & _ & _ & _ & _ & Hxp & Hyp).
  split_and!; [| |done|done].
  - intros Hl. rewrite set_run_x_limits_skip; [done|]. left. by rewrite Hl.
  - intros Hl. rewrite set_run_y_limits_skip; [done|]. left. by rewrite Hl.
Qed.

Lemma run_setter_keeps_set_limits_witness :
  let m := fresh "I" (λ r f, uid r +:+ f) PNone (PStr "viridis") PNone
             "right" "up" in
  let r1 := {| uid := "abc"; motors := Some ["my"; "mx"];
               md_shape := Some [2; 3] |} in
  let r2 := {| uid := "def"; motors := Some ["my"; "mx"];
               md_shape := Some [5; 7] |} in
  let m1 := fst (set_run (Some r1) m) in
  x_limits (orient m1) = Some (lower, upper 3) ∧
  snd (set_run (Some r2) m1) = Ok tt ∧
  x_limits (orient (fst (set_run (Some r2) m1))) = Some (lower, upper 3).
Proof.
  cbv zeta.
  set (m := fresh "I" (λ r f, uid r +:+ f) PNone (PStr "viridis") PNone
              "right" "up").
  set (r1 := {| uid := "abc"; motors := Some ["my"; "mx"];
                md_shape := Some [2; 3] |}).
  set (r2 := {| uid := "def"; motors := Some ["my"; "mx"];
                md_shape := Some [5; 7] |}).
  assert (x_limits (orient (fst (set_run (Some r1) m))) = Some (lower, upper 3))
    as H1 by reflexivity.
  split_and!; [exact H1|reflexivity|].
  destruct (run_setter_keeps_set_limits (fst (set_run (Some r1) m)) (Some r2)
              (lower, upper 3)) as (Hx & _).
  exact (Hx H1).
Defined.

(** ** Orientation with limits that are set *)

Lemma num_eq_Fin (a b : Q) : num_eq (Fin a) (Fin b) = true ↔ (a == b)%Q.
Proof.
  unfold num_eq. simpl. rewrite andb_true_iff, !Qle_bool_iff. split.
  - intros [Hab Hba]. by apply Qle_antisym.
  - intros Heq. rewrite Heq. split; apply Qle_refl.
Qed.

Lemma set_x_positive_limits s a b v :
  x_limits s = Some (a, b) → v ∈ ["right"; "left"] →
  let s1 := fst (set_x_positive v s) in
  snd (set_x_positive v s) = Ok tt ∧
  _x_positive s1 = v ∧ _y_positive s1 = _y_positive s ∧
  y_limits s1 = y_limits s ∧
  x_limits s1 = Some (if (num_gt a b && str_eq v "right")
                         || (num_gt b a && str_eq v "left")
                      then (b, a) else (a, b)).
Proof.
  intros Hl Hv. unfold set_x_positive. rewrite bool_decide_true by done.
  simpl. rewrite Hl.
  assert (v = "right" ∨ v = "left") as [-> | ->] by set_solver;
    unfold str_eq; simpl;
    destruct (num_gt a b), (num_gt b a), (num_ge a b), (num_ge b a); simpl;
    done.
Qed.

Lemma set_y_positive_limits s a b v :
  y_limits s = Some (a, b) → v ∈ ["up"; "down"] →
  let s1 := fst (set_y_positive v s) in
  snd (set_y_positive v s) = Ok tt ∧
  _y_positive s1 = v ∧ _x_positive s1 = _x_positive s ∧
  x_limits s1 = x_limits s ∧
  y_limits s1 = Some (if (num_gt a b && str_eq v "up")
                         || (num_gt b a && str_eq v "down")
                      then (b, a) else (a, b)).
Proof.
  intros Hl Hv. unfold set_y_positive. rewrite bool_decide_true by done.
  simpl. rewrite Hl.
  assert (v = "up" ∨ v = "down") as [-> | ->] by set_solver;
    unfold str_eq; simpl;
    destruct (num_gt a b), (num_gt b a), (num_ge a b), (num_ge b a); simpl;
    done.
Qed.

(** X22. With limits that are equal, [(a, b)] with [a == b], the setters of
    [x_positive] and [y_positive] accept every valid value, return and leave
    the limits as they are, and the getters then answer "right" and "up":
    "left" and "down" cannot be read back. *)
Theorem equal_limits_read_right_and_up (s : State) (a b : num) (v : string) :
  num_eq a b = true →
  (x_limits s = Some (a, b) → v ∈ ["right"; "left"] →
   snd (set_x_positive v s) = Ok tt ∧
   x_limits (fst (set_x_positive v s)) = Some (a, b) ∧
   snd (get_x_positive (fst (set_x_positive v s))) = Ok "right") ∧
  (y_limits s = Some (a, b) → v ∈ ["up"; "down"] →
   snd (set_y_positive v s) = Ok tt ∧
   y_limits (fst (set_y_positive v s)) = Some (a, b) ∧
   snd (get_y_positive (fst (set_y_positive v s))) = Ok "up").
Proof.
  intros Heq. unfold num_eq in Heq. apply andb_true_iff in Heq as [Hab Hba].
  assert (num_gt a b = false) as Hgab by (unfold num_gt; by rewrite Hab, Hba).
  assert (num_gt b a = false) as Hgba by (unfold num_gt; by rewrite Hab, Hba).
  split; intros Hl Hv.
  - destruct (set_x_positive_limits s a b v Hl Hv) as (Hok & _ & _ & _ & Hx).
    rewrite Hgab, Hgba in Hx. simpl in Hx.
    split_and!; [done|done|].
    unfold get_x_positive. rewrite Hx. by rewrite Hgab.
  - destruct (set_y_positive_limits s a b v Hl Hv) as (Hok & _ & _ & _ & Hy).
    rewrite Hgab, Hgba in Hy. simpl in Hy.
    split_and!; [done|done|].
    unfold get_y_positive. rewrite Hy. by rewrite Hgab.
Qed.

Lemma equal_limits_read_right_and_up_witness :
  let s := {| _x_positive := "right"; _y_positive := "up";
              x_limits := Some (Fin (-(1 # 2)), Fin (-(1 # 2)));
              y_limits := None |} in
  num_eq (Fin (-(1 # 2))) (Fin (-(1 # 2))) = true ∧
  "left" ∈ ["right"; "left"] ∧
  snd (set_x_positive "left" s) = Ok tt ∧
  snd (get_x_positive (fst (set_x_positive "left" s))) = Ok "right".
Proof.
  cbv zeta.
  assert (num_eq (Fin (-(1 # 2))) (Fin (-(1 # 2))) = true) as Heq
    by reflexivity.
  assert ("left" ∈ ["right"; "left"]) as Hv by (right; left).
  destruct (equal_limits_read_right_and_up
              {| _x_positive := "right"; _y_positive := "up";
                 x_limits := Some (Fin (-(1 # 2)), Fin (-(1 # 2)));
                 y_limits := None |}
              (Fin (-(1 # 2))) (Fin (-(1 # 2))) "left" Heq) as [Hx _].
  destruct (Hx eq_refl Hv) as (Hok & _ & Hg).
  split_and!; [exact Heq|exact Hv|exact Hok|exact Hg].
Defined.

(** X23. With x limits [(a, b)], the setter of [x_positive] with a valid
    value stores the value, keeps the limits or swaps them (they are [(a, b)]
    or [(b, a)] afterwards), leaves the y orientation and the y limits
    alone, and setting the same value again changes nothing. The same holds
    for the setter of [y_positive] and the y limits. *)
Theorem orientation_setter_swaps_at_most_once (s : State) (a b : num)
    (v : string) :
  (x_limits s = Some (a, b) → v ∈ ["right"; "left"] →
   let s1 := fst (set_x_positive v s) in
   _x_positive s1 = v ∧
   (x_limits s1 = Some (a, b) ∨ x_limits s1 = Some (b, a)) ∧
   _y_positive s1 = _y_positive s ∧ y_limits s1 = y_limits s ∧
   set_x_positive v s1 = (s1, Ok tt)) ∧
  (y_limits s = Some (a, b) → v ∈ ["up"; "down"] →
   let s1 := fst (set_y_positive v s) in
   _y_positive s1 = v ∧
   (y_limits s1 = Some (a, b) ∨ y_limits s1 = Some (b, a)) ∧
   _x_positive s1 = _x_positive s ∧ x_limits s1 = x_limits s ∧
   set_y_positive v s1 = (s1, Ok tt)).
Proof.
  split; intros Hl Hv; cbv zeta.
  - destruct (set_x_positive_limits s a b v Hl Hv) as (_ & Hp & Hyp & Hyl & Hx).
    split_and!; [done| |done|done|].
    { rewrite Hx. destruct (_ || _); [by right|by left]. }
    destruct s as [xp yp xl yl]. simpl in Hl. subst xl.
    unfold set_x_positive. rewrite bool_decide_true by done. simpl.
    assert (v = "right" ∨ v = "left") as [-> | ->] by set_solver;
      unfold str_eq; simpl;
      destruct (num_gt a b) eqn:Hab, (num_gt b a) eqn:Hba,
               (num_ge a b) eqn:Hga, (num_ge b a) eqn:Hgb; simpl;
      rewrite ?Hab, ?Hba, ?Hga, ?Hgb; simpl; try done;
      by rewrite (num_gt_asym _ _ Hab) in Hba.
  - destruct (set_y_positive_limits s a b v Hl Hv) as (_ & Hp & Hxp & Hxl & Hy).
    split_and!; [done| |done|done|].
    { rewrite Hy. destruct (_ || _); [by right|by left]. }
    destruct s as [xp yp xl yl]. simpl in Hl. subst yl.
    unfold set_y_positive. rewrite bool_decide_true by done. simpl.
    assert (v = "up" ∨ v = "down") as [-> | ->] by set_solver;
      unfold str_eq; simpl;
      destruct (num_gt a b) eqn:Hab, (num_gt b a) eqn:Hba,
               (num_ge a b) eqn:Hga, (num_ge b a) eqn:Hgb; simpl;
      rewrite ?Hab, ?Hba, ?Hga, ?Hgb; simpl; try done;
      by rewrite (num_gt_asym _ _ Hab) in Hba.
Qed.

Lemma orientation_setter_swaps_at_most_once_witness :
  let s := {| _x_positive := "right"; _y_positive := "up";
              x_limits := Some (Fin (-(1 # 2)), Fin (5 # 2));
              y_limits := None |} in
  x_limits s = Some (Fin (-(1 # 2)), Fin (5 # 2)) ∧
  "left" ∈ ["right"; "left"] ∧
  x_limits (fst (set_x_positive "left" s))
    = Some (Fin (5 # 2), Fin (-(1 # 2))) ∧
  set_x_positive "left" (fst (set_x_positive "left" s))
    = (fst (set_x_positive "left" s), Ok tt).
Proof.
  cbv zeta.
  assert ("left" ∈ ["right"; "left"]) as Hv by (right; left).
  destruct (orientation_setter_swaps_at_most_once
              {| _x_positive := "right"; _y_positive := "up";
                 x_limits := Some (Fin (-(1 # 2)), Fin (5 # 2));
                 y_limits := None |}
              (Fin (-(1 # 2))) (Fin (5 # 2)) "left") as [Hx _].
  destruct (Hx eq_refl Hv) as (_ & _ & _ & _ & Hidem).
  split_and!; [reflexivity|exact Hv|reflexivity|exact Hidem].
Defined.

End RasteredImageMore.
